(** * bt-cpp: the behavior tree engine of [include/bt/behavior_tree.hpp]

    A shallow embedding of [bt::Node<Context>] and of its execution API
    ([Tick], [Reset], [Validate], [ValidateTree]) together with the
    properties of the dispatch algorithms.

    Conventions of the embedding.
    - [Context] is the template parameter; a callback that receives
      [Context&] is a function that returns the updated context.
    - A node owns the subtrees it points to: the structure is a tree, as the
      library's construction API builds it.  A null pointer in the children
      array is the slot [None].
    - [children_] holds the first [children_count_] slots of the inline array,
      so [children_count_] is its length.
    - [current_child_] and the three counters of [TickParallel] are
      [uint16_t] in the source.  They are natural numbers here: each one is
      bounded by [children_count_], itself a [uint16_t], so the source
      arithmetic never wraps.
    - The two bitmaps are [uint32_t]; they are integers here and the shift
      that builds a mask is reduced modulo [2^32].  The source leaves a
      shift by 32 or more undefined: the properties of Parallel nodes assume
      at most [kMaxParallelChildren] children, which is what [Validate]
      demands of them.
    - Every [Tick] also returns the log of the callbacks it invoked and of
      the children it ticked.  The log is an observation device only: no
      definition ever reads it. *)

From Stdlib Require Import List ZArith Lia Bool Arith String.
Import ListNotations.
Local Open Scope Z_scope.
Set Warnings "-register-all".

(** ** Status, node type, policy, validation error *)

Inductive Status : Type :=
| kSuccess
| kFailure
| kRunning
| kError.

(** [kInvalidType] stands for any [uint8_t] value outside the six
    enumerators; it is what the [default] branch of [Tick] receives. *)
Inductive NodeType : Type :=
| kAction
| kCondition
| kSequence
| kSelector
| kParallel
| kInverter
| kInvalidType.

Inductive ParallelPolicy : Type :=
| kRequireAll
| kRequireOne.

Inductive ValidateError : Type :=
| kNone
| kLeafMissingTick
| kInverterNotOneChild
| kParallelExceedsBitmap
| kChildrenExceedMax
| kNullChild.

Definition Status_eqb (a b : Status) : bool :=
  match a, b with
  | kSuccess, kSuccess | kFailure, kFailure
  | kRunning, kRunning | kError, kError => true
  | _, _ => false
  end.

Definition IsLeafType (t : NodeType) : bool :=
  match t with
  | kAction | kCondition => true
  | _ => false
  end.

Definition IsCompositeType (t : NodeType) : bool :=
  match t with
  | kSequence | kSelector | kParallel => true
  | _ => false
  end.

(** ** The observation log *)

Inductive Event : Type :=
| EvEnter                                   (* on_enter_(ctx) was called *)
| EvExit                                    (* on_exit_(ctx) was called *)
| EvTickFn                                  (* tick_(ctx) was called *)
| EvChild (i : nat) (r : Status) (sub : list Event).
                                            (* children_[i]->Tick(ctx) returned r *)

(** The children ticked by one call, in call order, with what they returned. *)
Definition child_tick (e : Event) : option (nat * Status) :=
  match e with
  | EvChild i r _ => Some (i, r)
  | _ => None
  end.

Fixpoint child_ticks (evs : list Event) : list (nat * Status) :=
  match evs with
  | [] => []
  | e :: rest =>
      match child_tick e with
      | Some p => p :: child_ticks rest
      | None => child_ticks rest
      end
  end.

Definition is_lifecycle (e : Event) : bool :=
  match e with
  | EvEnter | EvExit => true
  | _ => false
  end.

(** ** 32-bit masks *)

Definition uint32_max : Z := 2 ^ 32.

(** [static_cast<uint32_t>(1) << i] *)
Definition bit_mask (i : nat) : Z := Z.shiftl 1 (Z.of_nat i) mod uint32_max.

(** [(bits & mask) != 0U] *)
Definition bit_test (bits mask : Z) : bool := negb (Z.land bits mask =? 0).

(** Bit [k] of a bitmap. *)
Definition bit_at (bits : Z) (k : nat) : bool := Z.testbit bits (Z.of_nat k).

(** Child [k] is recorded as done with, respectively without, success. *)
Definition succeeded_at (done success : Z) (k : nat) : bool :=
  bit_at done k && bit_at success k.

Definition failed_at (done success : Z) (k : nat) : bool :=
  bit_at done k && negb (bit_at success k).

(** A success bit is only ever set together with its done bit. *)
Definition bits_ok (done success : Z) : Prop :=
  forall k : nat, bit_at success k = true -> bit_at done k = true.

Section BehaviorTree.

Context {Context : Type}.

(** [BT_MAX_CHILDREN], the capacity of the inline children array. *)
Variable kMaxChildren : nat.

Definition kMaxParallelChildren : nat := 32%nat.

Definition TickFn : Type := Context -> Status * Context.
Definition CallbackFn : Type := Context -> Context.

(** ** Node *)

Inductive Node : Type := mkNode {
  type_ : NodeType;
  status_ : Status;
  current_child_ : nat;
  success_policy_ : ParallelPolicy;
  child_done_bits_ : Z;
  child_success_bits_ : Z;
  tick_ : option TickFn;
  on_enter_ : option CallbackFn;
  on_exit_ : option CallbackFn;
  children_ : list (option Node);
  name_ : string
}.

Definition children_count_ (n : Node) : nat := List.length (children_ n).

(** [explicit Node(const char* name = "")] *)
Definition NewNode (name : string) : Node :=
  mkNode kAction kFailure 0%nat kRequireAll 0 0 None None None [] name.

(** Assignments to the mutable fields. *)
Definition set_status (n : Node) (s : Status) : Node :=
  mkNode (type_ n) s (current_child_ n) (success_policy_ n)
         (child_done_bits_ n) (child_success_bits_ n)
         (tick_ n) (on_enter_ n) (on_exit_ n) (children_ n) (name_ n).

Definition set_current_child (n : Node) (i : nat) : Node :=
  mkNode (type_ n) (status_ n) i (success_policy_ n)
         (child_done_bits_ n) (child_success_bits_ n)
         (tick_ n) (on_enter_ n) (on_exit_ n) (children_ n) (name_ n).

Definition set_bits (n : Node) (done success : Z) : Node :=
  mkNode (type_ n) (status_ n) (current_child_ n) (success_policy_ n)
         done success
         (tick_ n) (on_enter_ n) (on_exit_ n) (children_ n) (name_ n).

Definition set_children (n : Node) (cs : list (option Node)) : Node :=
  mkNode (type_ n) (status_ n) (current_child_ n) (success_policy_ n)
         (child_done_bits_ n) (child_success_bits_ n)
         (tick_ n) (on_enter_ n) (on_exit_ n) cs (name_ n).

(** [ChildAt]: bounds-checked access, null outside [0, children_count_). *)
Definition ChildAt (n : Node) (index : nat) : option Node :=
  match nth_error (children_ n) index with
  | Some slot => slot
  | None => None
  end.

(** What one [Tick] hands back: the returned status, the node after the
    call, the context after the call, and the log of the call. *)
Record Outcome : Type := mkOutcome {
  out_status : Status;
  out_node : Node;
  out_ctx : Context;
  out_events : list Event
}.

(** [CallEnter] / [CallExit]: a no-op when the slot is unbound. *)
Definition CallEnter (n : Node) (ctx : Context) : Context * list Event :=
  match on_enter_ n with
  | Some f => (f ctx, [EvEnter])
  | None => (ctx, [])
  end.

Definition CallExit (n : Node) (ctx : Context) : Context * list Event :=
  match on_exit_ n with
  | Some f => (f ctx, [EvExit])
  | None => (ctx, [])
  end.

(** [if (status_ != Status::kRunning) CallEnter(ctx);] *)
Definition enter_if_fresh (n : Node) (ctx : Context) : Context * list Event :=
  match status_ n with
  | kRunning => (ctx, [])
  | _ => CallEnter n ctx
  end.

(** [if (result != Status::kRunning) CallExit(ctx);] *)
Definition exit_if_finished (n : Node) (result : Status) (ctx : Context)
  : Context * list Event :=
  match result with
  | kRunning => (ctx, [])
  | _ => CallExit n ctx
  end.

(** ** TickLeaf *)

Definition TickLeaf (n : Node) (ctx : Context) : Outcome :=
  match tick_ n with
  | None => mkOutcome kError (set_status n kError) ctx []
  | Some f =>
      let '(ctx1, ev1) := enter_if_fresh n ctx in
      let '(result, ctx2) := f ctx1 in
      let n1 := set_status n result in
      let '(ctx3, ev3) := exit_if_finished n1 result ctx2 in
      mkOutcome result n1 ctx3 (ev1 ++ EvTickFn :: ev3)
  end.

(** ** The loops over the children array

    The loops are written once for an arbitrary [tick_child], the function
    that [child->Tick(ctx)] calls; [Tick] below ties the knot. *)

(** How the [for] loop of [TickSequence] / [TickSelector] was left. *)
Inductive ScanExit : Type :=
| ScanNull (i : nat)                 (* ChildAt(i) == nullptr *)
| ScanReturn (i : nat) (s : Status)  (* child i returned s and ended the scan *)
| ScanEnd.                           (* i reached children_count_ *)

Record Scan : Type := mkScan {
  scan_exit : ScanExit;
  scan_slots : list (option Node);
  scan_ctx : Context;
  scan_events : list Event
}.

Definition scan_cons (slot : option Node) (evs : list Event) (s : Scan) : Scan :=
  mkScan (scan_exit s) (slot :: scan_slots s) (scan_ctx s) (evs ++ scan_events s).

(** Per-cycle state of [TickParallel]: the two bitmaps and the counters. *)
Record ParState : Type := mkParState {
  par_done : Z;
  par_success : Z;
  running_count : nat;
  success_count : nat;
  failure_count : nat
}.

(** What one iteration of the loop of [TickParallel] leaves. *)
Record ParStep : Type := mkParStep {
  step_state : ParState;
  step_slot : option Node;
  step_ctx : Context;
  step_events : list Event
}.

Record ParScan : Type := mkParScan {
  pscan_state : ParState;
  pscan_slots : list (option Node);
  pscan_ctx : Context;
  pscan_events : list Event
}.

Definition pscan_cons (slot : option Node) (evs : list Event) (s : ParScan)
  : ParScan :=
  mkParScan (pscan_state s) (slot :: pscan_slots s) (pscan_ctx s)
            (evs ++ pscan_events s).

Section Loops.

Variable tick_child : Node -> Context -> Outcome.

(** [for (uint16_t i = current_child_; i < children_count_; ++i)] of
    [TickSequence].  [slots] are the array slots from index [i] on; the slots
    below [start] are not part of the iteration. *)
Fixpoint TickSequence_loop (start i : nat) (slots : list (option Node))
         (ctx : Context) {struct slots} : Scan :=
  match slots with
  | [] => mkScan ScanEnd [] ctx []
  | slot :: rest =>
      if (i <? start)%nat then
        scan_cons slot [] (TickSequence_loop start (S i) rest ctx)
      else
        match slot with
        | None => mkScan (ScanNull i) slots ctx []
        | Some child =>
            let o := tick_child child ctx in
            let here := EvChild i (out_status o) (out_events o) in
            match out_status o with
            | kRunning =>
                mkScan (ScanReturn i kRunning) (Some (out_node o) :: rest)
                       (out_ctx o) [here]
            | kSuccess =>
                scan_cons (Some (out_node o)) [here]
                          (TickSequence_loop start (S i) rest (out_ctx o))
            | child_status =>
                mkScan (ScanReturn i child_status) (Some (out_node o) :: rest)
                       (out_ctx o) [here]
            end
        end
  end.

(** The same loop of [TickSelector]. *)
Fixpoint TickSelector_loop (start i : nat) (slots : list (option Node))
         (ctx : Context) {struct slots} : Scan :=
  match slots with
  | [] => mkScan ScanEnd [] ctx []
  | slot :: rest =>
      if (i <? start)%nat then
        scan_cons slot [] (TickSelector_loop start (S i) rest ctx)
      else
        match slot with
        | None => mkScan (ScanNull i) slots ctx []
        | Some child =>
            let o := tick_child child ctx in
            let here := EvChild i (out_status o) (out_events o) in
            match out_status o with
            | kRunning =>
                mkScan (ScanReturn i kRunning) (Some (out_node o) :: rest)
                       (out_ctx o) [here]
            | kSuccess =>
                mkScan (ScanReturn i kSuccess) (Some (out_node o) :: rest)
                       (out_ctx o) [here]
            | kError =>
                mkScan (ScanReturn i kError) (Some (out_node o) :: rest)
                       (out_ctx o) [here]
            | kFailure =>
                scan_cons (Some (out_node o)) [here]
                          (TickSelector_loop start (S i) rest (out_ctx o))
            end
        end
  end.

(** Both loops are one scan that goes on while a child returns [pass]
    ([kSuccess] for a Sequence, [kFailure] for a Selector) and returns the
    child's status otherwise; see [TickSequence_loop_scan] and
    [TickSelector_loop_scan]. *)
Fixpoint scan_children (pass : Status) (start i : nat)
         (slots : list (option Node)) (ctx : Context) {struct slots} : Scan :=
  match slots with
  | [] => mkScan ScanEnd [] ctx []
  | slot :: rest =>
      if (i <? start)%nat then
        scan_cons slot [] (scan_children pass start (S i) rest ctx)
      else
        match slot with
        | None => mkScan (ScanNull i) slots ctx []
        | Some child =>
            let o := tick_child child ctx in
            let here := EvChild i (out_status o) (out_events o) in
            if Status_eqb (out_status o) pass then
              scan_cons (Some (out_node o)) [here]
                        (scan_children pass start (S i) rest (out_ctx o))
            else
              mkScan (ScanReturn i (out_status o)) (Some (out_node o) :: rest)
                     (out_ctx o) [here]
        end
  end.

(** The body of the [for] loop of [TickParallel] at index [i]. *)
Definition TickParallel_body (i : nat) (slot : option Node) (st : ParState)
           (ctx : Context) : ParStep :=
  let mask := bit_mask i in
  if bit_test (par_done st) mask then
    (* Skip already-finished children *)
    if bit_test (par_success st) mask
    then mkParStep (mkParState (par_done st) (par_success st)
                               (running_count st) (S (success_count st))
                               (failure_count st))
                   slot ctx []
    else mkParStep (mkParState (par_done st) (par_success st)
                               (running_count st) (success_count st)
                               (S (failure_count st)))
                   slot ctx []
  else
    match slot with
    | None =>
        mkParStep (mkParState (Z.lor (par_done st) mask) (par_success st)
                              (running_count st) (success_count st)
                              (S (failure_count st)))
                  slot ctx []
    | Some child =>
        let o := tick_child child ctx in
        let here := EvChild i (out_status o) (out_events o) in
        let st1 :=
          match out_status o with
          | kRunning =>
              mkParState (par_done st) (par_success st)
                         (S (running_count st)) (success_count st)
                         (failure_count st)
          | kSuccess =>
              mkParState (Z.lor (par_done st) mask)
                         (Z.lor (par_success st) mask)
                         (running_count st) (S (success_count st))
                         (failure_count st)
          | _ =>
              mkParState (Z.lor (par_done st) mask) (par_success st)
                         (running_count st) (success_count st)
                         (S (failure_count st))
          end in
        mkParStep st1 (Some (out_node o)) (out_ctx o) [here]
    end.

(** [for (uint16_t i = 0; i < children_count_; ++i)] of [TickParallel]. *)
Fixpoint TickParallel_loop (i : nat) (slots : list (option Node))
         (st : ParState) (ctx : Context) {struct slots} : ParScan :=
  match slots with
  | [] => mkParScan st [] ctx []
  | slot :: rest =>
      let b := TickParallel_body i slot st ctx in
      pscan_cons (step_slot b) (step_events b)
                 (TickParallel_loop (S i) rest (step_state b) (step_ctx b))
  end.

(** ** TickSequence *)

Definition TickSequence (n : Node) (ctx : Context) : Outcome :=
  let n0 :=
    match status_ n with
    | kRunning => n
    | _ => set_current_child n 0%nat
    end in
  let '(ctx0, ev0) := enter_if_fresh n ctx in
  let s := TickSequence_loop (current_child_ n0) 0%nat (children_ n) ctx0 in
  let n1 := set_children n0 (scan_slots s) in
  match scan_exit s with
  | ScanNull _ =>
      let n2 := set_status n1 kError in
      let '(ctx2, ev2) := CallExit n2 (scan_ctx s) in
      mkOutcome kError n2 ctx2 (ev0 ++ scan_events s ++ ev2)
  | ScanReturn i kRunning =>
      let n2 := set_status (set_current_child n1 i) kRunning in
      mkOutcome kRunning n2 (scan_ctx s) (ev0 ++ scan_events s)
  | ScanReturn i child_status =>
      let n2 := set_status (set_current_child n1 i) child_status in
      let '(ctx2, ev2) := CallExit n2 (scan_ctx s) in
      mkOutcome child_status n2 ctx2 (ev0 ++ scan_events s ++ ev2)
  | ScanEnd =>
      let n2 := set_status n1 kSuccess in
      let '(ctx2, ev2) := CallExit n2 (scan_ctx s) in
      mkOutcome kSuccess n2 ctx2 (ev0 ++ scan_events s ++ ev2)
  end.

(** ** TickSelector *)

Definition TickSelector (n : Node) (ctx : Context) : Outcome :=
  let n0 :=
    match status_ n with
    | kRunning => n
    | _ => set_current_child n 0%nat
    end in
  let '(ctx0, ev0) := enter_if_fresh n ctx in
  let s := TickSelector_loop (current_child_ n0) 0%nat (children_ n) ctx0 in
  let n1 := set_children n0 (scan_slots s) in
  match scan_exit s with
  | ScanNull _ =>
      let n2 := set_status n1 kError in
      let '(ctx2, ev2) := CallExit n2 (scan_ctx s) in
      mkOutcome kError n2 ctx2 (ev0 ++ scan_events s ++ ev2)
  | ScanReturn i kRunning =>
      let n2 := set_status (set_current_child n1 i) kRunning in
      mkOutcome kRunning n2 (scan_ctx s) (ev0 ++ scan_events s)
  | ScanReturn i child_status =>
      let n2 := set_status (set_current_child n1 i) child_status in
      let '(ctx2, ev2) := CallExit n2 (scan_ctx s) in
      mkOutcome child_status n2 ctx2 (ev0 ++ scan_events s ++ ev2)
  | ScanEnd =>
      let n2 := set_status n1 kFailure in
      let '(ctx2, ev2) := CallExit n2 (scan_ctx s) in
      mkOutcome kFailure n2 ctx2 (ev0 ++ scan_events s ++ ev2)
  end.

(** ** TickParallel *)

(** [// Evaluate policy] *)
Definition evaluate_policy (policy : ParallelPolicy) (st : ParState) : Status :=
  match policy with
  | kRequireOne =>
      if (0 <? success_count st)%nat then kSuccess
      else if (0 <? running_count st)%nat then kRunning
      else kFailure
  | kRequireAll =>
      if (0 <? failure_count st)%nat then kFailure
      else if (0 <? running_count st)%nat then kRunning
      else kSuccess
  end.

Definition TickParallel (n : Node) (ctx : Context) : Outcome :=
  let n0 :=
    match status_ n with
    | kRunning => n
    | _ => set_bits n 0 0
    end in
  let '(ctx0, ev0) := enter_if_fresh n ctx in
  let st0 := mkParState (child_done_bits_ n0) (child_success_bits_ n0)
                        0%nat 0%nat 0%nat in
  let s := TickParallel_loop 0%nat (children_ n) st0 ctx0 in
  let st := pscan_state s in
  let n1 := set_bits (set_children n0 (pscan_slots s))
                     (par_done st) (par_success st) in
  let result := evaluate_policy (success_policy_ n) st in
  let n2 := set_status n1 result in
  let '(ctx2, ev2) := exit_if_finished n2 result (pscan_ctx s) in
  mkOutcome result n2 ctx2 (ev0 ++ pscan_events s ++ ev2).

(** ** TickInverter *)

Definition TickInverter (n : Node) (ctx : Context) : Outcome :=
  match children_ n with
  | [slot] =>
      match slot with
      | None => mkOutcome kError (set_status n kError) ctx []
      | Some child =>
          let '(ctx1, ev1) := enter_if_fresh n ctx in
          let o := tick_child child ctx1 in
          let child_status := out_status o in
          let result :=
            match child_status with
            | kSuccess => kFailure
            | kFailure => kSuccess
            | _ => child_status
            end in
          let n1 := set_status (set_children n [Some (out_node o)]) result in
          let '(ctx2, ev2) := exit_if_finished n1 result (out_ctx o) in
          mkOutcome result n1 ctx2
                    (ev1 ++ EvChild 0 child_status (out_events o) :: ev2)
      end
  | _ => mkOutcome kError (set_status n kError) ctx []
  end.

(** ** Loops of Reset and ValidateTree *)

Variable reset_child : Node -> Node.

Fixpoint Reset_loop (slots : list (option Node)) : list (option Node) :=
  match slots with
  | [] => []
  | None :: rest => None :: Reset_loop rest
  | Some child :: rest => Some (reset_child child) :: Reset_loop rest
  end.

Variable validate_child : Node -> ValidateError.

Fixpoint ValidateTree_loop (slots : list (option Node)) : ValidateError :=
  match slots with
  | [] => kNone
  | None :: rest => ValidateTree_loop rest
  | Some child :: rest =>
      match validate_child child with
      | kNone => ValidateTree_loop rest
      | err => err
      end
  end.

End Loops.

(** ** Tick *)

Fixpoint Tick (n : Node) (ctx : Context) {struct n} : Outcome :=
  match type_ n with
  | kAction | kCondition => TickLeaf n ctx
  | kSequence => TickSequence Tick n ctx
  | kSelector => TickSelector Tick n ctx
  | kParallel => TickParallel Tick n ctx
  | kInverter => TickInverter Tick n ctx
  | kInvalidType => mkOutcome kError (set_status n kError) ctx []
  end.

(** ** Reset *)

Fixpoint Reset (n : Node) {struct n} : Node :=
  mkNode (type_ n) kFailure 0%nat (success_policy_ n) 0 0
         (tick_ n) (on_enter_ n) (on_exit_ n)
         (Reset_loop Reset (children_ n)) (name_ n).

(** ** Validate and ValidateTree *)

(** The null-children loop of [Validate]. *)
Fixpoint has_null_child (slots : list (option Node)) : bool :=
  match slots with
  | [] => false
  | None :: _ => true
  | Some _ :: rest => has_null_child rest
  end.

Definition Validate (n : Node) : ValidateError :=
  if (kMaxChildren <? children_count_ n)%nat then kChildrenExceedMax
  else if has_null_child (children_ n) then kNullChild
  else if IsLeafType (type_ n) &&
          match tick_ n with None => true | Some _ => false end
       then kLeafMissingTick
  else if match type_ n with kInverter => true | _ => false end &&
          negb (children_count_ n =? 1)%nat
       then kInverterNotOneChild
  else if match type_ n with kParallel => true | _ => false end &&
          (kMaxParallelChildren <? children_count_ n)%nat
       then kParallelExceedsBitmap
  else kNone.

Fixpoint ValidateTree (n : Node) {struct n} : ValidateError :=
  match Validate n with
  | kNone => ValidateTree_loop ValidateTree (children_ n)
  | err => err
  end.

(** ** Notions used by the specifications *)

(** The index at which the scan of a Sequence or Selector starts: the saved
    cursor while the node is Running, 0 on a fresh entry. *)
Definition entry_cursor (n : Node) : nat :=
  match status_ n with
  | kRunning => current_child_ n
  | _ => 0%nat
  end.

(** The bitmaps with which the loop of a Parallel node starts: the saved
    ones while the node is Running, cleared ones on a fresh entry. *)
Definition entry_state (n : Node) : ParState :=
  match status_ n with
  | kRunning =>
      mkParState (child_done_bits_ n) (child_success_bits_ n) 0%nat 0%nat 0%nat
  | _ => mkParState 0 0 0%nat 0%nat 0%nat
  end.

(** What the lifecycle contract asks of one tick: on-enter first when the
    prior status is not Running, on-exit last when the result is terminal;
    an unbound slot is a no-op. *)
Definition enter_events (n : Node) : list Event :=
  match status_ n with
  | kRunning => []
  | _ => match on_enter_ n with Some _ => [EvEnter] | None => [] end
  end.

Definition exit_events (n : Node) (result : Status) : list Event :=
  match result with
  | kRunning => []
  | _ => match on_exit_ n with Some _ => [EvExit] | None => [] end
  end.

(** The context on which the work of a tick starts: what the bound on-enter
    callback makes of the caller's context when the node is not Running, the
    caller's context as it is otherwise. *)
Definition entered (n : Node) (ctx : Context) : Context :=
  match status_ n with
  | kRunning => ctx
  | _ => match on_enter_ n with Some f => f ctx | None => ctx end
  end.

(** The context a tick hands back: what the bound on-exit callback makes of
    the context the work left when the result is terminal, that context as
    it is when the result is Running. *)
Definition exited (n : Node) (result : Status) (ctx : Context) : Context :=
  match result with
  | kRunning => ctx
  | _ => match on_exit_ n with Some f => f ctx | None => ctx end
  end.

(** The children of [n] at the indices [ks] ticked one after the other, the
    first on [ctx], each next one on the context the one before left: what
    their [Tick]s return.  It stops at an index that holds no child. *)
Fixpoint tick_in_turn (n : Node) (ctx : Context) (ks : list nat)
  : list Outcome :=
  match ks with
  | [] => []
  | k :: rest =>
      match ChildAt n k with
      | Some c =>
          let o := Tick c ctx in
          o :: tick_in_turn n (out_ctx o) rest
      | None => []
      end
  end.

(** The context that a series of ticks started on [ctx] leaves. *)
Definition left_ctx (ctx : Context) (outs : list Outcome) : Context :=
  last (map out_ctx outs) ctx.

(** The entries of the log for the ticks of the children [ks] with the
    outcomes [outs]. *)
Definition child_event (k : nat) (o : Outcome) : Event :=
  EvChild k (out_status o) (out_events o).

Definition child_events (ks : list nat) (outs : list Outcome) : list Event :=
  map (fun p => child_event (fst p) (snd p)) (combine ks outs).

(** The children of a Parallel node that are not marked done when a tick
    starts: all of them on a fresh entry. *)
Definition pending (n : Node) (k : nat) : bool :=
  match status_ n with
  | kRunning => negb (bit_at (child_done_bits_ n) k)
  | _ => true
  end.

Definition present (n : Node) (k : nat) : bool :=
  match ChildAt n k with
  | Some _ => true
  | None => false
  end.

(** The structural guards that [TickLeaf], [TickInverter] and the [default]
    branch of [Tick] test before anything else. *)
Definition passes_guards (n : Node) : bool :=
  match type_ n with
  | kAction | kCondition =>
      match tick_ n with Some _ => true | None => false end
  | kInverter =>
      match children_ n with [Some _] => true | _ => false end
  | kSequence | kSelector | kParallel => true
  | kInvalidType => false
  end.

(** A property of a slot that holds of the child it points to, if any. *)
Definition slot_all (P : Node -> Prop) (slot : option Node) : Prop :=
  match slot with
  | Some c => P c
  | None => True
  end.

(** Induction on the tree: the children of a node satisfy the property. *)
Fixpoint Node_tree_ind (P : Node -> Prop)
         (step : forall n, Forall (slot_all P) (children_ n) -> P n)
         (n : Node) {struct n} : P n :=
  step n
       ((fix go (slots : list (option Node)) : Forall (slot_all P) slots :=
           match slots with
           | [] => Forall_nil _
           | slot :: rest =>
               Forall_cons slot
                 (match slot return slot_all P slot with
                  | Some c => Node_tree_ind P step c
                  | None => I
                  end)
                 (go rest)
           end) (children_ n)).

(** The nodes of a subtree in pre-order: the node, then the subtrees of its
    non-null children, left to right. *)
Fixpoint preorder_loop (f : Node -> list Node) (slots : list (option Node))
  : list Node :=
  match slots with
  | [] => []
  | None :: rest => preorder_loop f rest
  | Some c :: rest => f c ++ preorder_loop f rest
  end.

Fixpoint preorder (n : Node) {struct n} : list Node :=
  n :: preorder_loop preorder (children_ n).

(** The state that [Reset] is to leave in a node. *)
Definition idle (n : Node) : Prop :=
  status_ n = kFailure /\ current_child_ n = 0%nat /\
  child_done_bits_ n = 0 /\ child_success_bits_ n = 0.

(** Two slots are both null, or point to related nodes. *)
Inductive slot_rel (R : Node -> Node -> Prop)
  : option Node -> option Node -> Prop :=
| slot_rel_null : slot_rel R None None
| slot_rel_child a b : R a b -> slot_rel R (Some a) (Some b).

(** Two trees with the same configuration: type, callbacks, policy, name,
    and children, in number and order, all the way down. *)
Inductive same_config : Node -> Node -> Prop :=
| same_config_node (a b : Node) :
    type_ a = type_ b ->
    tick_ a = tick_ b ->
    on_enter_ a = on_enter_ b ->
    on_exit_ a = on_exit_ b ->
    success_policy_ a = success_policy_ b ->
    name_ a = name_ b ->
    Forall2 (slot_rel same_config) (children_ a) (children_ b) ->
    same_config a b.

(** Reading the completion bitmaps of a Parallel node. *)
Definition child_done (n : Node) (i : nat) : bool :=
  bit_at (child_done_bits_ n) i.

Definition child_succeeded (n : Node) (i : nat) : bool :=
  succeeded_at (child_done_bits_ n) (child_success_bits_ n) i.

Definition child_failed (n : Node) (i : nat) : bool :=
  failed_at (child_done_bits_ n) (child_success_bits_ n) i.

(** Successive calls of [Tick] on one node, the driver supplying the
    context of each call. *)
Fixpoint run_cycles (n : Node) (ctxs : list Context) : list Outcome :=
  match ctxs with
  | [] => []
  | ctx :: rest =>
      let o := Tick n ctx in
      o :: run_cycles (out_node o) rest
  end.

(** Every call of a list of outcomes but the last returned Running. *)
Fixpoint running_until_last (outs : list Outcome) : Prop :=
  match outs with
  | [] => True
  | [_] => True
  | o :: rest => out_status o = kRunning /\ running_until_last rest
  end.


(** The rules of [Validate], in the words of its contract. *)
Definition exceeds_capacity (n : Node) : Prop :=
  (kMaxChildren < children_count_ n)%nat.

Definition holds_null_child (n : Node) : Prop :=
  exists i, (i < children_count_ n)%nat /\ ChildAt n i = None.

Definition leaf_without_tick (n : Node) : Prop :=
  (type_ n = kAction \/ type_ n = kCondition) /\ tick_ n = None.

Definition inverter_not_one_child (n : Node) : Prop :=
  type_ n = kInverter /\ children_count_ n <> 1%nat.

Definition parallel_exceeds_bitmap (n : Node) : Prop :=
  type_ n = kParallel /\ (kMaxParallelChildren < children_count_ n)%nat.

(** The first error of a list of validation results, [kNone] if none. *)
Fixpoint first_error (errs : list ValidateError) : ValidateError :=
  match errs with
  | [] => kNone
  | kNone :: rest => first_error rest
  | err :: _ => err
  end.

End BehaviorTree.

Arguments Node : clear implicits.
Arguments Outcome : clear implicits.
Arguments Scan : clear implicits.
Arguments ParScan : clear implicits.
Arguments ParStep : clear implicits.
Arguments TickFn : clear implicits.
Arguments CallbackFn : clear implicits.

(** * The rest of the public surface *)

(** ** Names of the enumerators

    [Status] and [ValidateError] have no value outside their enumerators
    here, so the ["UNKNOWN"] branch of their renderers has no counterpart;
    [NodeType] has [kInvalidType]. *)

Definition StatusToString (s : Status) : string :=
  match s with
  | kSuccess => "SUCCESS"
  | kFailure => "FAILURE"
  | kRunning => "RUNNING"
  | kError => "ERROR"
  end.

Definition NodeTypeToString (t : NodeType) : string :=
  match t with
  | kAction => "ACTION"
  | kCondition => "CONDITION"
  | kSequence => "SEQUENCE"
  | kSelector => "SELECTOR"
  | kParallel => "PARALLEL"
  | kInverter => "INVERTER"
  | kInvalidType => "UNKNOWN"
  end.

Definition ValidateErrorToString (e : ValidateError) : string :=
  match e with
  | kNone => "NONE"
  | kLeafMissingTick => "LEAF_MISSING_TICK"
  | kInverterNotOneChild => "INVERTER_NOT_ONE_CHILD"
  | kParallelExceedsBitmap => "PARALLEL_EXCEEDS_BITMAP"
  | kChildrenExceedMax => "CHILDREN_EXCEED_MAX"
  | kNullChild => "NULL_CHILD"
  end.

(** What [TickInverter] makes of its child's status. *)
Definition inverted (child_status : Status) : Status :=
  match child_status with
  | kSuccess => kFailure
  | kFailure => kSuccess
  | _ => child_status
  end.

(** ** The configuration API and the factory helpers

    A failed [assert] is [None]. *)

Section Construction.

Context {Context : Type}.

(** [BT_MAX_CHILDREN] *)
Variable kMaxChildren : nat.

Definition set_type (n : Node Context) (type : NodeType) : Node Context :=
  mkNode type (status_ n) (current_child_ n) (success_policy_ n)
         (child_done_bits_ n) (child_success_bits_ n)
         (tick_ n) (on_enter_ n) (on_exit_ n) (children_ n) (name_ n).

(** The callback setters take a function pointer, which may be null. *)
Definition set_tick (n : Node Context) (fn : option (TickFn Context))
  : Node Context :=
  mkNode (type_ n) (status_ n) (current_child_ n) (success_policy_ n)
         (child_done_bits_ n) (child_success_bits_ n)
         fn (on_enter_ n) (on_exit_ n) (children_ n) (name_ n).

Definition set_on_enter (n : Node Context) (fn : option (CallbackFn Context))
  : Node Context :=
  mkNode (type_ n) (status_ n) (current_child_ n) (success_policy_ n)
         (child_done_bits_ n) (child_success_bits_ n)
         (tick_ n) fn (on_exit_ n) (children_ n) (name_ n).

Definition set_on_exit (n : Node Context) (fn : option (CallbackFn Context))
  : Node Context :=
  mkNode (type_ n) (status_ n) (current_child_ n) (success_policy_ n)
         (child_done_bits_ n) (child_success_bits_ n)
         (tick_ n) (on_enter_ n) fn (children_ n) (name_ n).

Definition set_parallel_policy (n : Node Context) (policy : ParallelPolicy)
  : Node Context :=
  mkNode (type_ n) (status_ n) (current_child_ n) policy
         (child_done_bits_ n) (child_success_bits_ n)
         (tick_ n) (on_enter_ n) (on_exit_ n) (children_ n) (name_ n).

(** [assert(children_count_ < kMaxChildren);
     children_[children_count_] = &child; ++children_count_;] *)
Definition AddChild (n child : Node Context) : option (Node Context) :=
  if (children_count_ n <? kMaxChildren)%nat
  then Some (set_children n (children_ n ++ [Some child]))
  else None.

(** [SetChildren(children, count)]: [children] are the [count] pointers of
    the external array, null ones included. *)
Definition SetChildren (n : Node Context)
           (children : list (option (Node Context)))
  : option (Node Context) :=
  if (List.length children <=? kMaxChildren)%nat
  then Some (set_children n children)
  else None.

(** [children_count_ = 0; children_[0] = &child; children_count_ = 1;] *)
Definition SetChild (n child : Node Context) : Node Context :=
  set_children n [Some child].

(** [AddChild] called for each node of a list, in order. *)
Fixpoint AddChildren (n : Node Context) (cs : list (Node Context))
  : option (Node Context) :=
  match cs with
  | [] => Some n
  | c :: rest =>
      match AddChild n c with
      | Some n1 => AddChildren n1 rest
      | None => None
      end
  end.

Definition MakeAction (node : Node Context) (tick : option (TickFn Context))
  : Node Context :=
  set_tick (set_type node kAction) tick.

Definition MakeCondition (node : Node Context) (tick : option (TickFn Context))
  : Node Context :=
  set_tick (set_type node kCondition) tick.

Definition MakeSequence (node : Node Context)
           (children : list (option (Node Context)))
  : option (Node Context) :=
  SetChildren (set_type node kSequence) children.

Definition MakeSelector (node : Node Context)
           (children : list (option (Node Context)))
  : option (Node Context) :=
  SetChildren (set_type node kSelector) children.

Definition MakeParallel (node : Node Context)
           (children : list (option (Node Context)))
           (policy : ParallelPolicy) : option (Node Context) :=
  match SetChildren (set_type node kParallel) children with
  | Some n => Some (set_parallel_policy n policy)
  | None => None
  end.

Definition MakeInverter (node child : Node Context) : Node Context :=
  SetChild (set_type node kInverter) child.

(** ** Notions used by the properties of whole trees *)

(** A slot after a tick holds the child it held, or that child after a
    [Tick] of its own. *)
Definition stepped_by (tick_child : Node Context -> Context -> Outcome Context)
           (c c' : Node Context) : Prop :=
  c' = c \/ exists ctx, c' = out_node (tick_child c ctx).

Definition ticked_from : Node Context -> Node Context -> Prop :=
  stepped_by Tick.

(** The state of the bitmaps that [Parallel_policy_contract] and
    [Parallel_done_child_never_reticked] ask of a node. *)
Definition bitmaps_sound (n : Node Context) : Prop :=
  bits_ok (child_done_bits_ n) (child_success_bits_ n) /\
  (type_ n = kParallel -> (children_count_ n <= kMaxParallelChildren)%nat).

(** A parent that may hold a Running child in slot [i]: a Parallel node, or
    a node that is Running itself and waits for that child, as a Sequence or
    Selector whose cursor is [i] or as an Inverter over one child. *)
Definition may_hold_running (n : Node Context) (i : nat) : Prop :=
  type_ n = kParallel \/
  (status_ n = kRunning /\
   (((type_ n = kSequence \/ type_ n = kSelector) /\ current_child_ n = i) \/
    (type_ n = kInverter /\ children_count_ n = 1%nat))).

Definition running_children_held (n : Node Context) : Prop :=
  forall i c, ChildAt n i = Some c -> status_ c = kRunning ->
              may_hold_running n i.

(** A Running node is a leaf, or waits on a Running child: the one under the
    cursor when the node is a Sequence or a Selector. *)
Definition waits_on_running_child (n : Node Context) : Prop :=
  status_ n = kRunning ->
  IsLeafType (type_ n) = true \/
  exists i c, ChildAt n i = Some c /\ status_ c = kRunning /\
              (type_ n = kSequence \/ type_ n = kSelector ->
               current_child_ n = i).

(** Two outcomes that a caller cannot tell apart: the same status returned,
    the same context left, the same calls made. *)
Definition same_observation (o o' : Outcome Context) : Prop :=
  out_status o = out_status o' /\ out_ctx o = out_ctx o' /\
  out_events o = out_events o'.

(** Two trees of the same configuration that agree on what a tick reads of
    the stored state: whether a node is Running, and for a Running node the
    cursor of a Sequence or Selector and the bitmaps of a Parallel. *)
Inductive same_resumption : Node Context -> Node Context -> Prop :=
| same_resumption_node (a b : Node Context) :
    type_ a = type_ b ->
    tick_ a = tick_ b ->
    on_enter_ a = on_enter_ b ->
    on_exit_ a = on_exit_ b ->
    success_policy_ a = success_policy_ b ->
    (status_ a = kRunning <-> status_ b = kRunning) ->
    (status_ a = kRunning -> type_ a = kSequence \/ type_ a = kSelector ->
     current_child_ a = current_child_ b) ->
    (status_ a = kRunning -> type_ a = kParallel ->
     child_done_bits_ a = child_done_bits_ b /\
     child_success_bits_ a = child_success_bits_ b) ->
    Forall2 (slot_rel same_resumption) (children_ a) (children_ b) ->
    same_resumption a b.

(** A node whose tick callback, if any, never returns Running. *)
Definition finishes_at_once (n : Node Context) : Prop :=
  forall f ctx, tick_ n = Some f -> fst (f ctx) <> kRunning.

(** [w] is an Inverter without lifecycle callbacks over the one child [c]. *)
Definition wraps (c w : Node Context) : Prop :=
  type_ w = kInverter /\ on_enter_ w = None /\ on_exit_ w = None /\
  children_ w = [Some c].

(** A Sequence and a Selector (either way round) with the same lifecycle
    callbacks, at the same point of their scans, the second over wrapped
    copies of the children of the first. *)
Definition duals (a b : Node Context) : Prop :=
  ((type_ a = kSequence /\ type_ b = kSelector) \/
   (type_ a = kSelector /\ type_ b = kSequence)) /\
  on_enter_ a = on_enter_ b /\ on_exit_ a = on_exit_ b /\
  (status_ a = kRunning <-> status_ b = kRunning) /\
  (status_ a = kRunning -> current_child_ a = current_child_ b) /\
  Forall2 (slot_rel wraps) (children_ a) (children_ b).

(** The second outcome returns the inverse of the first and leaves the same
    context. *)
Definition dual_observation (o o' : Outcome Context) : Prop :=
  out_status o' = inverted (out_status o) /\ out_ctx o' = out_ctx o.

(** A node that validates, has one of the six types, and whose tick
    callback, if any, never returns Error. *)
Definition cannot_err (n : Node Context) : Prop :=
  Validate kMaxChildren n = kNone /\
  type_ n <> kInvalidType /\
  (forall f ctx, tick_ n = Some f -> fst (f ctx) <> kError).

End Construction.

(** ** BehaviorTree

    The manager refers to a root node and to a context that live elsewhere;
    here it holds both, being the only way to them. *)

Module BehaviorTree.

Section Manager.

Context {Context : Type}.

(** [BT_MAX_CHILDREN] *)
Variable kMaxChildren : nat.

Record t : Type := mk {
  root_ : Node Context;
  context_ : Context;
  last_status_ : Status;
  tick_count_ : Z;               (* uint32_t *)
  max_tick_depth_ : Z            (* uint32_t, never written after construction *)
}.

(** [explicit BehaviorTree(NodeType& root, Context& context)] *)
Definition make (root : Node Context) (context : Context) : t :=
  mk root context kFailure 0 0.

Definition ValidateTree (bt : t) : ValidateError :=
  ValidateTree kMaxChildren (root_ bt).

(** [++tick_count_; last_status_ = root_->Tick(context_); return last_status_;] *)
Definition Tick (bt : t) : Status * t :=
  let count := (tick_count_ bt + 1) mod uint32_max in
  let o := Tick (root_ bt) (context_ bt) in
  (out_status o,
   mk (out_node o) (out_ctx o) (out_status o) count (max_tick_depth_ bt)).

(** [root_->Reset(); last_status_ = Status::kFailure;] *)
Definition Reset (bt : t) : t :=
  mk (Reset (root_ bt)) (context_ bt) kFailure (tick_count_ bt)
     (max_tick_depth_ bt).

(** The calls of a driver, in order. *)
Inductive Call : Type :=
| CallTick
| CallReset.

Fixpoint run (bt : t) (calls : list Call) : t :=
  match calls with
  | [] => bt
  | CallTick :: rest => run (snd (Tick bt)) rest
  | CallReset :: rest => run (Reset bt) rest
  end.

Definition ticks_in (calls : list Call) : Z :=
  Z.of_nat (List.length
              (filter (fun c => match c with CallTick => true | _ => false end)
                      calls)).

End Manager.

Arguments t : clear implicits.

End BehaviorTree.

(** ** Small trees over a counter

    The context counts the calls of the tick callbacks; the lifecycle
    callbacks add 10 and 100 so that their calls show in the context. *)

Definition demo_leaf (status : Status) (result : Status) : Node nat :=
  mkNode kAction status 0%nat kRequireAll 0 0
         (Some (fun c : nat => (result, S c))) None None [] "leaf".

Definition demo_composite (type : NodeType) (policy : ParallelPolicy)
           (children : list (option (Node nat))) : Node nat :=
  mkNode type kFailure 0%nat policy 0 0 None
         (Some (fun c : nat => (10 + c)%nat))
         (Some (fun c : nat => (100 + c)%nat)) children "composite".

(** A leaf whose lifecycle callbacks are bound and whose tick callback is not. *)
Definition demo_unbound_leaf : Node nat :=
  mkNode kAction kFailure 0%nat kRequireAll 0 0 None
         (Some (fun c : nat => (10 + c)%nat))
         (Some (fun c : nat => (100 + c)%nat)) [] "unbound".

Definition demo_sequence : Node nat :=
  demo_composite kSequence kRequireAll
    [Some (demo_leaf kFailure kSuccess); Some (demo_leaf kFailure kRunning);
     Some (demo_leaf kFailure kFailure)].


Definition demo_selector : Node nat :=
  demo_composite kSelector kRequireAll
    [Some (demo_leaf kFailure kFailure); Some (demo_leaf kFailure kSuccess);
     Some (demo_leaf kFailure kFailure)].

Definition demo_parallel : Node nat :=
  demo_composite kParallel kRequireAll
    [Some (demo_leaf kFailure kSuccess); Some (demo_leaf kFailure kRunning)].

(** [demo_parallel] after one tick: Running, child 0 done with success. *)
Definition demo_parallel_running : Node nat :=
  mkNode kParallel kRunning 0%nat kRequireAll 1 1 None
         (Some (fun c : nat => (10 + c)%nat))
         (Some (fun c : nat => (100 + c)%nat))
         [Some (demo_leaf kSuccess kSuccess); Some (demo_leaf kRunning kRunning)]
         "composite".



(** An Inverter over a leaf that fails, and an Inverter over that one. *)
Definition demo_inverter : Node nat :=
  demo_composite kInverter kRequireAll [Some (demo_leaf kFailure kFailure)].

Definition demo_double_inverter : Node nat :=
  demo_composite kInverter kRequireAll [Some demo_inverter].

(** A Sequence over two leaves, and the Selector over Inverters that wrap
    the same two leaves. *)
Definition demo_dual_sequence : Node nat :=
  demo_composite kSequence kRequireAll
    [Some (demo_leaf kFailure kSuccess); Some (demo_leaf kFailure kRunning)].

Definition demo_dual_selector : Node nat :=
  demo_composite kSelector kRequireAll
    [Some (MakeInverter (NewNode "not") (demo_leaf kFailure kSuccess));
     Some (MakeInverter (NewNode "not") (demo_leaf kFailure kRunning))].

(** A manager over [demo_sequence], and a driver that ticks, resets, ticks. *)
Definition demo_manager : BehaviorTree.t nat :=
  BehaviorTree.make demo_sequence 0%nat.

Definition demo_calls : list BehaviorTree.Call :=
  [BehaviorTree.CallTick; BehaviorTree.CallTick; BehaviorTree.CallReset;
   BehaviorTree.CallTick].

(** * Properties *)

Ltac break_match :=
  match goal with
  | |- context [match ?e with _ => _ end] => destruct e eqn:?
  end.

Ltac break_pairs :=
  repeat match goal with
         | |- context [let '(_, _) := ?e in _] => destruct e eqn:?
         end.

Ltac split_conj :=
  repeat match goal with
         | |- _ /\ _ => split
         end.

Ltac solve_priority :=
  split_conj; (split; intros; [try discriminate|try reflexivity]; tauto).

(** A callback slot that is empty, or holds a function whose status is plain
    to see. *)
Ltac callback_never :=
  let f := fresh "f" in
  let ctx := fresh "ctx" in
  let H := fresh "H" in
  intros f ctx H;
  first [discriminate H | injection H as <-; cbn; discriminate].

Section Properties.

Context {Context : Type}.

Implicit Types (n child : Node Context) (ctx : Context)
         (slots : list (option (Node Context))).

(** ** Unfolding [Tick] *)

Lemma Tick_unfold n ctx :
  Tick n ctx =
  match type_ n with
  | kAction | kCondition => TickLeaf n ctx
  | kSequence => TickSequence Tick n ctx
  | kSelector => TickSelector Tick n ctx
  | kParallel => TickParallel Tick n ctx
  | kInverter => TickInverter Tick n ctx
  | kInvalidType => mkOutcome kError (set_status n kError) ctx []
  end.
Proof. destruct n; reflexivity. Qed.

Lemma Status_eqb_eq (a b : Status) : Status_eqb a b = true <-> a = b.
Proof. destruct a, b; simpl; split; congruence. Qed.

Lemma Status_eqb_neq (a b : Status) : Status_eqb a b = false <-> a <> b.
Proof. destruct a, b; simpl; split; congruence. Qed.

(** ** The returned status is the stored status *)

Section StoredStatus.

Variable tick_child : Node Context -> Context -> Outcome Context.

Lemma TickLeaf_stored n ctx :
  status_ (out_node (TickLeaf n ctx)) = out_status (TickLeaf n ctx).
Proof. unfold TickLeaf. destruct (tick_ n); break_pairs; reflexivity. Qed.

Lemma TickSequence_stored n ctx :
  status_ (out_node (TickSequence tick_child n ctx))
  = out_status (TickSequence tick_child n ctx).
Proof.
  unfold TickSequence. break_pairs.
  destruct (scan_exit _) as [i|i [ | | | ]|]; break_pairs; reflexivity.
Qed.

Lemma TickSelector_stored n ctx :
  status_ (out_node (TickSelector tick_child n ctx))
  = out_status (TickSelector tick_child n ctx).
Proof.
  unfold TickSelector. break_pairs.
  destruct (scan_exit _) as [i|i [ | | | ]|]; break_pairs; reflexivity.
Qed.

Lemma TickParallel_stored n ctx :
  status_ (out_node (TickParallel tick_child n ctx))
  = out_status (TickParallel tick_child n ctx).
Proof. unfold TickParallel. break_pairs. reflexivity. Qed.

Lemma TickInverter_stored n ctx :
  status_ (out_node (TickInverter tick_child n ctx))
  = out_status (TickInverter tick_child n ctx).
Proof.
  unfold TickInverter.
  destruct (children_ n) as [|[c|] [|? ?]]; try reflexivity.
  break_pairs. reflexivity.
Qed.

End StoredStatus.

Lemma Tick_stored n ctx :
  status_ (out_node (Tick n ctx)) = out_status (Tick n ctx).
Proof.
  rewrite Tick_unfold.
  destruct (type_ n);
    auto using TickLeaf_stored, TickSequence_stored, TickSelector_stored,
               TickParallel_stored, TickInverter_stored.
Qed.

(** C10.  On every dispatch path of [Tick], the error paths included
    (unknown node type, unbound leaf callback, malformed Inverter, null
    child), the status that [Tick] returns is the status stored in the node
    when the call is over. *)
Theorem Tick_returns_stored_status n ctx :
  out_status (Tick n ctx) = status_ (out_node (Tick n ctx)).
Proof.
  rewrite Tick_unfold. symmetry.
  destruct (type_ n) eqn:Hty.
  - apply TickLeaf_stored.
  - apply TickLeaf_stored.
  - apply TickSequence_stored.
  - apply TickSelector_stored.
  - apply TickParallel_stored.
  - apply TickInverter_stored.
  - reflexivity.
Qed.

(** ** Reset *)

Lemma Reset_unfold n :
  Reset n =
  mkNode (type_ n) kFailure 0%nat (success_policy_ n) 0 0
         (tick_ n) (on_enter_ n) (on_exit_ n)
         (Reset_loop Reset (children_ n)) (name_ n).
Proof. destruct n; reflexivity. Qed.

Lemma preorder_unfold n :
  preorder n = n :: preorder_loop preorder (children_ n).
Proof. destruct n; reflexivity. Qed.

Lemma Reset_idle_everywhere n : Forall idle (preorder (Reset n)).
Proof.
  induction n as [n IH] using Node_tree_ind.
  rewrite Reset_unfold, preorder_unfold. cbn [children_].
  constructor; [repeat split|].
  induction IH as [|[c|] rest Hc _ IHrest]; cbn [Reset_loop preorder_loop].
  - constructor.
  - apply Forall_app. split; [exact Hc | exact IHrest].
  - exact IHrest.
Qed.

Lemma Reset_same_config n : same_config n (Reset n).
Proof.
  induction n as [n IH] using Node_tree_ind.
  rewrite Reset_unfold. constructor; cbn; try reflexivity.
  induction IH as [|[c|] rest Hc _ IHrest]; cbn [Reset_loop];
    constructor; try assumption; constructor; assumption.
Qed.

(** C8.  [Reset] leaves status Failure, cursor 0 and both completion bitmaps
    0 in the node and in every descendant, and leaves the configuration
    (type, children in number and order, the three callbacks, the parallel
    policy and the name) as it was, all the way down the tree. *)
Theorem Reset_idle_and_keeps_config n :
  Forall idle (preorder (Reset n)) /\
  same_config n (Reset n) /\
  type_ (Reset n) = type_ n /\
  children_count_ (Reset n) = children_count_ n /\
  tick_ (Reset n) = tick_ n /\
  on_enter_ (Reset n) = on_enter_ n /\
  on_exit_ (Reset n) = on_exit_ n /\
  success_policy_ (Reset n) = success_policy_ n /\
  name_ (Reset n) = name_ n.
Proof.
  split; [apply Reset_idle_everywhere|].
  split; [apply Reset_same_config|].
  rewrite Reset_unfold. cbn. repeat split.
  unfold children_count_. cbn.
  induction (children_ n) as [|[c|] rest IH]; cbn; congruence.
Qed.

(** ** Validate and ValidateTree *)

Section Validation.

Variable kMaxChildren : nat.

Lemma has_null_child_iff n :
  has_null_child (children_ n) = true <-> holds_null_child n.
Proof.
  unfold holds_null_child, ChildAt, children_count_.
  induction (children_ n) as [|[c|] rest IH]; cbn [has_null_child].
  - split; [discriminate|]. intros (i & Hi & _). inversion Hi.
  - rewrite IH. split.
    + intros (i & Hi & Hn). exists (S i). cbn. split; [lia|exact Hn].
    + intros ([|i] & Hi & Hn); cbn in *; [discriminate|].
      exists i. split; [lia|exact Hn].
  - split; [|reflexivity]. intros _. exists 0%nat. cbn. split; [lia|reflexivity].
Qed.

Lemma exceeds_capacity_reflect n :
  reflect (exceeds_capacity kMaxChildren n)
          (kMaxChildren <? children_count_ n)%nat.
Proof. apply iff_reflect. unfold exceeds_capacity. symmetry. apply Nat.ltb_lt. Qed.

Lemma holds_null_child_reflect n :
  reflect (holds_null_child n) (has_null_child (children_ n)).
Proof. apply iff_reflect. symmetry. apply has_null_child_iff. Qed.

Lemma leaf_without_tick_reflect n :
  reflect (leaf_without_tick n)
          (IsLeafType (type_ n) &&
           match tick_ n with None => true | Some _ => false end).
Proof.
  apply iff_reflect. unfold leaf_without_tick.
  destruct (type_ n), (tick_ n); cbn; split;
    try discriminate; try reflexivity; intuition congruence.
Qed.

Lemma inverter_not_one_child_reflect n :
  reflect (inverter_not_one_child n)
          (match type_ n with kInverter => true | _ => false end &&
           negb (children_count_ n =? 1)%nat).
Proof.
  apply iff_reflect. unfold inverter_not_one_child.
  destruct (Nat.eqb_spec (children_count_ n) 1), (type_ n); cbn; split;
    try discriminate; try reflexivity; intuition congruence.
Qed.

Lemma parallel_exceeds_bitmap_reflect n :
  reflect (parallel_exceeds_bitmap n)
          (match type_ n with kParallel => true | _ => false end &&
           (kMaxParallelChildren <? children_count_ n)%nat).
Proof.
  apply iff_reflect. unfold parallel_exceeds_bitmap.
  destruct (Nat.ltb_spec kMaxParallelChildren (children_count_ n)),
           (type_ n); cbn; split;
    try discriminate; try reflexivity; intuition (congruence || lia).
Qed.

Lemma Validate_priority n :
  (Validate kMaxChildren n = kChildrenExceedMax <->
   exceeds_capacity kMaxChildren n) /\
  (Validate kMaxChildren n = kNullChild <->
   ~ exceeds_capacity kMaxChildren n /\ holds_null_child n) /\
  (Validate kMaxChildren n = kLeafMissingTick <->
   ~ exceeds_capacity kMaxChildren n /\ ~ holds_null_child n /\
   leaf_without_tick n) /\
  (Validate kMaxChildren n = kInverterNotOneChild <->
   ~ exceeds_capacity kMaxChildren n /\ ~ holds_null_child n /\
   ~ leaf_without_tick n /\ inverter_not_one_child n) /\
  (Validate kMaxChildren n = kParallelExceedsBitmap <->
   ~ exceeds_capacity kMaxChildren n /\ ~ holds_null_child n /\
   ~ leaf_without_tick n /\ ~ inverter_not_one_child n /\
   parallel_exceeds_bitmap n) /\
  (Validate kMaxChildren n = kNone <->
   ~ exceeds_capacity kMaxChildren n /\ ~ holds_null_child n /\
   ~ leaf_without_tick n /\ ~ inverter_not_one_child n /\
   ~ parallel_exceeds_bitmap n).
Proof.
  unfold Validate.
  destruct (exceeds_capacity_reflect n) as [E|E]; [solve_priority|].
  destruct (holds_null_child_reflect n) as [N|N]; [solve_priority|].
  destruct (leaf_without_tick_reflect n) as [L|L]; [solve_priority|].
  destruct (inverter_not_one_child_reflect n) as [V|V]; [solve_priority|].
  destruct (parallel_exceeds_bitmap_reflect n) as [P|P]; solve_priority.
Qed.

Lemma has_null_child_map (f : Node Context -> Node Context) slots :
  has_null_child (map (option_map f) slots) = has_null_child slots.
Proof. induction slots as [|[c|] rest IH]; cbn; auto. Qed.

(** [Validate] reads nothing of a child but whether its pointer is null. *)
Lemma Validate_shallow (f : Node Context -> Node Context) n :
  Validate kMaxChildren (set_children n (map (option_map f) (children_ n)))
  = Validate kMaxChildren n.
Proof.
  unfold Validate, children_count_. cbn.
  rewrite has_null_child_map, length_map. reflexivity.
Qed.

Lemma ValidateTree_unfold n :
  ValidateTree kMaxChildren n =
  match Validate kMaxChildren n with
  | kNone => ValidateTree_loop (ValidateTree kMaxChildren) (children_ n)
  | err => err
  end.
Proof. destruct n; reflexivity. Qed.

Lemma first_error_app (a b : list ValidateError) :
  first_error (a ++ b) =
  match first_error a with
  | kNone => first_error b
  | err => err
  end.
Proof. induction a as [|[] a IH]; cbn; auto. Qed.

Lemma first_error_none (errs : list ValidateError) :
  first_error errs = kNone <-> Forall (fun e => e = kNone) errs.
Proof.
  induction errs as [|e errs IH]; cbn.
  - split; auto.
  - destruct e; (split; [intros H|intros H; inversion H; subst]);
      try discriminate; try (constructor; [reflexivity|]); tauto.
Qed.

Lemma ValidateTree_preorder n :
  ValidateTree kMaxChildren n
  = first_error (map (Validate kMaxChildren) (preorder n)).
Proof.
  induction n as [n IH] using Node_tree_ind.
  rewrite ValidateTree_unfold, preorder_unfold. cbn [map first_error].
  assert (Hloop :
    ValidateTree_loop (ValidateTree kMaxChildren) (children_ n)
    = first_error (map (Validate kMaxChildren)
                       (preorder_loop preorder (children_ n)))).
  { induction IH as [|[c|] rest Hc _ IHrest];
      cbn [ValidateTree_loop preorder_loop]; auto.
    rewrite map_app, first_error_app, <- Hc, IHrest. reflexivity. }
  rewrite Hloop. destruct (Validate kMaxChildren n); reflexivity.
Qed.

(** C9.  [Validate] looks at one node only and reports the first violated
    rule in the order: children above the capacity, a null child, a leaf
    without tick callback, an Inverter without exactly one child, a Parallel
    with more children than the bitmap is wide; it reports no error exactly
    when no rule is violated.  [ValidateTree] reports the first error of
    [Validate] over the subtree in pre-order, and no error exactly when every
    node of the subtree passes. *)
Theorem Validate_and_ValidateTree_contract n :
  ((Validate kMaxChildren n = kChildrenExceedMax <->
    exceeds_capacity kMaxChildren n) /\
   (Validate kMaxChildren n = kNullChild <->
    ~ exceeds_capacity kMaxChildren n /\ holds_null_child n) /\
   (Validate kMaxChildren n = kLeafMissingTick <->
    ~ exceeds_capacity kMaxChildren n /\ ~ holds_null_child n /\
    leaf_without_tick n) /\
   (Validate kMaxChildren n = kInverterNotOneChild <->
    ~ exceeds_capacity kMaxChildren n /\ ~ holds_null_child n /\
    ~ leaf_without_tick n /\ inverter_not_one_child n) /\
   (Validate kMaxChildren n = kParallelExceedsBitmap <->
    ~ exceeds_capacity kMaxChildren n /\ ~ holds_null_child n /\
    ~ leaf_without_tick n /\ ~ inverter_not_one_child n /\
    parallel_exceeds_bitmap n) /\
   (Validate kMaxChildren n = kNone <->
    ~ exceeds_capacity kMaxChildren n /\ ~ holds_null_child n /\
    ~ leaf_without_tick n /\ ~ inverter_not_one_child n /\
    ~ parallel_exceeds_bitmap n)) /\
  (forall f : Node Context -> Node Context,
      Validate kMaxChildren
               (set_children n (map (option_map f) (children_ n)))
      = Validate kMaxChildren n) /\
  ValidateTree kMaxChildren n
  = first_error (map (Validate kMaxChildren) (preorder n)) /\
  (ValidateTree kMaxChildren n = kNone <->
   Forall (fun d => Validate kMaxChildren d = kNone) (preorder n)).
Proof.
  split; [apply Validate_priority|].
  split; [intros f; apply Validate_shallow|].
  split; [apply ValidateTree_preorder|].
  rewrite ValidateTree_preorder, first_error_none, Forall_map. reflexivity.
Qed.

End Validation.

(** ** The scan of Sequence and Selector *)

Lemma child_ticks_app (a b : list Event) :
  child_ticks (a ++ b) = child_ticks a ++ child_ticks b.
Proof.
  induction a as [|e a IH]; cbn; auto.
  destruct (child_tick e); cbn; congruence.
Qed.

Lemma In_child_ticks (evs : list Event) i r :
  In (i, r) (child_ticks evs) <-> exists sub, In (EvChild i r sub) evs.
Proof.
  induction evs as [|e evs IH]; cbn.
  - split; [tauto|intros (? & [])].
  - destruct e as [ | | |k s sub0]; cbn; rewrite ?IH.
    1-3: split; [intros (sub & H); eauto
                |intros (sub & [H|H]); [discriminate|eauto]].
    split.
    + intros [H|(sub & H)]; [inversion H; subst; eauto|eauto].
    + intros (sub & [H|H]); [inversion H; subst; auto|eauto].
Qed.

Lemma not_in_enter_events n i r sub : ~ In (EvChild i r sub) (enter_events n).
Proof.
  unfold enter_events. destruct (status_ n), (on_enter_ n); cbn; intros H;
    repeat (destruct H as [H|H]; [discriminate|]); exact H.
Qed.

Lemma not_in_exit_events n s i r sub :
  ~ In (EvChild i r sub) (exit_events n s).
Proof.
  unfold exit_events. destruct s, (on_exit_ n); cbn; intros H;
    repeat (destruct H as [H|H]; [discriminate|]); exact H.
Qed.

Section ScanFacts.

Variable tick_child : Node Context -> Context -> Outcome Context.

Lemma TickSequence_loop_scan slots : forall start i ctx,
  TickSequence_loop tick_child start i slots ctx
  = scan_children tick_child kSuccess start i slots ctx.
Proof.
  induction slots as [|[c|] rest IH]; intros start i ctx;
    cbn [TickSequence_loop scan_children]; rewrite ?IH; auto.
  destruct (i <? start)%nat; auto.
  destruct (out_status (tick_child c ctx)); reflexivity.
Qed.

Lemma TickSelector_loop_scan slots : forall start i ctx,
  TickSelector_loop tick_child start i slots ctx
  = scan_children tick_child kFailure start i slots ctx.
Proof.
  induction slots as [|[c|] rest IH]; intros start i ctx;
    cbn [TickSelector_loop scan_children]; rewrite ?IH; auto.
  destruct (i <? start)%nat; auto.
  destruct (out_status (tick_child c ctx)); reflexivity.
Qed.

(** What one scan does: it ticks the children of consecutive indices from
    the start index on, every tick but possibly the last returns [pass], and
    the way the scan ends tells what stopped it. *)
Lemma scan_children_spec (pass : Status) (start : nat) slots : forall i ctx,
  let s := scan_children tick_child pass start i slots ctx in
  let ticks := child_ticks (scan_events s) in
  Forall (fun e => is_lifecycle e = false) (scan_events s) /\
  map fst ticks = seq (Nat.max start i) (List.length ticks) /\
  (Nat.max start i + List.length ticks
   <= Nat.max start (i + List.length slots))%nat /\
  List.length (scan_slots s) = List.length slots /\
  (forall j, ~ In (i + j)%nat (map fst ticks) ->
             nth_error (scan_slots s) j = nth_error slots j) /\
  (forall j, In (i + j)%nat (map fst ticks) ->
             exists c, nth_error slots j = Some (Some c)) /\
  match scan_exit s with
  | ScanReturn k r =>
      r <> pass /\
      exists before, ticks = before ++ [(k, r)] /\
                     Forall (fun p => snd p = pass) before
  | ScanNull k =>
      Forall (fun p => snd p = pass) ticks /\
      k = (Nat.max start i + List.length ticks)%nat /\
      nth_error slots (k - i) = Some None
  | ScanEnd =>
      Forall (fun p => snd p = pass) ticks /\
      (i + List.length slots <= Nat.max start i + List.length ticks)%nat
  end.
Proof.
  induction slots as [|slot rest IH]; intros i ctx; cbn [scan_children].
  - cbn. repeat split; auto; lia.
  - destruct (Nat.ltb_spec i start) as [Hlt|Hge].
    + specialize (IH (S i) ctx). cbn zeta in IH.
      destruct IH as (Ev & Ix & Bd & Len & Un & Tk & Ex).
      cbn [scan_cons scan_events scan_slots scan_exit app].
      replace (Nat.max start (S i)) with (Nat.max start i) in * by lia.
      split; [exact Ev|]. split; [exact Ix|].
      split; [cbn [List.length]; lia|].
      split; [cbn; congruence|].
      split.
      { intros [|j] Hj; cbn; auto. apply Un.
        replace (S i + j)%nat with (i + S j)%nat by lia. exact Hj. }
      split.
      { intros [|j] Hj.
        - exfalso. rewrite Ix in Hj. apply in_seq in Hj. lia.
        - cbn. apply Tk.
          replace (S i + j)%nat with (i + S j)%nat by lia. exact Hj. }
      destruct (scan_exit _) as [k|k r|].
      * destruct Ex as (Hp & Hk & Hn). repeat split; auto.
        replace (k - i)%nat with (S (k - S i)) by lia. exact Hn.
      * exact Ex.
      * destruct Ex as (Hp & Hl). split; auto. cbn. lia.
    + destruct slot as [c|].
      * destruct (Status_eqb (out_status (tick_child c ctx)) pass) eqn:Ep.
        -- apply Status_eqb_eq in Ep.
           specialize (IH (S i) (out_ctx (tick_child c ctx))). cbn zeta in IH.
           destruct IH as (Ev & Ix & Bd & Len & Un & Tk & Ex).
           cbn [scan_cons scan_events scan_slots scan_exit app child_ticks
                child_tick map fst List.length].
           replace (Nat.max start (S i)) with (S i) in * by lia.
           replace (Nat.max start i) with i by lia.
           split; [constructor; auto|].
           split; [cbn [seq]; congruence|].
           split; [lia|].
           split; [cbn; congruence|].
           split.
           { intros [|j] Hj.
             - exfalso. apply Hj. left. lia.
             - cbn. apply Un. intros Hin. apply Hj. right.
               replace (i + S j)%nat with (S i + j)%nat by lia. exact Hin. }
           split.
           { intros [|j] Hj.
             - exists c. reflexivity.
             - cbn. apply Tk. destruct Hj as [Hj|Hj]; [lia|].
               replace (S i + j)%nat with (i + S j)%nat by lia. exact Hj. }
           destruct (scan_exit _) as [k|k r|].
           ++ destruct Ex as (Hp & Hk & Hn). repeat split.
              ** constructor; auto.
              ** lia.
              ** replace (k - i)%nat with (S (k - S i)) by lia. exact Hn.
           ++ destruct Ex as (Hr & before & Hb & Hp). split; auto.
              exists ((i, out_status (tick_child c ctx)) :: before).
              split; [cbn; congruence|constructor; auto].
           ++ destruct Ex as (Hp & Hl). split; [constructor; auto|].
              cbn. lia.
        -- apply Status_eqb_neq in Ep.
           replace (Nat.max start i) with i by lia. cbn -[Nat.max].
           repeat split; auto; try lia.
           ++ intros [|j] Hj; cbn; auto. exfalso. apply Hj. left. lia.
           ++ intros [|j] [Hj|[]]; [exists c; reflexivity|lia].
           ++ exists []. split; auto.
      * replace (Nat.max start i) with i by lia.
        cbn -[Nat.sub Nat.max].
        repeat split; auto; try lia.
        replace (i - i)%nat with 0%nat by lia. reflexivity.
Qed.

(** The slots below the start index are handed back as they are, and the
    scan is the scan of the remaining slots from the start index: the loop
    is the source's [for (i = current_child_; i < children_count_; ++i)]. *)
Lemma scan_children_from_start (pass : Status) (start : nat) slots :
  forall i ctx,
    (i <= start)%nat -> (start - i <= List.length slots)%nat ->
    let s := scan_children tick_child pass start i slots ctx in
    let s' := scan_children tick_child pass start start
                            (skipn (start - i) slots) ctx in
    scan_exit s = scan_exit s' /\ scan_ctx s = scan_ctx s' /\
    scan_events s = scan_events s' /\
    scan_slots s = firstn (start - i) slots ++ scan_slots s'.
Proof.
  induction slots as [|slot rest IH]; intros i ctx Hi Hlen.
  - cbn [List.length] in Hlen. replace (start - i)%nat with 0%nat by lia.
    cbn. auto.
  - destruct (Nat.eq_dec i start) as [->|Hne].
    + replace (start - start)%nat with 0%nat by lia. cbn [skipn firstn app].
      auto.
    + replace (start - i)%nat with (S (start - S i)) by lia.
      cbn [skipn firstn scan_children].
      destruct (Nat.ltb_spec i start) as [_|Hge]; [|lia].
      cbn [List.length] in Hlen.
      destruct (IH (S i) ctx) as (H1 & H2 & H3 & H4); [lia|lia|].
      cbn [scan_cons scan_exit scan_ctx scan_events scan_slots app].
      rewrite H1, H2, H3, H4. auto.
Qed.

Lemma fst_unique (A B : Type) (l : list (A * B)) k a b :
  NoDup (map fst l) -> In (k, a) l -> In (k, b) l -> a = b.
Proof.
  induction l as [|[k0 v0] l IH]; cbn; intros Hnd Ha Hb; [tauto|].
  inversion Hnd as [|? ? Hnotin Hnd']; subst.
  destruct Ha as [Ha|Ha], Hb as [Hb|Hb].
  - congruence.
  - inversion Ha; subst. exfalso. apply Hnotin.
    change k with (fst (k, b)). apply in_map. exact Hb.
  - inversion Hb; subst. exfalso. apply Hnotin.
    change k with (fst (k, a)). apply in_map. exact Ha.
  - auto.
Qed.

Lemma In_fst (A B : Type) (l : list (A * B)) k v :
  In (k, v) l -> In k (map fst l).
Proof. intros H. change k with (fst (k, v)). apply in_map. exact H. Qed.

(** The scan as [TickSequence] and [TickSelector] run it, from index 0 with
    the slots below the cursor left out. *)
Lemma scan_from_cursor (pass : Status) (start : nat) slots ctx :
  let s := scan_children tick_child pass start 0 slots ctx in
  let ticks := child_ticks (scan_events s) in
  Forall (fun e => is_lifecycle e = false) (scan_events s) /\
  map fst ticks = seq start (List.length ticks) /\
  (forall j, In j (map fst ticks) -> (start <= j < List.length slots)%nat) /\
  List.length (scan_slots s) = List.length slots /\
  (forall j, ~ In j (map fst ticks) ->
             nth_error (scan_slots s) j = nth_error slots j) /\
  (forall j, In j (map fst ticks) ->
             exists c, nth_error slots j = Some (Some c)) /\
  (forall k r, In (k, r) ticks -> r <> pass -> scan_exit s = ScanReturn k r) /\
  (forall k r, scan_exit s = ScanReturn k r ->
               r <> pass /\ In (k, r) ticks /\
               forall j r', In (j, r') ticks -> (j <= k)%nat) /\
  (forall k, scan_exit s = ScanNull k ->
             nth_error slots k = Some None /\ (start <= k)%nat /\
             Forall (fun p => snd p = pass) ticks) /\
  (scan_exit s = ScanEnd ->
   Forall (fun p => snd p = pass) ticks /\
   (List.length slots <= start + List.length ticks)%nat) /\
  ((forall j, (start <= j < List.length slots)%nat -> In (j, pass) ticks) ->
   scan_exit s = ScanEnd) /\
  (forall k, In (k, pass) ticks -> (S k < List.length slots)%nat ->
             In (S k) (map fst ticks) \/ scan_exit s = ScanNull (S k)).
Proof.
  intros s ticks.
  destruct (scan_children_spec pass start slots 0 ctx)
    as (Ev & Ix & Bd & Len & Un & Tk & Ex).
  fold s in Ev, Ix, Bd, Len, Un, Tk, Ex. fold ticks in Ix, Bd, Un, Tk, Ex.
  replace (Nat.max start 0) with start in * by lia.
  cbn [Nat.add] in *.
  assert (Hnd : NoDup (map fst ticks)) by (rewrite Ix; apply seq_NoDup).
  assert (Hrange : forall j, In j (map fst ticks) ->
                             (start <= j < start + List.length ticks)%nat).
  { intros j Hj. rewrite Ix in Hj. apply in_seq in Hj. exact Hj. }
  assert (Hret : forall k r, scan_exit s = ScanReturn k r ->
            r <> pass /\ In (k, r) ticks /\
            k = (start + List.length ticks - 1)%nat).
  { intros k r Hx. rewrite Hx in Ex. destruct Ex as (Hr & before & Hb & Hp).
    split; [exact Hr|]. split; [rewrite Hb; apply in_or_app; right; left; auto|].
    assert (Hl : List.length ticks = S (List.length before)).
    { rewrite Hb, length_app. cbn. lia. }
    rewrite Hl, seq_S, Hb, map_app in Ix. cbn in Ix.
    apply app_inj_tail in Ix. lia. }
  split; [exact Ev|]. split; [exact Ix|].
  split; [intros j Hj; apply Hrange in Hj; lia|].
  split; [exact Len|].
  split; [exact Un|].
  split; [exact Tk|].
  split.
  { intros k r Hin Hr. destruct (scan_exit s) as [k'|k' r'|] eqn:Hx.
    - destruct Ex as (Hp & _). rewrite Forall_forall in Hp.
      specialize (Hp _ Hin). cbn in Hp. congruence.
    - destruct Ex as (_ & before & Hb & Hp). rewrite Hb in Hin.
      apply in_app_or in Hin. destruct Hin as [Hin|[Hin|[]]].
      + rewrite Forall_forall in Hp. specialize (Hp _ Hin). cbn in Hp.
        congruence.
      + congruence.
    - destruct Ex as (Hp & _). rewrite Forall_forall in Hp.
      specialize (Hp _ Hin). cbn in Hp. congruence. }
  split.
  { intros k r Hx. destruct (Hret k r Hx) as (Hr & Hin & Hk).
    repeat split; auto. intros j r' Hj. apply In_fst, Hrange in Hj. lia. }
  split.
  { intros k Hx. rewrite Hx in Ex. destruct Ex as (Hp & Hk & Hn).
    rewrite Nat.sub_0_r in Hn. repeat split; auto. lia. }
  split.
  { intros Hx. rewrite Hx in Ex. tauto. }
  split.
  { intros Hall. destruct (scan_exit s) as [k|k r|] eqn:Hx; [| |reflexivity].
    - exfalso. destruct Ex as (_ & Hk & Hn). rewrite Nat.sub_0_r in Hn.
      assert (Hlt : (k < List.length slots)%nat).
      { apply nth_error_Some. congruence. }
      assert (Hin : In (k, pass) ticks) by (apply Hall; lia).
      apply In_fst, Hrange in Hin. lia.
    - exfalso. destruct (Hret k r eq_refl) as (Hr & Hin & Hk).
      assert (Hk' : (start <= k < List.length slots)%nat).
      { apply In_fst, Hrange in Hin. lia. }
      apply Hr. exact (fst_unique _ _ _ _ _ _ Hnd Hin (Hall k Hk')). }
  intros k Hin Hlt.
  pose proof (Hrange _ (In_fst _ _ _ _ _ Hin)) as Hk.
  destruct (Nat.eq_dec (S k) (start + List.length ticks)) as [Hlast|Hmid].
  - right. destruct (scan_exit s) as [k'|k' r'|] eqn:Hx.
    + destruct Ex as (_ & Hk' & _). f_equal. lia.
    + exfalso. destruct (Hret k' r' eq_refl) as (Hr & Hin' & Hk').
      apply Hr. apply (fst_unique _ _ ticks k r' pass Hnd); [|exact Hin].
      replace k with k' by lia. exact Hin'.
    + exfalso. destruct Ex as (_ & Hl). lia.
  - left. rewrite Ix. apply in_seq. lia.
Qed.

Lemma child_ticks_enter_events n : child_ticks (enter_events n) = [].
Proof. unfold enter_events. destruct (status_ n), (on_enter_ n); reflexivity. Qed.

Lemma child_ticks_exit_events n r : child_ticks (exit_events n r) = [].
Proof. unfold exit_events. destruct r, (on_exit_ n); reflexivity. Qed.

Lemma enter_if_fresh_events n ctx : snd (enter_if_fresh n ctx) = enter_events n.
Proof.
  unfold enter_if_fresh, enter_events, CallEnter.
  destruct (status_ n), (on_enter_ n); reflexivity.
Qed.

Lemma exit_if_finished_events n r ctx :
  snd (exit_if_finished n r ctx) = exit_events n r.
Proof.
  unfold exit_if_finished, exit_events, CallExit.
  destruct r, (on_exit_ n); reflexivity.
Qed.

(** [TickSequence] is the scan that goes on while children succeed. *)
Lemma TickSequence_by_scan n ctx :
  let s := scan_children tick_child kSuccess (entry_cursor n) 0
                         (children_ n) (fst (enter_if_fresh n ctx)) in
  let o := TickSequence tick_child n ctx in
  out_events o = enter_events n ++ scan_events s ++ exit_events n (out_status o) /\
  children_ (out_node o) = scan_slots s /\
  match scan_exit s with
  | ScanNull _ =>
      out_status o = kError /\ current_child_ (out_node o) = entry_cursor n
  | ScanReturn k r => out_status o = r /\ current_child_ (out_node o) = k
  | ScanEnd =>
      out_status o = kSuccess /\ current_child_ (out_node o) = entry_cursor n
  end.
Proof.
  unfold TickSequence, enter_if_fresh, entry_cursor, enter_events, exit_events,
    CallEnter, CallExit.
  destruct (status_ n), (on_enter_ n);
    cbn [fst snd current_child_ set_current_child set_children set_status
         on_exit_];
    rewrite TickSequence_loop_scan;
    destruct (scan_exit _) as [k|k [ | | | ]|];
    cbn [on_exit_ set_status set_current_child set_children];
    destruct (on_exit_ n); cbn; rewrite ?app_nil_r; repeat split; reflexivity.
Qed.

(** [TickSelector] is the scan that goes on while children fail. *)
Lemma TickSelector_by_scan n ctx :
  let s := scan_children tick_child kFailure (entry_cursor n) 0
                         (children_ n) (fst (enter_if_fresh n ctx)) in
  let o := TickSelector tick_child n ctx in
  out_events o = enter_events n ++ scan_events s ++ exit_events n (out_status o) /\
  children_ (out_node o) = scan_slots s /\
  match scan_exit s with
  | ScanNull _ =>
      out_status o = kError /\ current_child_ (out_node o) = entry_cursor n
  | ScanReturn k r => out_status o = r /\ current_child_ (out_node o) = k
  | ScanEnd =>
      out_status o = kFailure /\ current_child_ (out_node o) = entry_cursor n
  end.
Proof.
  unfold TickSelector, enter_if_fresh, entry_cursor, enter_events, exit_events,
    CallEnter, CallExit.
  destruct (status_ n), (on_enter_ n);
    cbn [fst snd current_child_ set_current_child set_children set_status
         on_exit_];
    rewrite TickSelector_loop_scan;
    destruct (scan_exit _) as [k|k [ | | | ]|];
    cbn [on_exit_ set_status set_current_child set_children];
    destruct (on_exit_ n); cbn; rewrite ?app_nil_r; repeat split; reflexivity.
Qed.

Lemma ChildAt_null_iff n k :
  (k < children_count_ n)%nat /\ ChildAt n k = None
  <-> nth_error (children_ n) k = Some None.
Proof.
  unfold ChildAt, children_count_. split.
  - intros (Hk & Hn). apply nth_error_Some in Hk.
    destruct (nth_error (children_ n) k) as [slot|]; congruence.
  - intros Hn. split; [apply nth_error_Some; congruence|].
    rewrite Hn. reflexivity.
Qed.

(** What a node that runs a scan guarantees, whichever status lets the scan
    go on ([pass]) and whatever it returns when the scan runs to the end. *)
Lemma scan_node_contract (pass end_status : Status) n ctx0
      (o : Outcome Context) :
  let s := scan_children tick_child pass (entry_cursor n) 0 (children_ n) ctx0 in
  out_events o = enter_events n ++ scan_events s ++ exit_events n (out_status o) ->
  children_ (out_node o) = scan_slots s ->
  match scan_exit s with
  | ScanNull _ =>
      out_status o = kError /\ current_child_ (out_node o) = entry_cursor n
  | ScanReturn k r => out_status o = r /\ current_child_ (out_node o) = k
  | ScanEnd =>
      out_status o = end_status /\ current_child_ (out_node o) = entry_cursor n
  end ->
  let ticks := child_ticks (out_events o) in
  (exists work, out_events o
                = enter_events n ++ work ++ exit_events n (out_status o) /\
                Forall (fun e => is_lifecycle e = false) work) /\
  map fst ticks = seq (entry_cursor n) (List.length ticks) /\
  (forall j, In j (map fst ticks) ->
             (entry_cursor n <= j < children_count_ n)%nat) /\
  (forall k r, In (k, r) ticks -> r <> pass ->
               out_status o = r /\ current_child_ (out_node o) = k /\
               forall j r', In (j, r') ticks -> (j <= k)%nat) /\
  ((forall j, (entry_cursor n <= j < children_count_ n)%nat ->
              In (j, pass) ticks) ->
   out_status o = end_status) /\
  (forall k, In (k, pass) ticks -> (S k < children_count_ n)%nat ->
             In (S k) (map fst ticks) \/
             (ChildAt n (S k) = None /\ out_status o = kError)) /\
  (forall j, ~ In j (map fst ticks) -> ChildAt (out_node o) j = ChildAt n j) /\
  ((forall k r, In (k, r) ticks -> r = pass) ->
   (exists k, (entry_cursor n <= k < children_count_ n)%nat /\
              ChildAt n k = None) ->
   out_status o = kError) /\
  ((forall k r, In (k, r) ticks -> r = pass) ->
   current_child_ (out_node o) = entry_cursor n).
Proof.
  intros s Hev Hch Hex ticks.
  destruct (scan_from_cursor pass (entry_cursor n) (children_ n) ctx0)
    as (Ev & Ix & Rg & Len & Un & Tk & Np & Rt & Nl & En & Al & Nx).
  fold s in Ev, Ix, Rg, Len, Un, Tk, Np, Rt, Nl, En, Al, Nx.
  assert (Ht : ticks = child_ticks (scan_events s)).
  { unfold ticks. rewrite Hev, !child_ticks_app, child_ticks_enter_events,
      child_ticks_exit_events, app_nil_r. reflexivity. }
  rewrite <- Ht in *. clearbody ticks. fold (children_count_ n) in *.
  split; [exists (scan_events s); auto|].
  split; [exact Ix|]. split; [exact Rg|].
  split.
  { intros k r Hin Hr. pose proof (Np k r Hin Hr) as Hx.
    rewrite Hx in Hex. destruct Hex as (Hs & Hc).
    repeat split; auto. apply (Rt k r Hx). }
  split.
  { intros Hall. rewrite (Al Hall) in Hex. apply Hex. }
  split.
  { intros k Hin Hlt. destruct (Nx k Hin Hlt) as [H|Hx]; [left; exact H|].
    right. rewrite Hx in Hex. split; [|apply Hex].
    apply (Nl _) in Hx. apply ChildAt_null_iff. tauto. }
  split.
  { intros j Hj. unfold ChildAt. rewrite Hch, (Un j Hj). reflexivity. }
  split.
  { intros Hpass (k & Hk & Hnull).
    destruct (scan_exit s) as [k'|k' r'|] eqn:Hx; [apply Hex| |].
    - exfalso. destruct (Rt k' r' eq_refl) as (Hr & Hin & _).
      apply Hr. exact (Hpass k' r' Hin).
    - exfalso. destruct (En eq_refl) as (_ & Hl).
      assert (Hin : In k (map fst ticks)) by (rewrite Ix; apply in_seq; lia).
      destruct (Tk k Hin) as (c & Hc).
      assert (Hn : nth_error (children_ n) k = Some None).
      { apply ChildAt_null_iff. split; [lia|exact Hnull]. }
      congruence. }
  intros Hpass.
  destruct (scan_exit s) as [k'|k' r'|] eqn:Hx; [apply Hex| |apply Hex].
  exfalso. destruct (Rt k' r' eq_refl) as (Hr & Hin & _).
  apply Hr. exact (Hpass k' r' Hin).
Qed.

End ScanFacts.

(** ** Sequence and Selector *)

Lemma entry_cursor_fresh n : status_ n <> kRunning -> entry_cursor n = 0%nat.
Proof. unfold entry_cursor. destruct (status_ n); congruence. Qed.

Lemma entry_cursor_resume n :
  status_ n = kRunning -> entry_cursor n = current_child_ n.
Proof. unfold entry_cursor. intros ->. reflexivity. Qed.

(** ** The ticks of the children, threaded through the context *)

Lemma skipn_cons_nth (A : Type) (l : list A) : forall i x r,
  skipn i l = x :: r -> nth_error l i = Some x /\ skipn (S i) l = r.
Proof.
  induction l as [|a l IH]; intros [|i] x r H; cbn in *; try discriminate.
  - injection H as -> ->. auto.
  - apply IH. exact H.
Qed.

Lemma enter_if_fresh_entered n ctx :
  enter_if_fresh n ctx = (entered n ctx, enter_events n).
Proof.
  unfold enter_if_fresh, entered, enter_events, CallEnter.
  destruct (status_ n), (on_enter_ n); reflexivity.
Qed.

Lemma exit_if_finished_exited n r ctx :
  exit_if_finished n r ctx = (exited n r ctx, exit_events n r).
Proof.
  unfold exit_if_finished, exited, exit_events, CallExit.
  destruct r, (on_exit_ n); reflexivity.
Qed.

Lemma child_ticks_child_events ks (outs : list (Outcome Context)) :
  child_ticks (child_events ks outs) = combine ks (map out_status outs).
Proof.
  revert outs. induction ks as [|k ks IH]; intros [|o outs]; cbn; auto.
  f_equal. apply IH.
Qed.

Lemma last_cons_default (A : Type) (l : list A) :
  forall a d, last (a :: l) d = last l a.
Proof.
  induction l as [|b l IH]; intros a d; [reflexivity|].
  change (last (a :: b :: l) d) with (last (b :: l) d).
  rewrite (IH b d), (IH b a). reflexivity.
Qed.

Lemma left_ctx_cons ctx (o : Outcome Context) outs :
  left_ctx ctx (o :: outs) = left_ctx (out_ctx o) outs.
Proof. unfold left_ctx. cbn [map]. apply last_cons_default. Qed.

(** What a scan logs is what the [Tick]s of the children at the logged
    indices return, each started on the context the one before left; the
    slots of these children hold the nodes these ticks leave. *)
Lemma scan_children_threaded (pass : Status) (start : nat) n slots :
  forall i ctx,
    skipn i (children_ n) = slots ->
    let s := scan_children Tick pass start i slots ctx in
    let ks := map fst (child_ticks (scan_events s)) in
    let outs := tick_in_turn n ctx ks in
    List.length outs = List.length ks /\
    scan_events s = child_events ks outs /\
    scan_ctx s = left_ctx ctx outs /\
    (forall k, In k ks -> (i <= k)%nat) /\
    (forall j k oj,
        nth_error ks j = Some k -> nth_error outs j = Some oj ->
        nth_error (scan_slots s) (k - i) = Some (Some (out_node oj))).
Proof.
  induction slots as [|slot rest IH]; intros i ctx Hsk; cbn [scan_children].
  - cbn. repeat split; try tauto. intros [|j] k oj H; discriminate.
  - destruct (skipn_cons_nth _ _ _ _ _ Hsk) as (Hnth & Hrest).
    destruct (Nat.ltb_spec i start) as [Hlt|Hge].
    + destruct (IH (S i) ctx Hrest) as (H1 & H2 & H3 & H4 & H5).
      cbn [scan_cons scan_events scan_ctx scan_slots app].
      split; [exact H1|]. split; [exact H2|]. split; [exact H3|].
      split; [intros k Hk; specialize (H4 k Hk); lia|].
      intros j k oj Hk Ho.
      pose proof (H4 k (nth_error_In _ _ Hk)) as Hle.
      replace (k - i)%nat with (S (k - S i)) by lia. cbn [nth_error].
      apply (H5 j k oj Hk Ho).
    + destruct slot as [c|].
      * assert (Hc : ChildAt n i = Some c)
          by (unfold ChildAt; rewrite Hnth; reflexivity).
        destruct (Status_eqb (out_status (Tick c ctx)) pass).
        -- destruct (IH (S i) (out_ctx (Tick c ctx)) Hrest)
             as (H1 & H2 & H3 & H4 & H5).
           cbn [scan_cons scan_events scan_ctx scan_slots app child_ticks
                child_tick map fst tick_in_turn].
           rewrite Hc. cbn zeta.
           split; [cbn [List.length]; f_equal; exact H1|].
           split; [cbn [child_events combine map fst snd]; f_equal; exact H2|].
           split; [rewrite left_ctx_cons; exact H3|].
           split.
           { intros k [<-|Hk]; [lia|]. specialize (H4 k Hk). lia. }
           intros [|j] k oj Hk Ho; cbn [nth_error] in Hk, Ho.
           ++ injection Hk as <-. injection Ho as <-.
              rewrite Nat.sub_diag. reflexivity.
           ++ pose proof (H4 k (nth_error_In _ _ Hk)) as Hle.
              replace (k - i)%nat with (S (k - S i)) by lia. cbn [nth_error].
              apply (H5 j k oj Hk Ho).
        -- cbn [scan_events scan_ctx scan_slots child_ticks child_tick map
                fst tick_in_turn].
           rewrite Hc. cbn zeta.
           split; [reflexivity|]. split; [reflexivity|].
           split; [reflexivity|].
           split; [intros k [<-|[]]; lia|].
           intros [|[|j]] k oj Hk Ho; cbn [nth_error] in Hk, Ho;
             try discriminate.
           injection Hk as <-. injection Ho as <-.
           rewrite Nat.sub_diag. reflexivity.
      * cbn. repeat split; try tauto. intros [|j] k oj H; discriminate.
Qed.

Lemma TickSequence_exited
      (tick_child : Node Context -> Context -> Outcome Context) n ctx :
  let s := scan_children tick_child kSuccess (entry_cursor n) 0
                         (children_ n) (entered n ctx) in
  let o := TickSequence tick_child n ctx in
  out_ctx o = exited n (out_status o) (scan_ctx s).
Proof.
  unfold TickSequence, enter_if_fresh, entry_cursor, entered, exited,
    CallEnter, CallExit.
  destruct (status_ n), (on_enter_ n);
    cbn [fst snd current_child_ set_current_child set_children set_status
         on_exit_];
    rewrite TickSequence_loop_scan;
    destruct (scan_exit _) as [k|k [ | | | ]|];
    cbn [on_exit_ set_status set_current_child set_children];
    destruct (on_exit_ n); reflexivity.
Qed.

Lemma TickSelector_exited
      (tick_child : Node Context -> Context -> Outcome Context) n ctx :
  let s := scan_children tick_child kFailure (entry_cursor n) 0
                         (children_ n) (entered n ctx) in
  let o := TickSelector tick_child n ctx in
  out_ctx o = exited n (out_status o) (scan_ctx s).
Proof.
  unfold TickSelector, enter_if_fresh, entry_cursor, entered, exited,
    CallEnter, CallExit.
  destruct (status_ n), (on_enter_ n);
    cbn [fst snd current_child_ set_current_child set_children set_status
         on_exit_];
    rewrite TickSelector_loop_scan;
    destruct (scan_exit _) as [k|k [ | | | ]|];
    cbn [on_exit_ set_status set_current_child set_children];
    destruct (on_exit_ n); reflexivity.
Qed.

(** A Sequence or Selector, from what [TickSequence_by_scan],
    [TickSelector_by_scan] and the two lemmas above say of its outcome: the
    log, the slots and the context are those of the real ticks of the
    children, taken in turn from the cursor. *)
Lemma scan_node_threaded (pass end_status : Status) n ctx
      (o : Outcome Context) :
  let s := scan_children Tick pass (entry_cursor n) 0 (children_ n)
                         (entered n ctx) in
  out_events o = enter_events n ++ scan_events s ++ exit_events n (out_status o) ->
  children_ (out_node o) = scan_slots s ->
  out_ctx o = exited n (out_status o) (scan_ctx s) ->
  match scan_exit s with
  | ScanNull _ => out_status o = kError
  | ScanReturn k r => out_status o = r
  | ScanEnd => out_status o = end_status
  end ->
  let ticks := child_ticks (out_events o) in
  let ks := map fst ticks in
  let outs := tick_in_turn n (entered n ctx) ks in
  List.length outs = List.length ks /\
  ticks = combine ks (map out_status outs) /\
  out_events o
  = enter_events n ++ child_events ks outs ++ exit_events n (out_status o) /\
  out_ctx o = exited n (out_status o) (left_ctx (entered n ctx) outs) /\
  (forall j k oj,
      nth_error ks j = Some k -> nth_error outs j = Some oj ->
      ChildAt (out_node o) k = Some (out_node oj)) /\
  (forall c, ChildAt n (entry_cursor n) = Some c -> In (entry_cursor n) ks) /\
  ((entry_cursor n < children_count_ n)%nat ->
   ChildAt n (entry_cursor n) = None ->
   out_status o = kError /\ ticks = []).
Proof.
  intros s Hev Hch Hctx Hex ticks ks outs.
  assert (Ht : ticks = child_ticks (scan_events s)).
  { unfold ticks. rewrite Hev, !child_ticks_app, child_ticks_enter_events,
      child_ticks_exit_events, app_nil_r. reflexivity. }
  destruct (scan_children_threaded pass (entry_cursor n) n (children_ n) 0
              (entered n ctx) eq_refl) as (H1 & H2 & H3 & _ & H5).
  fold s in H1, H2, H3, H5. rewrite <- Ht in H1, H2, H3, H5.
  fold ks in H1, H2, H3, H5. fold outs in H1, H2, H3, H5.
  destruct (scan_children_spec Tick pass (entry_cursor n) (children_ n) 0
              (entered n ctx)) as (_ & Ix & _ & _ & _ & Tk & Xs).
  fold s in Ix, Tk, Xs. rewrite <- Ht in Ix, Tk, Xs. fold ks in Ix, Tk.
  replace (Nat.max (entry_cursor n) 0) with (entry_cursor n) in * by lia.
  split; [exact H1|].
  split.
  { rewrite Ht, H2. apply child_ticks_child_events. }
  split; [rewrite Hev, H2; reflexivity|].
  split; [rewrite Hctx, H3; reflexivity|].
  split.
  { intros j k oj Hk Ho. unfold ChildAt. rewrite Hch.
    rewrite <- (Nat.sub_0_r k). rewrite (H5 j k oj Hk Ho). reflexivity. }
  assert (Hempty : ticks = [] ->
                   (entry_cursor n < children_count_ n)%nat ->
                   scan_exit s = ScanNull (entry_cursor n) /\
                   nth_error (children_ n) (entry_cursor n) = Some None).
  { intros He Hlt. unfold children_count_ in Hlt.
    destruct (scan_exit s) as [k|k r|].
    - destruct Xs as (_ & Hk & Hn). rewrite He in Hk.
      cbn [List.length] in Hk. rewrite Nat.add_0_r in Hk. subst k.
      rewrite Nat.sub_0_r in Hn. auto.
    - destruct Xs as (_ & before & Hb & _). rewrite He in Hb.
      destruct before; discriminate.
    - destruct Xs as (_ & Hl). rewrite He in Hl. cbn in Hl. lia. }
  split.
  - intros c Hc. rewrite Ix.
    destruct (List.length ticks) as [|len] eqn:Hlen;
      [exfalso|cbn [seq]; left; reflexivity].
    apply length_zero_iff_nil in Hlen.
    assert (Hn : nth_error (children_ n) (entry_cursor n) = Some (Some c)).
    { unfold ChildAt in Hc.
      destruct (nth_error (children_ n) (entry_cursor n)) as [[c0|]|];
        congruence. }
    destruct (Hempty Hlen) as (_ & Hnull); [|congruence].
    unfold children_count_. apply nth_error_Some. congruence.
  - intros Hlt Hnull.
    assert (Hn : nth_error (children_ n) (entry_cursor n) = Some None)
      by (apply ChildAt_null_iff; auto).
    assert (He : ticks = []).
    { destruct (List.length ticks) as [|len] eqn:Hlen;
        [apply length_zero_iff_nil; exact Hlen|exfalso].
      destruct (Tk (entry_cursor n)) as (c & Hc).
      - cbn [Nat.add]. rewrite Ix, ?Hlen. cbn [seq]. left. reflexivity.
      - congruence. }
    split; [|exact He].
    destruct (Hempty He Hlt) as (Hx & _). rewrite Hx in Hex. exact Hex.
Qed.

(** C4.  A Sequence starts its scan at index 0 on a fresh entry and at the
    saved cursor while it is Running; it ticks its children in ascending
    index order from there; a child that returns Running ends the scan, is
    saved as the cursor and makes the Sequence return Running; a child that
    returns Failure or Error ends the scan and its status is returned as it
    is; when every child from the cursor on returns Success the Sequence
    returns Success, and so does a Sequence without children; the children
    that are not ticked, those below the cursor among them, are left as they
    were.  The ticks are real: the child under the cursor is ticked on the
    context that on-enter leaves, after a child that returns Success the
    next one is ticked on the context that child left (a null slot gives
    Error), what the log records is what these [Tick]s return, their nodes
    are stored back, and the context handed back is the one the last of
    them left, after on-exit when the result is terminal. *)
Theorem Sequence_tick_contract n ctx :
  type_ n = kSequence ->
  let o := Tick n ctx in
  let ticks := child_ticks (out_events o) in
  (status_ n <> kRunning -> entry_cursor n = 0%nat) /\
  (status_ n = kRunning -> entry_cursor n = current_child_ n) /\
  map fst ticks = seq (entry_cursor n) (List.length ticks) /\
  (forall j, In j (map fst ticks) ->
             (entry_cursor n <= j < children_count_ n)%nat) /\
  (forall i, In (i, kRunning) ticks ->
             out_status o = kRunning /\ current_child_ (out_node o) = i /\
             forall j r, In (j, r) ticks -> (j <= i)%nat) /\
  (forall i r, In (i, r) ticks -> r = kFailure \/ r = kError ->
               out_status o = r /\
               forall j r', In (j, r') ticks -> (j <= i)%nat) /\
  ((forall j, (entry_cursor n <= j < children_count_ n)%nat ->
              In (j, kSuccess) ticks) ->
   out_status o = kSuccess) /\
  (children_count_ n = 0%nat -> out_status o = kSuccess) /\
  ((forall i r, In (i, r) ticks -> r = kSuccess) ->
   current_child_ (out_node o) = entry_cursor n) /\
  (forall j, ~ In j (map fst ticks) -> ChildAt (out_node o) j = ChildAt n j) /\
  (let ks := map fst ticks in
   let outs := tick_in_turn n (entered n ctx) ks in
   List.length outs = List.length ks /\
   ticks = combine ks (map out_status outs) /\
   out_events o
   = enter_events n ++ child_events ks outs ++ exit_events n (out_status o) /\
   out_ctx o = exited n (out_status o) (left_ctx (entered n ctx) outs) /\
   (forall j k oj,
       nth_error ks j = Some k -> nth_error outs j = Some oj ->
       ChildAt (out_node o) k = Some (out_node oj))) /\
  (forall c, ChildAt n (entry_cursor n) = Some c ->
             In (entry_cursor n) (map fst ticks)) /\
  ((entry_cursor n < children_count_ n)%nat ->
   ChildAt n (entry_cursor n) = None ->
   out_status o = kError /\ ticks = []) /\
  (forall i, In (i, kSuccess) ticks -> (S i < children_count_ n)%nat ->
             In (S i) (map fst ticks) \/
             (ChildAt n (S i) = None /\ out_status o = kError)).
Proof.
  intros Hty o ticks. subst o ticks. rewrite Tick_unfold, Hty.
  destruct (TickSequence_by_scan Tick n ctx) as (Hev & Hch & Hex).
  destruct (scan_node_contract Tick kSuccess kSuccess n _ _ Hev Hch Hex)
    as (_ & Ix & Rg & Np & Al & Nx & Un & _ & Cu).
  pose proof (TickSequence_exited Tick n ctx) as Hctx.
  assert (Hfst : fst (enter_if_fresh n ctx) = entered n ctx)
    by (rewrite enter_if_fresh_entered; reflexivity).
  cbn zeta in Hev, Hch, Hex, Hctx. rewrite Hfst in Hev, Hch, Hex.
  destruct (scan_node_threaded kSuccess kSuccess n ctx _ Hev Hch Hctx)
    as (T1 & T2 & T3 & T4 & T5 & T6 & T7).
  { destruct (scan_exit _) as [k|k r|]; tauto. }
  split; [apply entry_cursor_fresh|]. split; [apply entry_cursor_resume|].
  split; [exact Ix|]. split; [exact Rg|].
  split.
  { intros i Hin. destruct (Np i kRunning Hin) as (Hs & Hc & Hl);
      [discriminate|auto]. }
  split.
  { intros i r Hin Hr. destruct (Np i r Hin) as (Hs & Hc & Hl);
      [destruct Hr; subst; discriminate|auto]. }
  split; [exact Al|].
  split; [intros Hz; apply Al; intros j Hj; lia|].
  split; [exact Cu|]. split; [exact Un|].
  split; [cbn zeta; auto|].
  split; [exact T6|]. split; [exact T7|exact Nx].
Qed.

(** C5.  A Selector scans like a Sequence, from 0 on a fresh entry and from
    the saved cursor while Running, in ascending index order; a child that
    returns Success ends the scan and the Selector returns Success; after a
    child that returns Failure the scan goes on to the next slot; a child
    that returns Running ends the scan, is saved as the cursor and makes the
    Selector return Running; when every child from the cursor on returns
    Failure, or there is no child, the Selector returns Failure.  The ticks
    are real: the child under the cursor is ticked on the context that
    on-enter leaves, each next one on the context the one before left, what
    the log records is what these [Tick]s return, their nodes are stored
    back, and the context handed back is the one the last of them left,
    after on-exit when the result is terminal. *)
Theorem Selector_tick_contract n ctx :
  type_ n = kSelector ->
  let o := Tick n ctx in
  let ticks := child_ticks (out_events o) in
  (status_ n <> kRunning -> entry_cursor n = 0%nat) /\
  (status_ n = kRunning -> entry_cursor n = current_child_ n) /\
  map fst ticks = seq (entry_cursor n) (List.length ticks) /\
  (forall j, In j (map fst ticks) ->
             (entry_cursor n <= j < children_count_ n)%nat) /\
  (forall i, In (i, kSuccess) ticks ->
             out_status o = kSuccess /\
             forall j r, In (j, r) ticks -> (j <= i)%nat) /\
  (forall i, In (i, kFailure) ticks -> (S i < children_count_ n)%nat ->
             In (S i) (map fst ticks) \/
             (ChildAt n (S i) = None /\ out_status o = kError)) /\
  (forall i, In (i, kRunning) ticks ->
             out_status o = kRunning /\ current_child_ (out_node o) = i /\
             forall j r, In (j, r) ticks -> (j <= i)%nat) /\
  ((forall j, (entry_cursor n <= j < children_count_ n)%nat ->
              In (j, kFailure) ticks) ->
   out_status o = kFailure) /\
  (children_count_ n = 0%nat -> out_status o = kFailure) /\
  ((forall i r, In (i, r) ticks -> r = kFailure) ->
   current_child_ (out_node o) = entry_cursor n) /\
  (forall j, ~ In j (map fst ticks) -> ChildAt (out_node o) j = ChildAt n j) /\
  (let ks := map fst ticks in
   let outs := tick_in_turn n (entered n ctx) ks in
   List.length outs = List.length ks /\
   ticks = combine ks (map out_status outs) /\
   out_events o
   = enter_events n ++ child_events ks outs ++ exit_events n (out_status o) /\
   out_ctx o = exited n (out_status o) (left_ctx (entered n ctx) outs) /\
   (forall j k oj,
       nth_error ks j = Some k -> nth_error outs j = Some oj ->
       ChildAt (out_node o) k = Some (out_node oj))) /\
  (forall c, ChildAt n (entry_cursor n) = Some c ->
             In (entry_cursor n) (map fst ticks)) /\
  ((entry_cursor n < children_count_ n)%nat ->
   ChildAt n (entry_cursor n) = None ->
   out_status o = kError /\ ticks = []).
Proof.
  intros Hty o ticks. subst o ticks. rewrite Tick_unfold, Hty.
  destruct (TickSelector_by_scan Tick n ctx) as (Hev & Hch & Hex).
  destruct (scan_node_contract Tick kFailure kFailure n _ _ Hev Hch Hex)
    as (_ & Ix & Rg & Np & Al & Nx & Un & _ & Cu).
  pose proof (TickSelector_exited Tick n ctx) as Hctx.
  assert (Hfst : fst (enter_if_fresh n ctx) = entered n ctx)
    by (rewrite enter_if_fresh_entered; reflexivity).
  cbn zeta in Hev, Hch, Hex, Hctx. rewrite Hfst in Hev, Hch, Hex.
  destruct (scan_node_threaded kFailure kFailure n ctx _ Hev Hch Hctx)
    as (T1 & T2 & T3 & T4 & T5 & T6 & T7).
  { destruct (scan_exit _) as [k|k r|]; tauto. }
  split; [apply entry_cursor_fresh|]. split; [apply entry_cursor_resume|].
  split; [exact Ix|]. split; [exact Rg|].
  split.
  { intros i Hin. destruct (Np i kSuccess Hin) as (Hs & Hc & Hl);
      [discriminate|auto]. }
  split; [exact Nx|].
  split.
  { intros i Hin. destruct (Np i kRunning Hin) as (Hs & Hc & Hl);
      [discriminate|auto]. }
  split; [exact Al|].
  split; [intros Hz; apply Al; intros j Hj; lia|].
  split; [exact Cu|]. split; [exact Un|].
  split; [cbn zeta; auto|].
  split; [exact T6|exact T7].
Qed.

(** ** The completion bitmaps *)

Lemma bit_mask_small (i : nat) :
  (i < kMaxParallelChildren)%nat -> bit_mask i = 2 ^ Z.of_nat i.
Proof.
  unfold kMaxParallelChildren, bit_mask, uint32_max. intros Hi.
  rewrite Z.shiftl_1_l. apply Z.mod_small. split.
  - apply Z.pow_nonneg. lia.
  - apply Z.pow_lt_mono_r; lia.
Qed.

Lemma bit_test_mask (bits : Z) (i : nat) :
  (i < kMaxParallelChildren)%nat -> bit_test bits (bit_mask i) = bit_at bits i.
Proof.
  intros Hi. rewrite (bit_mask_small i Hi). unfold bit_test, bit_at.
  destruct (Z.testbit bits (Z.of_nat i)) eqn:Hb.
  - destruct (Z.eqb_spec (Z.land bits (2 ^ Z.of_nat i)) 0) as [H0|]; auto.
    exfalso.
    assert (Ht : Z.testbit (Z.land bits (2 ^ Z.of_nat i)) (Z.of_nat i) = true).
    { rewrite Z.land_spec, Hb, Z.pow2_bits_true by lia. reflexivity. }
    rewrite H0, Z.bits_0 in Ht. discriminate.
  - assert (H0 : Z.land bits (2 ^ Z.of_nat i) = 0).
    { apply Z.bits_inj'. intros k Hk.
      rewrite Z.land_spec, Z.bits_0, Z.pow2_bits_eqb by lia.
      destruct (Z.eqb_spec (Z.of_nat i) k) as [E|];
        [rewrite <- E, Hb|rewrite andb_false_r]; reflexivity. }
    rewrite H0. reflexivity.
Qed.

Lemma bit_at_lor_mask (bits : Z) (i k : nat) :
  (i < kMaxParallelChildren)%nat ->
  bit_at (Z.lor bits (bit_mask i)) k = bit_at bits k || (k =? i)%nat.
Proof.
  intros Hi. rewrite (bit_mask_small i Hi). unfold bit_at.
  rewrite Z.lor_spec, Z.pow2_bits_eqb by lia. f_equal.
  destruct (Nat.eqb_spec k i) as [->|Hne].
  - apply Z.eqb_refl.
  - apply Z.eqb_neq. lia.
Qed.

Lemma bit_at_zero (k : nat) : bit_at 0 k = false.
Proof. apply Z.bits_0. Qed.

(** The constructor and [Reset] leave bitmaps in which no success bit is
    set ahead of its done bit; [Tick] keeps them so (see
    [Parallel_policy_contract]). *)
Lemma NewNode_idle (name : string) : idle (NewNode (Context := Context) name).
Proof. repeat split. Qed.

Lemma idle_bits_ok n :
  idle n -> bits_ok (child_done_bits_ n) (child_success_bits_ n).
Proof.
  intros (_ & _ & Hd & Hs) k. rewrite Hd, Hs, bit_at_zero. discriminate.
Qed.

(** ** The loop of Parallel *)

Section ParallelFacts.

Variable tick_child : Node Context -> Context -> Outcome Context.

(** One iteration touches no bit but its own. *)
Lemma body_frame i slot (st : ParState) ctx k :
  (i < kMaxParallelChildren)%nat -> k <> i ->
  let b := TickParallel_body tick_child i slot st ctx in
  bit_at (par_done (step_state b)) k = bit_at (par_done st) k /\
  bit_at (par_success (step_state b)) k = bit_at (par_success st) k.
Proof.
  intros Hi Hk. unfold TickParallel_body.
  assert (Hne : (k =? i)%nat = false) by (apply Nat.eqb_neq; exact Hk).
  destruct (bit_test (par_done st) (bit_mask i));
    [destruct (bit_test (par_success st) (bit_mask i)); cbn; auto|].
  destruct slot as [c|]; cbn.
  - destruct (out_status (tick_child c ctx)); cbn;
      rewrite ?bit_at_lor_mask, ?Hne, ?orb_false_r by exact Hi; auto.
  - rewrite bit_at_lor_mask, Hne, orb_false_r by exact Hi. auto.
Qed.

(** An iteration on a child already marked done: nothing is ticked. *)
Lemma body_done i slot (st : ParState) ctx :
  (i < kMaxParallelChildren)%nat ->
  bit_at (par_done st) i = true ->
  let b := TickParallel_body tick_child i slot st ctx in
  par_done (step_state b) = par_done st /\
  par_success (step_state b) = par_success st /\
  step_slot b = slot /\ step_ctx b = ctx /\ step_events b = [] /\
  running_count (step_state b) = running_count st /\
  (if bit_at (par_success st) i
   then success_count (step_state b) = S (success_count st) /\
        failure_count (step_state b) = failure_count st
   else success_count (step_state b) = success_count st /\
        failure_count (step_state b) = S (failure_count st)).
Proof.
  intros Hi Hd. unfold TickParallel_body.
  rewrite !bit_test_mask, Hd by exact Hi.
  destruct (bit_at (par_success st) i); cbn; repeat split; reflexivity.
Qed.

(** An iteration on a null slot not yet marked: marked done, counted failed. *)
Lemma body_null i (st : ParState) ctx :
  (i < kMaxParallelChildren)%nat ->
  bit_at (par_done st) i = false ->
  let b := TickParallel_body tick_child i None st ctx in
  bit_at (par_done (step_state b)) i = true /\
  par_success (step_state b) = par_success st /\
  step_slot b = None /\ step_ctx b = ctx /\ step_events b = [] /\
  running_count (step_state b) = running_count st /\
  success_count (step_state b) = success_count st /\
  failure_count (step_state b) = S (failure_count st).
Proof.
  intros Hi Hd. unfold TickParallel_body.
  rewrite !bit_test_mask, Hd by exact Hi. cbn.
  rewrite bit_at_lor_mask, Nat.eqb_refl, orb_true_r by exact Hi.
  repeat split; reflexivity.
Qed.

(** An iteration on a child not yet marked: it is ticked, and what it
    returns decides the bits and the counter. *)
Lemma body_tick i child (st : ParState) ctx :
  (i < kMaxParallelChildren)%nat ->
  bit_at (par_done st) i = false ->
  let b := TickParallel_body tick_child i (Some child) st ctx in
  let o := tick_child child ctx in
  step_slot b = Some (out_node o) /\ step_ctx b = out_ctx o /\
  step_events b = [EvChild i (out_status o) (out_events o)] /\
  match out_status o with
  | kRunning =>
      par_done (step_state b) = par_done st /\
      par_success (step_state b) = par_success st /\
      running_count (step_state b) = S (running_count st) /\
      success_count (step_state b) = success_count st /\
      failure_count (step_state b) = failure_count st
  | kSuccess =>
      bit_at (par_done (step_state b)) i = true /\
      bit_at (par_success (step_state b)) i = true /\
      running_count (step_state b) = running_count st /\
      success_count (step_state b) = S (success_count st) /\
      failure_count (step_state b) = failure_count st
  | _ =>
      bit_at (par_done (step_state b)) i = true /\
      par_success (step_state b) = par_success st /\
      running_count (step_state b) = running_count st /\
      success_count (step_state b) = success_count st /\
      failure_count (step_state b) = S (failure_count st)
  end.
Proof.
  intros Hi Hd. unfold TickParallel_body.
  rewrite !bit_test_mask, Hd by exact Hi. cbn.
  destruct (out_status (tick_child child ctx)); cbn;
    rewrite ?bit_at_lor_mask, ?Nat.eqb_refl, ?orb_true_r by exact Hi;
    repeat split; reflexivity.
Qed.


Lemma par_loop_cons i slot slots (st : ParState) ctx :
  TickParallel_loop tick_child i (slot :: slots) st ctx =
  let b := TickParallel_body tick_child i slot st ctx in
  pscan_cons (step_slot b) (step_events b)
             (TickParallel_loop tick_child (S i) slots
                                (step_state b) (step_ctx b)).
Proof. reflexivity. Qed.

(** Bits of an iteration, for every index. *)
Lemma body_bits i slot (st : ParState) ctx k :
  (i < kMaxParallelChildren)%nat ->
  let b := TickParallel_body tick_child i slot st ctx in
  (bit_at (par_done st) k = true ->
   bit_at (par_done (step_state b)) k = true /\
   bit_at (par_success (step_state b)) k = bit_at (par_success st) k) /\
  (bit_at (par_done (step_state b)) k = false ->
   bit_at (par_success (step_state b)) k = bit_at (par_success st) k).
Proof.
  intros Hi b. destruct (Nat.eq_dec k i) as [->|Hk].
  - destruct (bit_at (par_done st) i) eqn:Hd.
    + destruct (body_done i slot st ctx Hi Hd) as (Hdn & Hsc & _).
      fold b in Hdn, Hsc. rewrite Hdn, Hsc, Hd. split; auto.
    + split; [discriminate|]. destruct slot as [c|].
      * destruct (body_tick i c st ctx Hi Hd) as (_ & _ & _ & Hst).
        fold b in Hst.
        destruct (out_status (tick_child c ctx));
          destruct Hst as (Hdn & Hsc & _); try congruence.
      * destruct (body_null i st ctx Hi Hd) as (Hdn & Hsc & _).
        fold b in Hdn, Hsc. congruence.
  - destruct (body_frame i slot st ctx k Hi Hk) as (Hdn & Hsc).
    fold b in Hdn, Hsc. rewrite Hdn, Hsc. split; auto.
Qed.

(** The bitmaps after the loop, against the bitmaps before it. *)
Lemma par_loop_bits slots : forall i (st : ParState) ctx,
  (i + List.length slots <= kMaxParallelChildren)%nat ->
  let st' := pscan_state (TickParallel_loop tick_child i slots st ctx) in
  (forall k, (k < i \/ i + List.length slots <= k)%nat ->
             bit_at (par_done st') k = bit_at (par_done st) k /\
             bit_at (par_success st') k = bit_at (par_success st) k) /\
  (forall k, bit_at (par_done st) k = true ->
             bit_at (par_done st') k = true /\
             bit_at (par_success st') k = bit_at (par_success st) k) /\
  (forall k, bit_at (par_done st') k = false ->
             bit_at (par_success st') k = bit_at (par_success st) k).
Proof.
  induction slots as [|slot rest IH]; intros i st ctx Hlen;
    [cbn; auto|].
  rewrite par_loop_cons. cbn zeta. cbn [pscan_cons pscan_state].
  cbn [List.length] in Hlen.
  assert (Hi : (i < kMaxParallelChildren)%nat) by lia.
  set (b := TickParallel_body tick_child i slot st ctx).
  specialize (IH (S i) (step_state b) (step_ctx b)).
  cbn zeta in IH. destruct IH as (Fr & Mo & Ru); [lia|].
  split; [|split].
  - intros k Hk.
    destruct (Fr k) as (H1 & H2); [cbn [List.length] in Hk; lia|].
    destruct (body_frame i slot st ctx k Hi) as (H3 & H4);
      [cbn [List.length] in Hk; lia|].
    fold b in H3, H4. split; congruence.
  - intros k Hk.
    destruct (body_bits i slot st ctx k Hi) as (Bm & _). fold b in Bm.
    destruct (Bm Hk) as (H1 & H2). destruct (Mo k H1) as (H3 & H4).
    split; congruence.
  - intros k Hk.
    destruct (body_bits i slot st ctx k Hi) as (_ & Br). fold b in Br.
    rewrite (Ru k Hk). apply Br.
    destruct (bit_at (par_done (step_state b)) k) eqn:Hb; auto.
    destruct (Mo k Hb) as (H3 & _). congruence.
Qed.

Lemma par_loop_bits_ok slots i (st : ParState) ctx :
  (i + List.length slots <= kMaxParallelChildren)%nat ->
  bits_ok (par_done st) (par_success st) ->
  let st' := pscan_state (TickParallel_loop tick_child i slots st ctx) in
  bits_ok (par_done st') (par_success st').
Proof.
  intros Hlen Hok st' k Hs.
  destruct (par_loop_bits slots i st ctx Hlen) as (_ & Mo & Ru).
  fold st' in Mo, Ru.
  destruct (bit_at (par_done st') k) eqn:Hd; auto.
  rewrite (Ru k Hd) in Hs. apply Hok in Hs. apply Mo in Hs.
  destruct Hs as (Hs & _). congruence.
Qed.


(** The counter that an iteration bumps is the one that the bits of its
    child call for, as long as the child's success bit is not set ahead of
    its done bit. *)
Lemma body_counts i slot (st : ParState) ctx :
  (i < kMaxParallelChildren)%nat ->
  (bit_at (par_done st) i = false -> bit_at (par_success st) i = false) ->
  let st1 := step_state (TickParallel_body tick_child i slot st ctx) in
  running_count st1
  = (running_count st + Nat.b2n (negb (bit_at (par_done st1) i)))%nat /\
  success_count st1
  = (success_count st
     + Nat.b2n (succeeded_at (par_done st1) (par_success st1) i))%nat /\
  failure_count st1
  = (failure_count st
     + Nat.b2n (failed_at (par_done st1) (par_success st1) i))%nat.
Proof.
  intros Hi Hok st1. unfold succeeded_at, failed_at.
  destruct (bit_at (par_done st) i) eqn:Hd.
  - destruct (body_done i slot st ctx Hi Hd)
      as (Hdn & Hsc & _ & _ & _ & Hrc & Hcnt).
    fold st1 in Hdn, Hsc, Hrc, Hcnt. rewrite Hdn, Hsc, Hd, Hrc.
    destruct (bit_at (par_success st) i); destruct Hcnt as (-> & ->);
      cbn; lia.
  - specialize (Hok eq_refl). destruct slot as [c|].
    + destruct (body_tick i c st ctx Hi Hd) as (_ & _ & _ & Hst).
      fold st1 in Hst.
      destruct (out_status (tick_child c ctx)).
      * destruct Hst as (-> & -> & -> & -> & ->). cbn. lia.
      * destruct Hst as (-> & -> & -> & -> & ->). rewrite Hok. cbn. lia.
      * destruct Hst as (-> & -> & -> & -> & ->). rewrite Hd. cbn. lia.
      * destruct Hst as (-> & -> & -> & -> & ->). rewrite Hok. cbn. lia.
    + destruct (body_null i st ctx Hi Hd)
        as (Hdn & Hsc & _ & _ & _ & Hrc & Hsn & Hfl).
      fold st1 in Hdn, Hsc, Hrc, Hsn, Hfl.
      rewrite Hdn, Hsc, Hrc, Hsn, Hfl, Hok. cbn. lia.
Qed.

Lemma filter_seq_S (p : nat -> bool) i len :
  List.length (filter p (seq i (S len)))
  = (Nat.b2n (p i) + List.length (filter p (seq (S i) len)))%nat.
Proof. cbn [seq filter]. destruct (p i); reflexivity. Qed.

(** The counters after the loop count the children by their final bits. *)
Lemma par_loop_counts slots : forall i (st : ParState) ctx,
  (i + List.length slots <= kMaxParallelChildren)%nat ->
  (forall k, (i <= k)%nat -> bit_at (par_done st) k = false ->
             bit_at (par_success st) k = false) ->
  let st' := pscan_state (TickParallel_loop tick_child i slots st ctx) in
  let range := seq i (List.length slots) in
  running_count st'
  = (running_count st
     + List.length
         (filter (fun k => negb (bit_at (par_done st') k)) range))%nat /\
  success_count st'
  = (success_count st
     + List.length
         (filter (succeeded_at (par_done st') (par_success st')) range))%nat /\
  failure_count st'
  = (failure_count st
     + List.length
         (filter (failed_at (par_done st') (par_success st')) range))%nat.
Proof.
  induction slots as [|slot rest IH]; intros i st ctx Hlen Hok;
    [cbn; lia|].
  cbn [List.length] in Hlen.
  assert (Hi : (i < kMaxParallelChildren)%nat) by lia.
  rewrite par_loop_cons. cbn zeta. cbn [pscan_cons pscan_state List.length].
  destruct (body_counts i slot st ctx Hi (Hok i (le_n i))) as (Hr & Hs & Hf).
  set (b := TickParallel_body tick_child i slot st ctx) in *.
  assert (Hok1 : forall k, (S i <= k)%nat ->
             bit_at (par_done (step_state b)) k = false ->
             bit_at (par_success (step_state b)) k = false).
  { intros k Hk. destruct (body_frame i slot st ctx k Hi) as (H1 & H2);
      [lia|]. fold b in H1, H2. rewrite H1, H2. apply Hok. lia. }
  destruct (par_loop_bits rest (S i) (step_state b) (step_ctx b))
    as (Fr & _ & _); [lia|].
  specialize (IH (S i) (step_state b) (step_ctx b)). cbn zeta in IH.
  destruct IH as (Hr' & Hs' & Hf'); [lia|exact Hok1|].
  destruct (Fr i) as (Hdi & Hsi); [lia|].
  rewrite !filter_seq_S. unfold succeeded_at, failed_at in *.
  rewrite Hdi, Hsi. lia.
Qed.

Lemma filter_nonempty (p : nat -> bool) (l : list nat) :
  (0 < List.length (filter p l))%nat <-> exists k, In k l /\ p k = true.
Proof.
  split.
  - destruct (filter p l) as [|k rest] eqn:Hf; cbn; [lia|]. intros _.
    exists k. apply filter_In. rewrite Hf. left. reflexivity.
  - intros (k & Hin & Hp).
    assert (Hf : In k (filter p l)) by (apply filter_In; auto).
    destruct (filter p l); [destruct Hf|cbn; lia].
Qed.

(** What an iteration logs. *)
Lemma body_events i slot (st : ParState) ctx :
  (i < kMaxParallelChildren)%nat ->
  let b := TickParallel_body tick_child i slot st ctx in
  (forall e, In e (step_events b) ->
             bit_at (par_done st) i = false /\
             exists c, slot = Some c /\
                       e = EvChild i (out_status (tick_child c ctx))
                                   (out_events (tick_child c ctx))) /\
  (step_events b = [] -> step_slot b = slot) /\
  (bit_at (par_done (step_state b)) i = false ->
   exists sub, In (EvChild i kRunning sub) (step_events b)).
Proof.
  intros Hi b. destruct (bit_at (par_done st) i) eqn:Hd.
  - destruct (body_done i slot st ctx Hi Hd) as (Hdn & _ & Hsl & _ & Hev & _).
    fold b in Hdn, Hsl, Hev. rewrite Hev, Hdn, Hd.
    split; [intros e []|]. split; [auto|discriminate].
  - destruct slot as [c|].
    + destruct (body_tick i c st ctx Hi Hd) as (Hsl & _ & Hev & Hst).
      fold b in Hsl, Hev, Hst. rewrite Hev.
      split; [intros e [<-|[]]; split; [reflexivity|eauto]|].
      split; [discriminate|].
      destruct (out_status (tick_child c ctx));
        destruct Hst as (Hdn & _); try congruence.
      intros _. eexists. left. reflexivity.
    + destruct (body_null i st ctx Hi Hd) as (Hdn & _ & Hsl & _ & Hev & _).
      fold b in Hdn, Hsl, Hev. rewrite Hev, Hdn.
      split; [intros e []|]. split; [auto|discriminate].
Qed.

(** What the loop logs, and what it leaves in the children array. *)
Lemma par_loop_events slots : forall i (st : ParState) ctx,
  (i + List.length slots <= kMaxParallelChildren)%nat ->
  let r := TickParallel_loop tick_child i slots st ctx in
  let st' := pscan_state r in
  Forall (fun e => is_lifecycle e = false) (pscan_events r) /\
  (forall j s sub, In (EvChild j s sub) (pscan_events r) ->
     (i <= j < i + List.length slots)%nat /\
     bit_at (par_done st) j = false /\
     (exists c, nth_error slots (j - i) = Some (Some c)) /\
     bit_at (par_done st') j = negb (Status_eqb s kRunning) /\
     (s = kSuccess -> bit_at (par_success st') j = true) /\
     (s <> kSuccess ->
      bit_at (par_success st') j = bit_at (par_success st) j)) /\
  (forall j, (i <= j < i + List.length slots)%nat ->
             bit_at (par_done st') j = false ->
             exists sub, In (EvChild j kRunning sub) (pscan_events r)) /\
  List.length (pscan_slots r) = List.length slots /\
  (forall j, (forall s sub, ~ In (EvChild (i + j) s sub) (pscan_events r)) ->
             nth_error (pscan_slots r) j = nth_error slots j) /\
  (forall j, nth_error slots j = Some None ->
             bit_at (par_done st') (i + j) = true /\
             bit_at (par_success st') (i + j)
             = bit_at (par_success st) (i + j)).
Proof.
  induction slots as [|slot rest IH]; intros i st ctx Hlen.
  { cbn. repeat split; auto; try lia; try (intros ? ? ? []);
      try (intros [|?]; discriminate);
      match goal with H : nth_error [] ?j = Some _ |- _ =>
                        destruct j; discriminate end. }
  cbn [List.length] in Hlen.
  assert (Hi : (i < kMaxParallelChildren)%nat) by lia.
  destruct (par_loop_bits (slot :: rest) i st ctx) as (_ & Mo0 & _);
    [cbn [List.length]; lia|].
  rewrite par_loop_cons in *. cbn zeta in *.
  cbn [pscan_cons pscan_state pscan_events pscan_slots List.length] in *.
  destruct (body_events i slot st ctx Hi) as (Bev & Bsl & Brun).
  pose proof (body_frame i slot st ctx) as Bfr.
  pose proof (body_tick i) as Btk.
  set (b := TickParallel_body tick_child i slot st ctx) in *.
  destruct (par_loop_bits rest (S i) (step_state b) (step_ctx b))
    as (Fr & Mo & _); [lia|].
  specialize (IH (S i) (step_state b) (step_ctx b)). cbn zeta in IH.
  destruct IH as (E1 & E2 & E3 & E4 & E5 & E6); [lia|].
  set (r := TickParallel_loop tick_child (S i) rest (step_state b)
                              (step_ctx b)) in *.
  split.
  { apply Forall_app. split; [|exact E1].
    apply Forall_forall. intros e He.
    destruct (Bev e He) as (_ & c & _ & ->). reflexivity. }
  split.
  { intros j s sub Hin. apply in_app_or in Hin. destruct Hin as [Hin|Hin].
    - destruct (Bev _ Hin) as (Hd & c & -> & Heq).
      inversion Heq; subst j s sub. clear Heq.
      destruct (Fr i) as (Hdi & Hsi); [lia|]. rewrite Hdi, Hsi.
      destruct (Btk c st ctx Hi Hd) as (_ & _ & _ & Hst). fold b in Hst.
      split; [lia|]. split; [exact Hd|].
      split; [exists c; replace (i - i)%nat with 0%nat by lia; reflexivity|].
      destruct (out_status (tick_child c ctx)); cbn;
        destruct Hst as (Hdn & Hsc & _); rewrite ?Hdn, ?Hsc;
        repeat split; auto; congruence.
    - destruct (E2 j s sub Hin) as (Hj & Hd & (c & Hc) & Hdn & Hs1 & Hs2).
      destruct (Bfr j Hi) as (Hfd & Hfs); [lia|].
      split; [lia|]. split; [congruence|].
      split; [exists c; replace (j - i)%nat with (S (j - S i)) by lia;
              exact Hc|].
      split; [exact Hdn|]. split; [exact Hs1|].
      intros Hne. rewrite (Hs2 Hne). exact Hfs. }
  split.
  { intros j Hj Hd. destruct (Nat.eq_dec j i) as [->|Hne].
    - destruct (Fr i) as (Hdi & _); [lia|]. rewrite Hdi in Hd.
      destruct (Brun Hd) as (sub & Hin). exists sub.
      apply in_or_app. left. exact Hin.
    - destruct (E3 j) as (sub & Hin); [lia|exact Hd|].
      exists sub. apply in_or_app. right. exact Hin. }
  split; [cbn; congruence|].
  split.
  { intros [|j] Hno; cbn.
    - f_equal. apply Bsl. destruct (step_events b) as [|e l] eqn:Hev; auto.
      exfalso. destruct (Bev e (or_introl eq_refl)) as (_ & c & _ & ->).
      eapply Hno. replace (i + 0)%nat with i by lia.
      left. reflexivity.
    - apply E5. intros s sub Hin. apply (Hno s sub).
      apply in_or_app. right.
      replace (i + S j)%nat with (S i + j)%nat by lia. exact Hin. }
  intros [|j] Hn; cbn in Hn.
  - inversion Hn; subst slot. replace (i + 0)%nat with i by lia.
    destruct (bit_at (par_done st) i) eqn:Hd; [apply Mo0; exact Hd|].
    destruct (body_null i st ctx Hi Hd) as (Hdn & Hsc & _).
    fold b in Hdn, Hsc.
    destruct (Mo i Hdn) as (H1 & H2). split; [exact H1|].
    rewrite H2, Hsc. reflexivity.
  - destruct (E6 j Hn) as (H1 & H2).
    destruct (Bfr (S i + j)%nat Hi) as (_ & Hfs); [lia|].
    replace (i + S j)%nat with (S i + j)%nat by lia.
    split; [exact H1|congruence].
Qed.



(** [TickParallel] is its loop, run from the entry state, then the policy. *)
Lemma TickParallel_by_loop n ctx :
  let r := TickParallel_loop tick_child 0 (children_ n) (entry_state n)
                             (fst (enter_if_fresh n ctx)) in
  let o := TickParallel tick_child n ctx in
  out_status o = evaluate_policy (success_policy_ n) (pscan_state r) /\
  out_events o = enter_events n ++ pscan_events r ++ exit_events n (out_status o) /\
  children_ (out_node o) = pscan_slots r /\
  child_done_bits_ (out_node o) = par_done (pscan_state r) /\
  child_success_bits_ (out_node o) = par_success (pscan_state r) /\
  out_ctx o = fst (exit_if_finished n (out_status o) (pscan_ctx r)) /\
  type_ (out_node o) = type_ n /\
  success_policy_ (out_node o) = success_policy_ n.
Proof.
  unfold TickParallel, enter_if_fresh, entry_state, enter_events,
    exit_events, exit_if_finished, CallEnter, CallExit.
  destruct (status_ n), (on_enter_ n);
    cbn [fst snd child_done_bits_ child_success_bits_ set_bits set_children
         set_status on_exit_];
    destruct (evaluate_policy _ _);
    cbn [on_exit_ set_status set_bits set_children];
    destruct (on_exit_ n); cbn; rewrite ?app_nil_r; repeat split; reflexivity.
Qed.

Lemma entry_state_ok n :
  (status_ n = kRunning ->
   bits_ok (child_done_bits_ n) (child_success_bits_ n)) ->
  bits_ok (par_done (entry_state n)) (par_success (entry_state n)).
Proof.
  unfold entry_state. intros H.
  destruct (status_ n); cbn; try (intros k; rewrite bit_at_zero; discriminate).
  apply H. reflexivity.
Qed.

Lemma entry_state_counts n :
  running_count (entry_state n) = 0%nat /\
  success_count (entry_state n) = 0%nat /\
  failure_count (entry_state n) = 0%nat.
Proof. unfold entry_state. destruct (status_ n); cbn; auto. Qed.

(** The three tests of the policy, read on the bitmaps after the loop. *)
Lemma par_loop_policy_tests n ctx0 :
  (children_count_ n <= kMaxParallelChildren)%nat ->
  (status_ n = kRunning ->
   bits_ok (child_done_bits_ n) (child_success_bits_ n)) ->
  let st' := pscan_state (TickParallel_loop tick_child 0 (children_ n)
                                            (entry_state n) ctx0) in
  ((0 <? running_count st')%nat = true <->
   exists i, (i < children_count_ n)%nat /\
             bit_at (par_done st') i = false) /\
  ((0 <? success_count st')%nat = true <->
   exists i, (i < children_count_ n)%nat /\
             succeeded_at (par_done st') (par_success st') i = true) /\
  ((0 <? failure_count st')%nat = true <->
   exists i, (i < children_count_ n)%nat /\
             failed_at (par_done st') (par_success st') i = true).
Proof.
  intros Hlen Hok st'.
  pose proof (entry_state_ok n Hok) as Hok0.
  destruct (entry_state_counts n) as (Hr0 & Hs0 & Hf0).
  destruct (par_loop_counts (children_ n) 0 (entry_state n) ctx0)
    as (Hr & Hs & Hf).
  { exact Hlen. }
  { intros k _ Hd. destruct (bit_at (par_success (entry_state n)) k) eqn:E;
      auto. apply Hok0 in E. congruence. }
  fold st' in Hr, Hs, Hf. rewrite Hr0 in Hr. rewrite Hs0 in Hs.
  rewrite Hf0 in Hf. cbn [Nat.add] in Hr, Hs, Hf.
  fold (children_count_ n) in Hr, Hs, Hf.
  rewrite Hr, Hs, Hf, !Nat.ltb_lt, !filter_nonempty.
  repeat split; intros (i & Hi & Hp); exists i;
    rewrite ?in_seq in *; rewrite ?negb_true_iff in *;
    (split; [lia|assumption]).
Qed.

(** The loop logs child ticks only, whatever the number of children. *)
Lemma par_loop_events_not_lifecycle slots : forall i (st : ParState) ctx,
  Forall (fun e => is_lifecycle e = false)
         (pscan_events (TickParallel_loop tick_child i slots st ctx)).
Proof.
  induction slots as [|slot rest IH]; intros i st ctx; [constructor|].
  rewrite par_loop_cons. cbn zeta. cbn [pscan_cons pscan_events].
  apply Forall_app. split; [|apply IH].
  unfold TickParallel_body.
  repeat break_match; cbn; repeat constructor.
Qed.

End ParallelFacts.

(** ** The ticks of a Parallel node, threaded through the context *)

Lemma par_loop_ticked_indices
      (tick_child : Node Context -> Context -> Outcome Context) slots :
  forall i (st : ParState) ctx,
    (i + List.length slots <= kMaxParallelChildren)%nat ->
    map fst (child_ticks
               (pscan_events (TickParallel_loop tick_child i slots st ctx)))
    = filter (fun k => negb (bit_at (par_done st) k) &&
                       match nth_error slots (k - i) with
                       | Some (Some _) => true
                       | _ => false
                       end)
             (seq i (List.length slots)).
Proof.
  induction slots as [|slot rest IH]; intros i st ctx Hlen; [reflexivity|].
  cbn [List.length] in Hlen.
  assert (Hi : (i < kMaxParallelChildren)%nat) by lia.
  rewrite par_loop_cons. cbn zeta. cbn [pscan_cons pscan_events].
  pose proof (body_frame tick_child i slot st ctx) as Bfr.
  set (b := TickParallel_body tick_child i slot st ctx) in *.
  rewrite child_ticks_app, map_app, IH by lia.
  cbn [List.length seq filter]. replace (i - i)%nat with 0%nat by lia.
  cbn [nth_error].
  assert (Hrest :
    filter (fun k => negb (bit_at (par_done (step_state b)) k) &&
                     match nth_error rest (k - S i) with
                     | Some (Some _) => true
                     | _ => false
                     end) (seq (S i) (List.length rest))
    = filter (fun k => negb (bit_at (par_done st) k) &&
                       match nth_error (slot :: rest) (k - i) with
                       | Some (Some _) => true
                       | _ => false
                       end) (seq (S i) (List.length rest))).
  { apply filter_ext_in. intros k Hk. apply in_seq in Hk.
    destruct (Bfr k Hi) as (-> & _); [lia|].
    replace (k - i)%nat with (S (k - S i)) by lia. reflexivity. }
  rewrite Hrest. clear Hrest.
  destruct (bit_at (par_done st) i) eqn:Hd.
  - destruct (body_done tick_child i slot st ctx Hi Hd)
      as (_ & _ & _ & _ & Hev & _).
    fold b in Hev. rewrite Hev. reflexivity.
  - destruct slot as [c|].
    + destruct (body_tick tick_child i c st ctx Hi Hd) as (_ & _ & Hev & _).
      fold b in Hev. rewrite Hev. reflexivity.
    + destruct (body_null tick_child i st ctx Hi Hd)
        as (_ & _ & _ & _ & Hev & _).
      fold b in Hev. rewrite Hev. reflexivity.
Qed.

Lemma In_child_events ks (outs : list (Outcome Context)) :
  forall j k oj,
    nth_error ks j = Some k -> nth_error outs j = Some oj ->
    In (child_event k oj) (child_events ks outs).
Proof.
  revert outs. induction ks as [|k0 ks IH]; intros [|o outs] [|j] k oj Hk Ho;
    cbn in *; try discriminate.
  - injection Hk as <-. injection Ho as <-. left. reflexivity.
  - right. apply (IH outs j k oj Hk Ho).
Qed.

Lemma child_events_index ks (outs : list (Outcome Context)) k r sub :
  In (EvChild k r sub) (child_events ks outs) -> In k ks.
Proof.
  revert outs. induction ks as [|k0 ks IH]; intros [|o outs]; cbn;
    try tauto.
  intros [H|H]; [left; inversion H; reflexivity|right; eauto].
Qed.

Lemma pending_entry_state n k :
  negb (bit_at (par_done (entry_state n)) k) = pending n k.
Proof.
  unfold entry_state, pending.
  destruct (status_ n); cbn [par_done]; rewrite ?bit_at_zero; reflexivity.
Qed.

(** What the loop of a Parallel node logs is what the [Tick]s of the
    children at the logged indices return, each started on the context the
    one before left; their slots hold the nodes these ticks leave. *)
Lemma par_loop_threaded n slots :
  forall i (st : ParState) ctx,
    skipn i (children_ n) = slots ->
    let s := TickParallel_loop Tick i slots st ctx in
    let ks := map fst (child_ticks (pscan_events s)) in
    let outs := tick_in_turn n ctx ks in
    List.length outs = List.length ks /\
    pscan_events s = child_events ks outs /\
    pscan_ctx s = left_ctx ctx outs /\
    (forall k, In k ks -> (i <= k)%nat) /\
    (forall j k oj,
        nth_error ks j = Some k -> nth_error outs j = Some oj ->
        nth_error (pscan_slots s) (k - i) = Some (Some (out_node oj))).
Proof.
  induction slots as [|slot rest IH]; intros i st ctx Hsk.
  - cbn. repeat split; try tauto. intros [|j] k oj H; discriminate.
  - destruct (skipn_cons_nth _ _ _ _ _ Hsk) as (Hnth & Hrest).
    rewrite par_loop_cons. cbn zeta.
    assert (Hb :
      (step_events (TickParallel_body Tick i slot st ctx) = [] /\
       step_ctx (TickParallel_body Tick i slot st ctx) = ctx) \/
      (exists c,
          slot = Some c /\
          step_events (TickParallel_body Tick i slot st ctx)
          = [child_event i (Tick c ctx)] /\
          step_ctx (TickParallel_body Tick i slot st ctx)
          = out_ctx (Tick c ctx) /\
          step_slot (TickParallel_body Tick i slot st ctx)
          = Some (out_node (Tick c ctx)))).
    { unfold TickParallel_body.
      destruct (bit_test (par_done st) (bit_mask i)).
      - destruct (bit_test (par_success st) (bit_mask i)); left; auto.
      - destruct slot as [c|]; [right; exists c; cbn; auto|left; auto]. }
    set (b := TickParallel_body Tick i slot st ctx) in *.
    cbn [pscan_cons pscan_events pscan_ctx pscan_slots].
    destruct Hb as [(He & Hc)|(c & -> & He & Hc & Hs)]; rewrite He, Hc.
    + destruct (IH (S i) (step_state b) ctx Hrest)
        as (H1 & H2 & H3 & H4 & H5).
      cbn [app].
      split; [exact H1|]. split; [exact H2|]. split; [exact H3|].
      split; [intros k Hk; specialize (H4 k Hk); lia|].
      intros j k oj Hk Ho.
      pose proof (H4 k (nth_error_In _ _ Hk)) as Hle.
      replace (k - i)%nat with (S (k - S i)) by lia. cbn [nth_error].
      apply (H5 j k oj Hk Ho).
    + assert (Hch : ChildAt n i = Some c)
        by (unfold ChildAt; rewrite Hnth; reflexivity).
      destruct (IH (S i) (step_state b) (out_ctx (Tick c ctx)) Hrest)
        as (H1 & H2 & H3 & H4 & H5).
      cbn [app child_event child_ticks child_tick map fst tick_in_turn].
      rewrite Hch. cbn zeta.
      split; [cbn [List.length]; f_equal; exact H1|].
      split; [cbn [child_events combine map fst snd]; f_equal; exact H2|].
      split; [rewrite left_ctx_cons; exact H3|].
      split.
      { intros k [<-|Hk]; [lia|]. specialize (H4 k Hk). lia. }
      intros [|j] k oj Hk Ho; cbn [nth_error] in Hk, Ho.
      * injection Hk as <-. injection Ho as <-.
        rewrite Nat.sub_diag, Hs. reflexivity.
      * pose proof (H4 k (nth_error_In _ _ Hk)) as Hle.
        replace (k - i)%nat with (S (k - S i)) by lia. cbn [nth_error].
        apply (H5 j k oj Hk Ho).
Qed.

(** One tick of a Parallel node with at most 32 children: the children
    ticked are the pending non-null ones, in ascending order; the log, the
    slots and the context are those of their real ticks, taken in turn. *)
Lemma Parallel_threaded n ctx :
  (children_count_ n <= kMaxParallelChildren)%nat ->
  let o := TickParallel Tick n ctx in
  let ks := filter (fun k => pending n k && present n k)
                   (seq 0 (children_count_ n)) in
  let outs := tick_in_turn n (entered n ctx) ks in
  map fst (child_ticks (out_events o)) = ks /\
  List.length outs = List.length ks /\
  child_ticks (out_events o) = combine ks (map out_status outs) /\
  out_events o
  = enter_events n ++ child_events ks outs ++ exit_events n (out_status o) /\
  out_ctx o = exited n (out_status o) (left_ctx (entered n ctx) outs) /\
  (forall j k oj,
      nth_error ks j = Some k -> nth_error outs j = Some oj ->
      ChildAt (out_node o) k = Some (out_node oj)) /\
  (forall k, ~ In k ks -> ChildAt (out_node o) k = ChildAt n k) /\
  pscan_events (TickParallel_loop Tick 0 (children_ n) (entry_state n)
                                  (entered n ctx))
  = child_events ks outs.
Proof.
  intros Hlen o ks outs.
  destruct (TickParallel_by_loop Tick n ctx)
    as (_ & Hev & Hch & _ & _ & Hctx & _).
  assert (Hfst : fst (enter_if_fresh n ctx) = entered n ctx)
    by (rewrite enter_if_fresh_entered; reflexivity).
  cbn zeta in Hev, Hch, Hctx. rewrite Hfst in Hev, Hch, Hctx.
  fold o in Hev, Hch, Hctx.
  set (r := TickParallel_loop Tick 0 (children_ n) (entry_state n)
                              (entered n ctx)) in *.
  assert (Hks : map fst (child_ticks (pscan_events r)) = ks).
  { unfold r. rewrite par_loop_ticked_indices by exact Hlen.
    apply filter_ext. intros k. rewrite pending_entry_state, Nat.sub_0_r.
    unfold present, ChildAt.
    destruct (nth_error (children_ n) k) as [[c|]|]; reflexivity. }
  destruct (par_loop_threaded n (children_ n) 0 (entry_state n)
              (entered n ctx) eq_refl) as (H1 & H2 & H3 & _ & H5).
  fold r in H1, H2, H3, H5. rewrite Hks in H1, H2, H3, H5.
  fold outs in H1, H2, H3, H5.
  destruct (par_loop_events Tick (children_ n) 0 (entry_state n)
              (entered n ctx) Hlen) as (_ & _ & _ & _ & Un & _).
  fold r in Un.
  assert (Ht : child_ticks (out_events o) = child_ticks (pscan_events r)).
  { rewrite Hev, !child_ticks_app, child_ticks_enter_events,
      child_ticks_exit_events, app_nil_r. reflexivity. }
  split; [rewrite Ht; exact Hks|].
  split; [exact H1|].
  split; [rewrite Ht, H2; apply child_ticks_child_events|].
  split; [rewrite Hev, H2; reflexivity|].
  split.
  { rewrite Hctx, exit_if_finished_exited, H3. reflexivity. }
  split.
  { intros j k oj Hk Ho. unfold ChildAt. rewrite Hch.
    rewrite <- (Nat.sub_0_r k). rewrite (H5 j k oj Hk Ho). reflexivity. }
  split; [|exact H2].
  intros k Hk. unfold ChildAt. rewrite Hch, (Un k); [reflexivity|].
  intros s sub Hin. cbn [Nat.add] in Hin. rewrite H2 in Hin.
  apply Hk. eapply child_events_index. exact Hin.
Qed.


(** ** Parallel *)

Lemma bool_iff_false (b : bool) (P : Prop) :
  (b = true <-> P) -> (b = false <-> ~ P).
Proof. destruct b; intros [H1 H2]; split; intros H; auto; try congruence.
  - exfalso. apply H. auto.
  - intros HP. apply H2 in HP. discriminate.
Qed.

Lemma and_snoc3 (A B C N : Prop) : N -> A /\ B /\ C -> A /\ B /\ C /\ N.
Proof. tauto. Qed.

Lemma and_snoc4 (A B C D N : Prop) :
  N -> A /\ B /\ C /\ D -> A /\ B /\ C /\ D /\ N.
Proof. tauto. Qed.

(** What the real ticks of the children make of the completion bitmaps. *)
Lemma Parallel_bits_of_ticks n ctx :
  (children_count_ n <= kMaxParallelChildren)%nat ->
  (status_ n = kRunning ->
   bits_ok (child_done_bits_ n) (child_success_bits_ n)) ->
  let o := TickParallel Tick n ctx in
  let n' := out_node o in
  let ks := filter (fun k => pending n k && present n k)
                   (seq 0 (children_count_ n)) in
  let outs := tick_in_turn n (entered n ctx) ks in
  List.length outs = List.length ks /\
  out_events o
  = enter_events n ++ child_events ks outs ++ exit_events n (out_status o) /\
  (forall j k oj,
      nth_error ks j = Some k -> nth_error outs j = Some oj ->
      (out_status oj = kRunning -> child_done n' k = false) /\
      (out_status oj = kSuccess -> child_succeeded n' k = true) /\
      (out_status oj <> kRunning -> out_status oj <> kSuccess ->
       child_failed n' k = true)) /\
  (forall k, (k < children_count_ n)%nat -> pending n k = false ->
             child_done n' k = true /\
             child_succeeded n' k = child_succeeded n k) /\
  (forall k, (k < children_count_ n)%nat -> pending n k = true ->
             ChildAt n k = None -> child_failed n' k = true).
Proof.
  intros Hlen Hok o n' ks outs.
  destruct (Parallel_threaded n ctx Hlen) as (_ & L & _ & E & _ & _ & _ & Hpe).
  fold o ks outs in L, E, Hpe.
  destruct (TickParallel_by_loop Tick n ctx)
    as (_ & _ & _ & Hdn & Hsc & _).
  assert (Hfst : fst (enter_if_fresh n ctx) = entered n ctx)
    by (rewrite enter_if_fresh_entered; reflexivity).
  cbn zeta in Hdn, Hsc. rewrite Hfst in Hdn, Hsc. fold o n' in Hdn, Hsc.
  destruct (par_loop_events Tick (children_ n) 0 (entry_state n)
              (entered n ctx) Hlen) as (_ & E2 & _ & _ & _ & E6).
  destruct (par_loop_bits Tick (children_ n) 0 (entry_state n)
              (entered n ctx) Hlen) as (_ & Mo & _).
  pose proof (entry_state_ok n Hok) as Hok0.
  set (r := TickParallel_loop Tick 0 (children_ n) (entry_state n)
                              (entered n ctx)) in *.
  cbn zeta in E2, E6, Mo.
  unfold child_done, child_succeeded, child_failed, succeeded_at, failed_at.
  rewrite Hdn, Hsc.
  split; [exact L|]. split; [exact E|].
  split; [|split].
  - intros j k oj Hk Ho.
    pose proof (In_child_events ks outs j k oj Hk Ho) as Hin.
    rewrite <- Hpe in Hin. unfold child_event in Hin.
    destruct (E2 k _ _ Hin) as (_ & Hd0 & _ & Hd & Hs & Hns).
    assert (Hs0 : bit_at (par_success (entry_state n)) k = false).
    { destruct (bit_at (par_success (entry_state n)) k) eqn:Es; auto.
      apply Hok0 in Es. congruence. }
    split; [intros Hr; rewrite Hd, Hr; reflexivity|].
    split.
    + intros Hr. rewrite Hd, (Hs Hr), Hr. reflexivity.
    + intros Hnr Hnsucc. rewrite Hd, (Hns Hnsucc), Hs0.
      apply Status_eqb_neq in Hnr. rewrite Hnr. reflexivity.
  - intros k Hk Hp.
    assert (Hrun : status_ n = kRunning /\
                   bit_at (child_done_bits_ n) k = true).
    { unfold pending in Hp. destruct (status_ n); try discriminate.
      split; [reflexivity|]. apply negb_false_iff. exact Hp. }
    destruct Hrun as (Hrun & Hd).
    assert (Hst : entry_state n
                  = mkParState (child_done_bits_ n) (child_success_bits_ n)
                               0%nat 0%nat 0%nat)
      by (unfold entry_state; rewrite Hrun; reflexivity).
    destruct (Mo k) as (Hd' & Hs'); [rewrite Hst; exact Hd|].
    rewrite Hd', Hs', Hst, Hd. cbn [par_success]. auto.
  - intros k Hk Hp Hnull.
    assert (Hn : nth_error (children_ n) k = Some None)
      by (apply ChildAt_null_iff; auto).
    destruct (E6 k Hn) as (Hd' & Hs'). cbn [Nat.add] in Hd', Hs'.
    assert (Hd0 : bit_at (par_done (entry_state n)) k = false).
    { rewrite <- pending_entry_state in Hp. apply negb_true_iff. exact Hp. }
    assert (Hs0 : bit_at (par_success (entry_state n)) k = false).
    { destruct (bit_at (par_success (entry_state n)) k) eqn:Es; auto.
      apply Hok0 in Es. congruence. }
    rewrite Hd', Hs', Hs0. reflexivity.
Qed.

(** C6.  After a tick of a Parallel node with at most 32 children (the
    state of a Running node being one that earlier ticks can leave), the
    result is read off the completion bitmaps: under RequireAll it is Failure
    when some child is done without success, Running when none is and some
    child is not done, and Success exactly when every child is done and none
    failed; under RequireOne it is Success when some child is done with
    success, Running when none is and some child is not done, and Failure
    exactly when every child is done and none succeeded.  A child is not done
    exactly when its tick of this cycle returned Running.  The bitmaps are
    those of the real ticks: the pending non-null children are ticked in
    turn on the context that on-enter leaves, and a child whose [Tick]
    returns Success is done with success, one whose [Tick] returns Failure
    or Error is done without success, one whose [Tick] returns Running is
    not done; a child done before stays as it was, and a pending null slot
    is done without success. *)
Theorem Parallel_policy_contract n ctx :
  type_ n = kParallel ->
  (children_count_ n <= kMaxParallelChildren)%nat ->
  (status_ n = kRunning ->
   bits_ok (child_done_bits_ n) (child_success_bits_ n)) ->
  let o := Tick n ctx in
  let n' := out_node o in
  bits_ok (child_done_bits_ n') (child_success_bits_ n') /\
  (forall i, (i < children_count_ n)%nat ->
     (child_done n' i = false <->
      exists sub, In (EvChild i kRunning sub) (out_events o))) /\
  (success_policy_ n = kRequireAll ->
   ((exists i, (i < children_count_ n)%nat /\ child_failed n' i = true) ->
    out_status o = kFailure) /\
   (~ (exists i, (i < children_count_ n)%nat /\ child_failed n' i = true) ->
    (exists i, (i < children_count_ n)%nat /\ child_done n' i = false) ->
    out_status o = kRunning) /\
   (out_status o = kSuccess <->
    (forall i, (i < children_count_ n)%nat -> child_done n' i = true) /\
    ~ (exists i, (i < children_count_ n)%nat /\ child_failed n' i = true))) /\
  (success_policy_ n = kRequireOne ->
   ((exists i, (i < children_count_ n)%nat /\ child_succeeded n' i = true) ->
    out_status o = kSuccess) /\
   (~ (exists i, (i < children_count_ n)%nat /\ child_succeeded n' i = true) ->
    (exists i, (i < children_count_ n)%nat /\ child_done n' i = false) ->
    out_status o = kRunning) /\
   (out_status o = kFailure <->
    (forall i, (i < children_count_ n)%nat -> child_done n' i = true) /\
    ~ (exists i, (i < children_count_ n)%nat /\
                 child_succeeded n' i = true))) /\
  (let ks := filter (fun k => pending n k && present n k)
                    (seq 0 (children_count_ n)) in
   let outs := tick_in_turn n (entered n ctx) ks in
   List.length outs = List.length ks /\
   out_events o
   = enter_events n ++ child_events ks outs ++ exit_events n (out_status o) /\
   (forall j k oj,
       nth_error ks j = Some k -> nth_error outs j = Some oj ->
       (out_status oj = kRunning -> child_done n' k = false) /\
       (out_status oj = kSuccess -> child_succeeded n' k = true) /\
       (out_status oj <> kRunning -> out_status oj <> kSuccess ->
        child_failed n' k = true)) /\
   (forall k, (k < children_count_ n)%nat -> pending n k = false ->
              child_done n' k = true /\
              child_succeeded n' k = child_succeeded n k) /\
   (forall k, (k < children_count_ n)%nat -> pending n k = true ->
              ChildAt n k = None -> child_failed n' k = true)).
Proof.
  intros Hty Hlen Hok o n'. subst o n'. rewrite Tick_unfold, Hty.
  apply and_snoc4; [exact (Parallel_bits_of_ticks n ctx Hlen Hok)|].
  destruct (TickParallel_by_loop Tick n ctx)
    as (Hst & Hev & _ & Hdn & Hsc & _).
  destruct (par_loop_policy_tests Tick n (fst (enter_if_fresh n ctx)) Hlen Hok)
    as (Tr & Ts & Tf).
  pose proof (bool_iff_false _ _ Tr) as Tr'.
  pose proof (bool_iff_false _ _ Ts) as Ts'.
  pose proof (bool_iff_false _ _ Tf) as Tf'.
  destruct (par_loop_events Tick (children_ n) 0 (entry_state n)
                            (fst (enter_if_fresh n ctx)) Hlen)
    as (_ & E2 & E3 & _).
  pose proof (par_loop_bits_ok Tick (children_ n) 0 (entry_state n)
                (fst (enter_if_fresh n ctx)) Hlen (entry_state_ok n Hok))
    as Hok'.
  cbn zeta in *.
  unfold child_done, child_failed, child_succeeded.
  rewrite Hdn, Hsc, Hst.
  set (r := TickParallel_loop Tick 0 (children_ n) (entry_state n)
                              (fst (enter_if_fresh n ctx))) in *.
  split; [exact Hok'|].
  split.
  { intros i Hi. split.
    - intros Hd. destruct (E3 i) as (sub & Hin);
        [unfold children_count_ in Hi; lia|exact Hd|].
      exists sub. rewrite Hev. apply in_or_app. right.
      apply in_or_app. left. exact Hin.
    - intros (sub & Hin). rewrite Hev in Hin.
      apply in_app_or in Hin. destruct Hin as [Hin|Hin].
      { exfalso. exact (not_in_enter_events _ _ _ _ Hin). }
      apply in_app_or in Hin. destruct Hin as [Hin|Hin].
      + destruct (E2 i kRunning sub Hin) as (_ & _ & _ & Hd & _). exact Hd.
      + exfalso. exact (not_in_exit_events _ _ _ _ _ Hin). }
  unfold evaluate_policy. split; intros Hp; rewrite Hp.
  - split; [intros H; apply Tf in H; rewrite H; reflexivity|].
    split.
    + intros Hnf Hr. apply Tf' in Hnf. apply Tr in Hr.
      rewrite Hnf, Hr. reflexivity.
    + split.
      * destruct (0 <? failure_count (pscan_state r))%nat eqn:Ef;
          [discriminate|].
        destruct (0 <? running_count (pscan_state r))%nat eqn:Er;
          [discriminate|]. intros _. split; [|apply Tf'; reflexivity].
        intros i Hi.
        destruct (bit_at (par_done (pscan_state r)) i) eqn:Hd; auto.
        exfalso. apply (proj1 Tr' eq_refl). eauto.
      * intros (Hall & Hnf). apply Tf' in Hnf. rewrite Hnf.
        assert (Hnr : (0 <? running_count (pscan_state r))%nat = false).
        { apply Tr'. intros (i & Hi & Hd). rewrite (Hall i Hi) in Hd.
          discriminate. }
        rewrite Hnr. reflexivity.
  - split; [intros H; apply Ts in H; rewrite H; reflexivity|].
    split.
    + intros Hns Hr. apply Ts' in Hns. apply Tr in Hr.
      rewrite Hns, Hr. reflexivity.
    + split.
      * destruct (0 <? success_count (pscan_state r))%nat eqn:Es;
          [discriminate|].
        destruct (0 <? running_count (pscan_state r))%nat eqn:Er;
          [discriminate|]. intros _. split; [|apply Ts'; reflexivity].
        intros i Hi.
        destruct (bit_at (par_done (pscan_state r)) i) eqn:Hd; auto.
        exfalso. apply (proj1 Tr' eq_refl). eauto.
      * intros (Hall & Hns). apply Ts' in Hns. rewrite Hns.
        assert (Hnr : (0 <? running_count (pscan_state r))%nat = false).
        { apply Tr'. intros (i & Hi & Hd). rewrite (Hall i Hi) in Hd.
          discriminate. }
        rewrite Hnr. reflexivity.
Qed.

Lemma entry_state_running n :
  status_ n = kRunning ->
  entry_state n
  = mkParState (child_done_bits_ n) (child_success_bits_ n) 0%nat 0%nat 0%nat.
Proof. unfold entry_state. intros ->. reflexivity. Qed.





(** ** Leaf and Inverter *)

Lemma TickLeaf_bound n ctx f :
  tick_ n = Some f ->
  let o := TickLeaf n ctx in
  out_events o = enter_events n ++ [EvTickFn] ++ exit_events n (out_status o).
Proof.
  intros Hf. unfold TickLeaf, enter_if_fresh, exit_if_finished, enter_events,
    exit_events, CallEnter, CallExit. rewrite Hf.
  destruct (status_ n), (on_enter_ n); cbn;
    match goal with |- context [f ?c] => destruct (f c) as [r c'] end;
    destruct r; cbn; destruct (on_exit_ n); reflexivity.
Qed.

Lemma TickLeaf_unbound n ctx :
  tick_ n = None ->
  out_status (TickLeaf n ctx) = kError /\ out_events (TickLeaf n ctx) = [].
Proof. intros Hf. unfold TickLeaf. rewrite Hf. auto. Qed.

Lemma TickInverter_one_child (t : Node Context -> Context -> Outcome Context)
      n ctx c :
  children_ n = [Some c] ->
  let o := TickInverter t n ctx in
  exists r sub,
    out_events o = enter_events n ++ [EvChild 0 r sub]
                                ++ exit_events n (out_status o).
Proof.
  intros Hc. unfold TickInverter, enter_if_fresh, exit_if_finished,
    enter_events, exit_events, CallEnter, CallExit. rewrite Hc.
  destruct (status_ n), (on_enter_ n); cbn;
    match goal with |- context [t c ?x] => destruct (out_status (t c x)) end;
    cbn; destruct (on_exit_ n); cbn; eauto.
Qed.

Lemma TickInverter_malformed (t : Node Context -> Context -> Outcome Context)
      n ctx :
  (forall c, children_ n <> [Some c]) ->
  out_status (TickInverter t n ctx) = kError /\
  out_events (TickInverter t n ctx) = [].
Proof.
  intros Hc. unfold TickInverter.
  destruct (children_ n) as [|[c|] [|? ?]]; auto.
  destruct (Hc c). reflexivity.
Qed.

Lemma evaluate_policy_not_error (p : ParallelPolicy) (st : ParState) :
  evaluate_policy p st <> kError.
Proof.
  unfold evaluate_policy.
  destruct p; repeat break_match; discriminate.
Qed.

(** ** The lifecycle callbacks *)

(** The log of one tick: on-enter, the work, on-exit; or nothing at all when
    a structural guard stops the tick. *)
Lemma Tick_lifecycle_shape n ctx :
  let o := Tick n ctx in
  (passes_guards n = true ->
   exists work,
     out_events o = enter_events n ++ work ++ exit_events n (out_status o) /\
     Forall (fun e => is_lifecycle e = false) work) /\
  (passes_guards n = false -> out_status o = kError /\ out_events o = []).
Proof.
  intros o. subst o. rewrite Tick_unfold. unfold passes_guards.
  destruct (type_ n) eqn:Hty.
  - destruct (tick_ n) as [f|] eqn:Hf; (split; [|intros; try discriminate]).
    + intros _. exists [EvTickFn]. split; [exact (TickLeaf_bound n ctx f Hf)|].
      repeat constructor.
    + discriminate.
    + apply TickLeaf_unbound. exact Hf.
  - destruct (tick_ n) as [f|] eqn:Hf; (split; [|intros; try discriminate]).
    + intros _. exists [EvTickFn]. split; [exact (TickLeaf_bound n ctx f Hf)|].
      repeat constructor.
    + discriminate.
    + apply TickLeaf_unbound. exact Hf.
  - split; [intros _|discriminate].
    destruct (TickSequence_by_scan Tick n ctx) as (Hev & Hch & Hex).
    destruct (scan_node_contract Tick kSuccess kSuccess n _ _ Hev Hch Hex)
      as (Hw & _). exact Hw.
  - split; [intros _|discriminate].
    destruct (TickSelector_by_scan Tick n ctx) as (Hev & Hch & Hex).
    destruct (scan_node_contract Tick kFailure kFailure n _ _ Hev Hch Hex)
      as (Hw & _). exact Hw.
  - split; [intros _|discriminate].
    destruct (TickParallel_by_loop Tick n ctx) as (_ & Hev & _).
    eexists. split; [exact Hev|].
    apply par_loop_events_not_lifecycle.
  - destruct (children_ n) as [|[c|] [|? ?]] eqn:Hc;
      (split; [intros Hg; try discriminate Hg|intros Hg; try discriminate Hg]);
      try (apply TickInverter_malformed; rewrite Hc; intros ?; discriminate).
    destruct (TickInverter_one_child Tick n ctx c Hc) as (r & sub & Hev).
    exists [EvChild 0 r sub]. split; [exact Hev|]. repeat constructor.
  - split; [discriminate|]. auto.
Qed.

(** ** The lifecycle callbacks over a Running streak *)

(** [Tick] changes no configuration field of the node it is called on. *)
Lemma Tick_keeps_node_config n ctx :
  let n' := out_node (Tick n ctx) in
  type_ n' = type_ n /\ tick_ n' = tick_ n /\
  on_enter_ n' = on_enter_ n /\ on_exit_ n' = on_exit_ n /\
  success_policy_ n' = success_policy_ n /\ name_ n' = name_ n /\
  passes_guards n' = passes_guards n.
Proof.
  cbn zeta. rewrite Tick_unfold. unfold passes_guards.
  destruct (type_ n) eqn:Hty.
  - unfold TickLeaf. destruct (tick_ n) eqn:Hf; break_pairs; cbn;
      rewrite Hty, Hf; repeat split; reflexivity.
  - unfold TickLeaf. destruct (tick_ n) eqn:Hf; break_pairs; cbn;
      rewrite Hty, Hf; repeat split; reflexivity.
  - unfold TickSequence. break_pairs.
    destruct (scan_exit _) as [k|k [ | | | ]|]; break_pairs;
      destruct (status_ n); cbn; rewrite Hty; repeat split; reflexivity.
  - unfold TickSelector. break_pairs.
    destruct (scan_exit _) as [k|k [ | | | ]|]; break_pairs;
      destruct (status_ n); cbn; rewrite Hty; repeat split; reflexivity.
  - unfold TickParallel. break_pairs.
    destruct (status_ n); cbn; rewrite Hty; repeat split; reflexivity.
  - unfold TickInverter.
    destruct (children_ n) as [|[c|] [|? ?]] eqn:Hc; break_pairs; cbn;
      rewrite Hty, ?Hc; repeat split; reflexivity.
  - cbn. rewrite Hty. repeat split; reflexivity.
Qed.

Lemma filter_lifecycle_enter n :
  filter is_lifecycle (enter_events n) = enter_events n.
Proof. unfold enter_events. destruct (status_ n), (on_enter_ n); reflexivity. Qed.

Lemma filter_lifecycle_exit n r :
  filter is_lifecycle (exit_events n r) = exit_events n r.
Proof. unfold exit_events. destruct r, (on_exit_ n); reflexivity. Qed.

Lemma filter_lifecycle_work (work : list Event) :
  Forall (fun e => is_lifecycle e = false) work ->
  filter is_lifecycle work = [].
Proof.
  induction 1 as [|e work He _ IH]; cbn; auto. rewrite He. exact IH.
Qed.

Lemma Tick_lifecycle_events n ctx :
  passes_guards n = true ->
  filter is_lifecycle (out_events (Tick n ctx))
  = enter_events n ++ exit_events n (out_status (Tick n ctx)).
Proof.
  intros Hg. destruct (Tick_lifecycle_shape n ctx) as (Hw & _).
  cbn zeta in Hw. destruct (Hw Hg) as (work & Hev & Hwork).
  rewrite Hev, !filter_app, filter_lifecycle_enter, filter_lifecycle_exit,
    (filter_lifecycle_work work Hwork). reflexivity.
Qed.

(** Over a streak, the lifecycle calls are the on-enter of the first tick
    and the on-exit of the last one. *)
Lemma lifecycle_over_streak ctxs : forall n,
  passes_guards n = true ->
  ctxs <> [] ->
  running_until_last (run_cycles n ctxs) ->
  filter is_lifecycle (List.concat (map out_events (run_cycles n ctxs)))
  = enter_events n
    ++ exit_events n (last (map out_status (run_cycles n ctxs)) kRunning).
Proof.
  induction ctxs as [|ctx rest IH]; intros n Hg Hne Hstreak; [congruence|].
  cbn [run_cycles map List.concat]. rewrite filter_app, Tick_lifecycle_events by auto.
  destruct rest as [|ctx' rest'].
  - cbn. rewrite !app_nil_r. reflexivity.
  - cbn [run_cycles running_until_last] in Hstreak.
    destruct Hstreak as (Hr & Hstreak).
    destruct (Tick_keeps_node_config n ctx) as (_ & _ & _ & Hx & _ & _ & Hg').
    cbn zeta in *.
    rewrite IH; [|congruence|discriminate|exact Hstreak].
    rewrite Hr. cbn [exit_events app].
    unfold enter_events at 2. rewrite Tick_stored, Hr. cbn [app].
    rewrite app_nil_r. unfold exit_events. rewrite Hx.
    cbn [run_cycles map]. reflexivity.
Qed.

(** ** The lifecycle callbacks and the context *)

Lemma TickLeaf_threaded n ctx f :
  tick_ n = Some f ->
  let o := TickLeaf n ctx in
  out_status o = fst (f (entered n ctx)) /\
  out_events o = enter_events n ++ [EvTickFn] ++ exit_events n (out_status o) /\
  out_ctx o = exited n (out_status o) (snd (f (entered n ctx))).
Proof.
  intros Hf. unfold TickLeaf. rewrite Hf, enter_if_fresh_entered.
  destruct (f (entered n ctx)) as [r ctx2].
  rewrite exit_if_finished_exited. cbn. auto.
Qed.

Lemma TickInverter_threaded n ctx c :
  children_ n = [Some c] ->
  let o := TickInverter Tick n ctx in
  let oc := Tick c (entered n ctx) in
  out_events o
  = enter_events n ++ [child_event 0 oc] ++ exit_events n (out_status o) /\
  out_ctx o = exited n (out_status o) (out_ctx oc).
Proof.
  intros Hc. unfold TickInverter. rewrite Hc, enter_if_fresh_entered.
  rewrite exit_if_finished_exited. cbn. auto.
Qed.

(** A tick that no guard stops: what the callbacks make of the context.  A
    leaf runs its tick callback on the context that on-enter leaves; a
    composite ticks children, the first on that context and each next one on
    the context the one before left; on-exit gets the context this work
    leaves. *)
Lemma Tick_work_threaded n ctx :
  passes_guards n = true ->
  let o := Tick n ctx in
  (forall f, tick_ n = Some f -> IsLeafType (type_ n) = true ->
             out_status o = fst (f (entered n ctx)) /\
             out_events o
             = enter_events n ++ [EvTickFn] ++ exit_events n (out_status o) /\
             out_ctx o = exited n (out_status o) (snd (f (entered n ctx)))) /\
  (IsLeafType (type_ n) = false ->
   let ks := map fst (child_ticks (out_events o)) in
   let outs := tick_in_turn n (entered n ctx) ks in
   List.length outs = List.length ks /\
   out_events o
   = enter_events n ++ child_events ks outs ++ exit_events n (out_status o) /\
   out_ctx o = exited n (out_status o) (left_ctx (entered n ctx) outs)).
Proof.
  intros Hg o. subst o. rewrite Tick_unfold.
  assert (Hfst : fst (enter_if_fresh n ctx) = entered n ctx)
    by (rewrite enter_if_fresh_entered; reflexivity).
  unfold passes_guards in Hg.
  destruct (type_ n) eqn:Hty; cbn [IsLeafType];
    (split; [intros f Hf Hleaf; try discriminate Hleaf
            |intros Hleaf; try discriminate Hleaf]);
    try (apply TickLeaf_threaded; exact Hf).
  - destruct (TickSequence_by_scan Tick n ctx) as (Hev & Hch & Hex).
    pose proof (TickSequence_exited Tick n ctx) as Hctx.
    cbn zeta in Hev, Hch, Hex, Hctx. rewrite Hfst in Hev, Hch, Hex.
    destruct (scan_node_threaded kSuccess kSuccess n ctx _ Hev Hch Hctx)
      as (T1 & _ & T3 & T4 & _).
    { destruct (scan_exit _) as [k|k r|]; tauto. }
    cbn zeta. auto.
  - destruct (TickSelector_by_scan Tick n ctx) as (Hev & Hch & Hex).
    pose proof (TickSelector_exited Tick n ctx) as Hctx.
    cbn zeta in Hev, Hch, Hex, Hctx. rewrite Hfst in Hev, Hch, Hex.
    destruct (scan_node_threaded kFailure kFailure n ctx _ Hev Hch Hctx)
      as (T1 & _ & T3 & T4 & _).
    { destruct (scan_exit _) as [k|k r|]; tauto. }
    cbn zeta. auto.
  - destruct (TickParallel_by_loop Tick n ctx)
      as (_ & Hev & _ & _ & _ & Hctx & _).
    cbn zeta in Hev, Hctx. rewrite Hfst in Hev, Hctx.
    destruct (par_loop_threaded n (children_ n) 0 (entry_state n)
                (entered n ctx) eq_refl) as (H1 & H2 & H3 & _).
    cbn zeta in H1, H2, H3. cbn zeta.
    assert (Ht : child_ticks (out_events (TickParallel Tick n ctx))
                 = child_ticks
                     (pscan_events
                        (TickParallel_loop Tick 0 (children_ n)
                           (entry_state n) (entered n ctx)))).
    { rewrite Hev, !child_ticks_app, child_ticks_enter_events,
        child_ticks_exit_events, app_nil_r. reflexivity. }
    rewrite Ht. split; [exact H1|]. split.
    + rewrite Hev at 1. rewrite H2 at 1. reflexivity.
    + rewrite Hctx, exit_if_finished_exited, H3. reflexivity.
  - destruct (children_ n) as [|[c|] [|? ?]] eqn:Hc; try discriminate Hg.
    destruct (TickInverter_threaded n ctx c Hc) as (Hev & Hctx).
    cbn zeta in Hev, Hctx. cbn zeta.
    assert (Ht : map fst (child_ticks (out_events (TickInverter Tick n ctx)))
                 = [0%nat]).
    { rewrite Hev, !child_ticks_app, child_ticks_enter_events,
        child_ticks_exit_events. reflexivity. }
    rewrite Ht. cbn [tick_in_turn]. unfold ChildAt. rewrite Hc.
    cbn [nth_error]. cbn zeta.
    split; [reflexivity|]. split; [exact Hev|exact Hctx].
  - discriminate Hg.
Qed.

(** A tick that a guard stops hands the context back as it got it. *)
Lemma Tick_stopped_context n ctx :
  passes_guards n = false -> out_ctx (Tick n ctx) = ctx.
Proof.
  intros Hg. rewrite Tick_unfold. unfold passes_guards in Hg.
  destruct (type_ n); try discriminate Hg; try reflexivity.
  - unfold TickLeaf. destruct (tick_ n); [discriminate|reflexivity].
  - unfold TickLeaf. destruct (tick_ n); [discriminate|reflexivity].
  - unfold TickInverter.
    destruct (children_ n) as [|[c|] [|? ?]]; try discriminate Hg;
      reflexivity.
Qed.

(** Within a Running streak, a tick that another one follows applied no
    on-exit, and the one that follows applies no on-enter. *)
Lemma streak_contexts ctxs :
  forall n,
    running_until_last (run_cycles n ctxs) ->
    forall i o c,
      nth_error (run_cycles n ctxs) i = Some o ->
      nth_error ctxs (S i) = Some c ->
      out_status o = kRunning /\
      entered (out_node o) c = c /\
      forall w, exited (out_node o) (out_status o) w = w.
Proof.
  induction ctxs as [|ctx rest IH]; intros n Hs i o c Hi Hc;
    [destruct i; discriminate|].
  cbn [nth_error] in Hc.
  destruct rest as [|c1 rest']; [destruct i; discriminate|].
  cbn [run_cycles] in Hs, Hi. cbn [run_cycles] in IH.
  cbn [running_until_last] in Hs. destruct Hs as (Hrun & Hs).
  destruct i as [|i]; cbn [nth_error] in Hi.
  - injection Hi as <-. split; [exact Hrun|].
    unfold entered, exited. rewrite Tick_stored, Hrun. auto.
  - apply (IH (out_node (Tick n ctx)) Hs i o c Hi Hc).
Qed.

(** C3, amended.  On every tick that gets past the structural guards (a leaf
    with its tick callback bound, an Inverter with exactly one non-null
    child, any Sequence, Selector or Parallel), the bound on-enter callback
    is invoked first exactly when the status before the tick is not Running,
    the bound on-exit callback is invoked last exactly when the result is
    terminal, and nothing in between is a lifecycle call; so over a Running
    streak the lifecycle calls are the on-enter of the first tick and the
    on-exit of the tick that resolves the streak.  A tick that a guard stops
    (unbound leaf callback, malformed Inverter, unknown type) returns Error
    and invokes no callback at all.  The calls are real: the work (the tick
    callback of a leaf, the ticks of the children of a composite, taken in
    turn) runs on what on-enter makes of the caller's context when the node
    is not Running and on the caller's context otherwise; the context
    handed back is what on-exit makes of the context the work leaves when
    the result is terminal, and that context otherwise; a tick that a guard
    stops hands the context back untouched; within a Running streak a tick
    that another one follows applies no on-exit and the one that follows
    applies no on-enter. *)
Theorem Lifecycle_contract n ctx :
  let o := Tick n ctx in
  (passes_guards n = true ->
   exists work,
     out_events o = enter_events n ++ work ++ exit_events n (out_status o) /\
     Forall (fun e => is_lifecycle e = false) work) /\
  (passes_guards n = true ->
   forall ctxs,
     ctxs <> [] ->
     running_until_last (run_cycles n ctxs) ->
     filter is_lifecycle (List.concat (map out_events (run_cycles n ctxs)))
     = enter_events n
       ++ exit_events n (last (map out_status (run_cycles n ctxs)) kRunning)) /\
  (passes_guards n = false -> out_status o = kError /\ out_events o = []) /\
  (passes_guards n = true ->
   (forall f, tick_ n = Some f -> IsLeafType (type_ n) = true ->
              out_status o = fst (f (entered n ctx)) /\
              out_events o
              = enter_events n ++ [EvTickFn] ++ exit_events n (out_status o) /\
              out_ctx o = exited n (out_status o) (snd (f (entered n ctx)))) /\
   (IsLeafType (type_ n) = false ->
    let ks := map fst (child_ticks (out_events o)) in
    let outs := tick_in_turn n (entered n ctx) ks in
    List.length outs = List.length ks /\
    out_events o
    = enter_events n ++ child_events ks outs
                     ++ exit_events n (out_status o) /\
    out_ctx o = exited n (out_status o) (left_ctx (entered n ctx) outs))) /\
  (passes_guards n = false -> out_ctx o = ctx) /\
  (forall ctxs,
      running_until_last (run_cycles n ctxs) ->
      forall i o' c,
        nth_error (run_cycles n ctxs) i = Some o' ->
        nth_error ctxs (S i) = Some c ->
        out_status o' = kRunning /\
        entered (out_node o') c = c /\
        forall w, exited (out_node o') (out_status o') w = w).
Proof.
  destruct (Tick_lifecycle_shape n ctx) as (Hshape & Hstop).
  split; [exact Hshape|].
  split; [intros Hg ctxs Hne Hstreak; apply lifecycle_over_streak; assumption|].
  split; [exact Hstop|].
  split; [intros Hg; exact (Tick_work_threaded n ctx Hg)|].
  split; [apply Tick_stopped_context|].
  intros ctxs. apply streak_contexts.
Qed.

(** ** Error and structural faults *)






End Properties.

(** * The properties on the small trees *)

(** [demo_parallel_running] is the state that one tick of [demo_parallel]
    leaves. *)
Lemma demo_parallel_running_reached :
  out_node (Tick demo_parallel 0%nat) = demo_parallel_running.
Proof. reflexivity. Qed.

Lemma demo_parallel_running_bits_ok :
  status_ demo_parallel_running = kRunning ->
  bits_ok (child_done_bits_ demo_parallel_running)
          (child_success_bits_ demo_parallel_running).
Proof. intros _ k Hk. exact Hk. Defined.

(** C4 on a Sequence whose second child is still running. *)
Lemma Sequence_tick_contract_witness :
  type_ demo_sequence = kSequence /\
  out_status (Tick demo_sequence 0%nat) = kRunning /\
  current_child_ (out_node (Tick demo_sequence 0%nat)) = 1%nat.
Proof.
  split; [reflexivity|].
  destruct (Sequence_tick_contract demo_sequence 0%nat eq_refl)
    as (_ & _ & _ & _ & Hrun & _).
  destruct (Hrun 1%nat) as (Hs & Hc & _).
  - vm_compute. right. left. reflexivity.
  - split; assumption.
Defined.

(** C5 on a Selector whose second child succeeds. *)
Lemma Selector_tick_contract_witness :
  type_ demo_selector = kSelector /\
  out_status (Tick demo_selector 0%nat) = kSuccess.
Proof.
  split; [reflexivity|].
  destruct (Selector_tick_contract demo_selector 0%nat eq_refl)
    as (_ & _ & _ & _ & Hsucc & _).
  destruct (Hsucc 1%nat) as (Hs & _).
  - vm_compute. right. left. reflexivity.
  - exact Hs.
Defined.

(** C6 on a Running Parallel node with one child done and one running. *)
Lemma Parallel_policy_contract_witness :
  type_ demo_parallel_running = kParallel /\
  (children_count_ demo_parallel_running <= kMaxParallelChildren)%nat /\
  (status_ demo_parallel_running = kRunning ->
   bits_ok (child_done_bits_ demo_parallel_running)
           (child_success_bits_ demo_parallel_running)) /\
  out_status (Tick demo_parallel_running 3%nat) = kRunning.
Proof.
  assert (Hlen : (children_count_ demo_parallel_running
                  <= kMaxParallelChildren)%nat) by (vm_compute; lia).
  split; [reflexivity|]. split; [exact Hlen|].
  split; [exact demo_parallel_running_bits_ok|].
  destruct (Parallel_policy_contract demo_parallel_running 3%nat eq_refl Hlen
              demo_parallel_running_bits_ok) as (_ & _ & Hall & _).
  destruct (Hall eq_refl) as (_ & Hrun & _). apply Hrun.
  - intros (i & Hi & Hf). vm_compute in Hi.
    destruct i as [|[|i]]; [vm_compute in Hf; discriminate
                           |vm_compute in Hf; discriminate|lia].
  - exists 1%nat. split; [vm_compute; lia|reflexivity].
Defined.






(** C3 on a Sequence: on-enter first, on-exit absent while Running. *)
Lemma Lifecycle_contract_witness :
  passes_guards demo_sequence = true /\
  filter is_lifecycle
         (List.concat (map out_events (run_cycles demo_sequence [0%nat])))
  = [EvEnter].
Proof.
  split; [reflexivity|].
  destruct (Lifecycle_contract demo_sequence 0%nat) as (_ & Hstreak & _).
  rewrite (Hstreak eq_refl [0%nat]).
  - reflexivity.
  - discriminate.
  - vm_compute. exact I.
Defined.

(** C3 as stated fails on a leaf without tick callback: the status before
    the tick is not Running and the result is the terminal Error, yet
    neither the bound on-enter nor the bound on-exit is invoked. *)
Lemma Unbound_leaf_lifecycle_counterexample :
  status_ demo_unbound_leaf <> kRunning /\
  on_enter_ demo_unbound_leaf <> None /\
  on_exit_ demo_unbound_leaf <> None /\
  out_status (Tick demo_unbound_leaf 0%nat) = kError /\
  out_events (Tick demo_unbound_leaf 0%nat) = [] /\
  out_ctx (Tick demo_unbound_leaf 0%nat) = 0%nat.
Proof.
  split; [vm_compute; discriminate|].
  split; [vm_compute; discriminate|].
  split; [vm_compute; discriminate|].
  repeat split; reflexivity.
Qed.

(** * Properties of whole trees and of the rest of the public surface *)

Section MoreProperties.

Context {Context : Type}.

Implicit Types (n child c : Node Context) (ctx : Context)
         (slots : list (option (Node Context))).

(** ** Where the slots and the logged statuses of a tick come from *)

Lemma slot_rel_same (R : Node Context -> Node Context -> Prop) slots :
  (forall c, R c c) -> Forall2 (slot_rel R) slots slots.
Proof.
  intros HR. induction slots as [|[c|] rest IH]; constructor; auto;
    constructor; auto.
Qed.

Section Provenance.

Variable tick_child : Node Context -> Context -> Outcome Context.

Lemma stepped_by_same c : stepped_by tick_child c c.
Proof. left. reflexivity. Qed.

Lemma scan_children_provenance (pass : Status) (start : nat) slots :
  forall i ctx,
    let s := scan_children tick_child pass start i slots ctx in
    Forall2 (slot_rel (stepped_by tick_child)) slots (scan_slots s) /\
    (forall k r sub,
        In (EvChild k r sub) (scan_events s) ->
        exists c ctx', nth_error slots (k - i) = Some (Some c) /\
                       (i <= k)%nat /\ r = out_status (tick_child c ctx')).
Proof.
  induction slots as [|slot rest IH]; intros i ctx; cbn [scan_children].
  - cbn. split; [constructor|intros ? ? ? []].
  - destruct (Nat.ltb_spec i start) as [Hlt|Hge].
    + destruct (IH (S i) ctx) as (Hs & He).
      cbn [scan_cons scan_slots scan_events app]. split.
      * constructor; [|exact Hs].
        destruct slot; constructor. apply stepped_by_same.
      * intros k r sub Hin. destruct (He k r sub Hin) as (c & ctx' & Hn & Hk & Hr).
        exists c, ctx'. replace (k - i)%nat with (S (k - S i)) by lia.
        repeat split; auto. lia.
    + destruct slot as [c|].
      * destruct (Status_eqb (out_status (tick_child c ctx)) pass).
        -- destruct (IH (S i) (out_ctx (tick_child c ctx))) as (Hs & He).
           cbn [scan_cons scan_slots scan_events app]. split.
           ++ constructor; [|exact Hs]. constructor. right. eauto.
           ++ intros k r sub [Hin|Hin].
              ** inversion Hin; subst. exists c, ctx.
                 replace (k - k)%nat with 0%nat by lia. auto.
              ** destruct (He k r sub Hin) as (c' & ctx' & Hn & Hk & Hr).
                 exists c', ctx'.
                 replace (k - i)%nat with (S (k - S i)) by lia.
                 repeat split; auto. lia.
        -- cbn. split.
           ++ constructor; [constructor; right; eauto|].
              apply slot_rel_same, stepped_by_same.
           ++ intros k r sub [Hin|[]]. inversion Hin; subst. exists c, ctx.
              replace (k - k)%nat with 0%nat by lia. auto.
      * cbn. split; [apply slot_rel_same, stepped_by_same|intros ? ? ? []].
Qed.

Lemma body_provenance i slot (st : ParState) ctx :
  let b := TickParallel_body tick_child i slot st ctx in
  slot_rel (stepped_by tick_child) slot (step_slot b) /\
  (forall k r sub,
      In (EvChild k r sub) (step_events b) ->
      exists c ctx', slot = Some c /\ k = i /\
                     r = out_status (tick_child c ctx')).
Proof.
  unfold TickParallel_body.
  destruct (bit_test (par_done st) (bit_mask i)).
  - destruct (bit_test (par_success st) (bit_mask i)); cbn;
      (split; [destruct slot; constructor; apply stepped_by_same
              |intros ? ? ? []]).
  - destruct slot as [c|]; cbn.
    + split; [constructor; right; eauto|].
      intros k r sub [Hin|[]]. inversion Hin; subst. eauto.
    + split; [constructor|intros ? ? ? []].
Qed.

Lemma par_loop_provenance slots : forall i (st : ParState) ctx,
  let r := TickParallel_loop tick_child i slots st ctx in
  Forall2 (slot_rel (stepped_by tick_child)) slots (pscan_slots r) /\
  (forall k s sub,
      In (EvChild k s sub) (pscan_events r) ->
      exists c ctx', nth_error slots (k - i) = Some (Some c) /\
                     (i <= k)%nat /\ s = out_status (tick_child c ctx')).
Proof.
  induction slots as [|slot rest IH]; intros i st ctx.
  - cbn. split; [constructor|intros ? ? ? []].
  - rewrite par_loop_cons. cbn zeta.
    destruct (body_provenance i slot st ctx) as (Bs & Be).
    set (b := TickParallel_body tick_child i slot st ctx) in *.
    destruct (IH (S i) (step_state b) (step_ctx b)) as (Hs & He).
    cbn [pscan_cons pscan_slots pscan_events]. split.
    + constructor; assumption.
    + intros k s sub Hin. apply in_app_or in Hin. destruct Hin as [Hin|Hin].
      * destruct (Be k s sub Hin) as (c & ctx' & -> & -> & Hr).
        exists c, ctx'. replace (i - i)%nat with 0%nat by lia. auto.
      * destruct (He k s sub Hin) as (c & ctx' & Hn & Hk & Hr).
        exists c, ctx'. replace (k - i)%nat with (S (k - S i)) by lia.
        repeat split; auto. lia.
Qed.

(** An Inverter over one child, read in full. *)
Lemma TickInverter_over_child n ctx c :
  children_ n = [Some c] ->
  let o := TickInverter tick_child n ctx in
  let oc := tick_child c (fst (enter_if_fresh n ctx)) in
  out_status o = inverted (out_status oc) /\
  out_events o
  = enter_events n ++ [EvChild 0 (out_status oc) (out_events oc)]
                   ++ exit_events n (out_status o) /\
  children_ (out_node o) = [Some (out_node oc)].
Proof.
  intros Hc. unfold TickInverter, enter_if_fresh, exit_if_finished,
    enter_events, exit_events, CallEnter, CallExit, inverted. rewrite Hc.
  destruct (status_ n), (on_enter_ n); cbn;
    match goal with
    | |- context [tick_child c ?x] => destruct (out_status (tick_child c x))
    end; cbn; destruct (on_exit_ n); cbn; repeat split; reflexivity.
Qed.

End Provenance.

Lemma TickLeaf_children n ctx :
  children_ (out_node (TickLeaf n ctx)) = children_ n.
Proof. unfold TickLeaf. destruct (tick_ n); break_pairs; reflexivity. Qed.

Lemma TickLeaf_no_child_event n ctx k r sub :
  ~ In (EvChild k r sub) (out_events (TickLeaf n ctx)).
Proof.
  destruct (tick_ n) as [f|] eqn:Hf.
  - rewrite (TickLeaf_bound n ctx f Hf). intros Hin.
    apply in_app_or in Hin. destruct Hin as [Hin|Hin];
      [exact (not_in_enter_events _ _ _ _ Hin)|].
    apply in_app_or in Hin. destruct Hin as [[Hin|[]]|Hin];
      [discriminate|exact (not_in_exit_events _ _ _ _ _ Hin)].
  - destruct (TickLeaf_unbound n ctx Hf) as (_ & ->). intros [].
Qed.

Lemma nth_error_ChildAt n k c :
  nth_error (children_ n) k = Some (Some c) -> ChildAt n k = Some c.
Proof. unfold ChildAt. intros ->. reflexivity. Qed.

(** After a tick, every slot holds the child it held or that child after a
    [Tick] of its own, and every status logged for a child is what a [Tick]
    of that child returned. *)
Lemma Tick_provenance n ctx :
  Forall2 (slot_rel ticked_from) (children_ n)
          (children_ (out_node (Tick n ctx))) /\
  (forall k r sub,
      In (EvChild k r sub) (out_events (Tick n ctx)) ->
      exists c ctx', ChildAt n k = Some c /\ r = out_status (Tick c ctx')).
Proof.
  unfold ticked_from. rewrite Tick_unfold.
  pose proof (stepped_by_same Tick) as Hsame.
  destruct (type_ n) eqn:Hty.
  - rewrite TickLeaf_children. split; [apply slot_rel_same, Hsame|].
    intros k r sub Hin. destruct (TickLeaf_no_child_event _ _ _ _ _ Hin).
  - rewrite TickLeaf_children. split; [apply slot_rel_same, Hsame|].
    intros k r sub Hin. destruct (TickLeaf_no_child_event _ _ _ _ _ Hin).
  - destruct (TickSequence_by_scan Tick n ctx) as (Hev & Hch & _).
    destruct (scan_children_provenance Tick kSuccess (entry_cursor n)
                (children_ n) 0 (fst (enter_if_fresh n ctx))) as (Hs & He).
    cbn zeta in *. rewrite Hch. split; [exact Hs|].
    intros k r sub Hin. rewrite Hev in Hin.
    apply in_app_or in Hin. destruct Hin as [Hin|Hin];
      [destruct (not_in_enter_events _ _ _ _ Hin)|].
    apply in_app_or in Hin. destruct Hin as [Hin|Hin];
      [|destruct (not_in_exit_events _ _ _ _ _ Hin)].
    destruct (He k r sub Hin) as (c & ctx' & Hn & _ & Hr).
    rewrite Nat.sub_0_r in Hn. exists c, ctx'.
    split; [apply nth_error_ChildAt; exact Hn|exact Hr].
  - destruct (TickSelector_by_scan Tick n ctx) as (Hev & Hch & _).
    destruct (scan_children_provenance Tick kFailure (entry_cursor n)
                (children_ n) 0 (fst (enter_if_fresh n ctx))) as (Hs & He).
    cbn zeta in *. rewrite Hch. split; [exact Hs|].
    intros k r sub Hin. rewrite Hev in Hin.
    apply in_app_or in Hin. destruct Hin as [Hin|Hin];
      [destruct (not_in_enter_events _ _ _ _ Hin)|].
    apply in_app_or in Hin. destruct Hin as [Hin|Hin];
      [|destruct (not_in_exit_events _ _ _ _ _ Hin)].
    destruct (He k r sub Hin) as (c & ctx' & Hn & _ & Hr).
    rewrite Nat.sub_0_r in Hn. exists c, ctx'.
    split; [apply nth_error_ChildAt; exact Hn|exact Hr].
  - destruct (TickParallel_by_loop Tick n ctx) as (_ & Hev & Hch & _).
    destruct (par_loop_provenance Tick (children_ n) 0 (entry_state n)
                (fst (enter_if_fresh n ctx))) as (Hs & He).
    cbn zeta in *. rewrite Hch. split; [exact Hs|].
    intros k r sub Hin. rewrite Hev in Hin.
    apply in_app_or in Hin. destruct Hin as [Hin|Hin];
      [destruct (not_in_enter_events _ _ _ _ Hin)|].
    apply in_app_or in Hin. destruct Hin as [Hin|Hin];
      [|destruct (not_in_exit_events _ _ _ _ _ Hin)].
    destruct (He k r sub Hin) as (c & ctx' & Hn & _ & Hr).
    rewrite Nat.sub_0_r in Hn. exists c, ctx'.
    split; [apply nth_error_ChildAt; exact Hn|exact Hr].
  - destruct (children_ n) as [|[c|] [|? ?]] eqn:Hc.
    2: { destruct (TickInverter_over_child Tick n ctx c Hc)
           as (_ & Hev & Hch).
         cbn zeta in *. rewrite Hch. split.
         - constructor; [|constructor]. constructor. right. eauto.
         - intros k r sub Hin. rewrite Hev in Hin.
           apply in_app_or in Hin. destruct Hin as [Hin|Hin];
             [destruct (not_in_enter_events _ _ _ _ Hin)|].
           apply in_app_or in Hin. destruct Hin as [[Hin|[]]|Hin];
             [|destruct (not_in_exit_events _ _ _ _ _ Hin)].
           inversion Hin; subst. exists c. eexists.
           split; [unfold ChildAt; rewrite Hc; reflexivity|reflexivity]. }
    all: unfold TickInverter; rewrite Hc; cbn [out_node out_events
           set_status children_]; rewrite Hc;
      (split; [apply slot_rel_same, Hsame|intros ? ? ? []]).
  - cbn. split; [apply slot_rel_same, Hsame|intros ? ? ? []].
Qed.

(** ** The configuration of the whole tree *)

Lemma same_config_refl n : same_config n n.
Proof.
  induction n as [n IH] using Node_tree_ind.
  constructor; try reflexivity.
  induction IH as [|[c|] rest Hc _ IHrest]; constructor; auto;
    constructor; assumption.
Qed.

Lemma Tick_same_config n : forall ctx, same_config n (out_node (Tick n ctx)).
Proof.
  induction n as [n IH] using Node_tree_ind. intros ctx.
  destruct (Tick_keeps_node_config n ctx) as (H1 & H2 & H3 & H4 & H5 & H6 & _).
  destruct (Tick_provenance n ctx) as (Hs & _). cbn zeta in *.
  constructor; try (symmetry; assumption).
  revert IH.
  induction Hs as [|a b l l' Hab _ IHl]; intros IH; constructor.
  - inversion IH as [|? ? Ha _]; subst.
    destruct Hab as [|a b [->|(ctx' & ->)]]; constructor.
    + apply same_config_refl.
    + apply Ha.
  - apply IHl. inversion IH; assumption.
Qed.

Lemma same_config_slots_length (a b : list (option (Node Context))) :
  Forall2 (slot_rel same_config) a b ->
  List.length a = List.length b /\ has_null_child a = has_null_child b.
Proof.
  induction 1 as [|x y l l' Hxy _ (IH1 & IH2)]; [auto|].
  cbn. split; [congruence|]. destruct Hxy; auto.
Qed.

Section Validated.

Variable kMaxChildren : nat.

Lemma same_config_Validate (a b : Node Context) :
  same_config a b -> Validate kMaxChildren a = Validate kMaxChildren b.
Proof.
  intros H. inversion H as [? ? Hty Htk _ _ _ _ Hch]; subst.
  destruct (same_config_slots_length _ _ Hch) as (Hlen & Hnull).
  unfold Validate, children_count_. rewrite Hty, Htk, Hlen, Hnull. reflexivity.
Qed.

Lemma same_config_ValidateTree (a : Node Context) :
  forall b, same_config a b ->
            ValidateTree kMaxChildren a = ValidateTree kMaxChildren b.
Proof.
  induction a as [a IH] using Node_tree_ind. intros b H.
  rewrite !ValidateTree_unfold, (same_config_Validate a b H).
  destruct (Validate kMaxChildren b); try reflexivity.
  inversion H as [? ? _ _ _ _ _ _ Hch]; subst. revert IH.
  induction Hch as [|x y l l' Hxy _ IHl]; intros IH; [reflexivity|].
  inversion IH as [|? ? Hx Hl]; subst.
  destruct Hxy as [|x y Hxy]; cbn [ValidateTree_loop].
  - apply IHl. exact Hl.
  - rewrite (Hx y Hxy), (IHl Hl). reflexivity.
Qed.

End Validated.

Lemma same_config_Reset (a : Node Context) :
  forall b, same_config a b -> Reset a = Reset b.
Proof.
  induction a as [a IH] using Node_tree_ind. intros b H.
  rewrite !Reset_unfold.
  inversion H as [? ? Hty Htk Hen Hex Hpo Hna Hch]; subst.
  rewrite Hty, Htk, Hen, Hex, Hpo, Hna. f_equal. revert IH.
  induction Hch as [|x y l l' Hxy _ IHl]; intros IH; [reflexivity|].
  inversion IH as [|? ? Hx Hl]; subst.
  destruct Hxy as [|x y Hxy]; cbn [Reset_loop].
  - rewrite (IHl Hl). reflexivity.
  - rewrite (Hx y Hxy), (IHl Hl). reflexivity.
Qed.

Lemma same_config_trans (a : Node Context) :
  forall b c, same_config a b -> same_config b c -> same_config a c.
Proof.
  induction a as [a IH] using Node_tree_ind. intros b c Hab Hbc.
  inversion Hab as [? ? A1 A2 A3 A4 A5 A6 Ach]; subst.
  inversion Hbc as [? ? B1 B2 B3 B4 B5 B6 Bch]; subst.
  constructor; try congruence.
  revert IH Bch. generalize (children_ c).
  induction Ach as [|x y l l' Hxy _ IHl]; intros lc IH Bch;
    inversion Bch as [|? z ? lc' Hyz Hrest]; subst; constructor.
  - inversion IH as [|? ? Hx _]; subst.
    destruct Hxy as [|x y Hxy]; inversion Hyz; subst; constructor.
    eapply Hx; eassumption.
  - apply IHl; [inversion IH; assumption|assumption].
Qed.

(** Over any number of cycles the configuration stays what it was. *)
Lemma run_cycles_same_config ctxs : forall n,
  Forall (fun o => same_config n (out_node o)) (run_cycles n ctxs).
Proof.
  induction ctxs as [|ctx rest IH]; intros n; cbn [run_cycles];
    constructor; [apply Tick_same_config|].
  eapply Forall_impl; [|apply IH]. cbn. intros o Ho.
  eapply same_config_trans; [apply Tick_same_config|exact Ho].
Qed.

(** X1.  [Tick] changes the configuration of no node of the tree: after any
    number of cycles every node has the type, the callbacks, the policy, the
    name and the children (in number, order and null-ness) it had. *)
Theorem Tick_never_changes_configuration n ctxs :
  Forall (fun o => same_config n (out_node o)) (run_cycles n ctxs).
Proof. apply run_cycles_same_config. Qed.

(** X2.  What [Validate] and [ValidateTree] report does not change with the
    ticks or with [Reset]: a tree validated once stays validated. *)
Theorem Validation_is_stable (kMaxChildren : nat) n ctxs :
  Forall (fun o =>
            Validate kMaxChildren (out_node o) = Validate kMaxChildren n /\
            ValidateTree kMaxChildren (out_node o)
            = ValidateTree kMaxChildren n)
         (run_cycles n ctxs) /\
  ValidateTree kMaxChildren (Reset n) = ValidateTree kMaxChildren n /\
  Validate kMaxChildren (Reset n) = Validate kMaxChildren n.
Proof.
  split; [|split].
  - eapply Forall_impl; [|apply run_cycles_same_config]. cbn. intros o Ho.
    split; symmetry.
    + apply same_config_Validate. exact Ho.
    + apply same_config_ValidateTree. exact Ho.
  - symmetry. apply same_config_ValidateTree. apply Reset_same_config.
  - symmetry. apply same_config_Validate. apply Reset_same_config.
Qed.

(** X3.  [Reset] forgets every tick: resetting after any number of cycles
    gives the tree that resetting at once gives, and resetting twice is
    resetting once. *)
Theorem Reset_forgets_ticks n ctxs :
  Forall (fun o => Reset (out_node o) = Reset n) (run_cycles n ctxs) /\
  Reset (Reset n) = Reset n.
Proof.
  split.
  - eapply Forall_impl; [|apply run_cycles_same_config]. cbn. intros o Ho.
    symmetry. apply same_config_Reset. exact Ho.
  - symmetry. apply same_config_Reset. apply Reset_same_config.
Qed.

(** ** Trees that cannot return Error *)

Lemma Forall_preorder (Q : Node Context -> Prop) n :
  Forall Q (preorder n) <->
  Q n /\ Forall (slot_all (fun c => Forall Q (preorder c))) (children_ n).
Proof.
  rewrite preorder_unfold. split.
  - intros H. inversion H as [|? ? Hn Hrest]; subst. split; [exact Hn|].
    clear H Hn. induction (children_ n) as [|[c|] rest IH];
      cbn [preorder_loop] in Hrest; constructor; cbn.
    + apply Forall_app in Hrest. tauto.
    + apply IH. apply Forall_app in Hrest. tauto.
    + exact I.
    + apply IH. exact Hrest.
  - intros (Hn & Hch). constructor; [exact Hn|].
    induction Hch as [|[c|] rest Hc _ IH]; cbn [preorder_loop].
    + constructor.
    + apply Forall_app. split; assumption.
    + exact IH.
Qed.

Lemma TickLeaf_status n ctx f :
  tick_ n = Some f ->
  out_status (TickLeaf n ctx) = fst (f (fst (enter_if_fresh n ctx))).
Proof.
  intros Hf. unfold TickLeaf. rewrite Hf.
  destruct (enter_if_fresh n ctx) as [ctx1 ev1]. cbn [fst].
  destruct (f ctx1) as [r ctx2]. break_pairs. reflexivity.
Qed.

Lemma inverted_error (s : Status) : inverted s = kError -> s = kError.
Proof. destruct s; cbn; congruence. Qed.

Section NoError.

Variable kMaxChildren : nat.

Lemma cannot_err_no_null n k :
  cannot_err kMaxChildren n -> nth_error (children_ n) k <> Some None.
Proof.
  intros (Hv & _) Hn.
  destruct (Validate_priority kMaxChildren n) as (_ & _ & _ & _ & _ & Hnone).
  apply Hnone in Hv. destruct Hv as (_ & Hnull & _). apply Hnull.
  exists k. apply ChildAt_null_iff. exact Hn.
Qed.

Lemma children_cannot_err n k c ctx' :
  Forall (slot_all (fun c => forall ctx, out_status (Tick c ctx) <> kError))
         (children_ n) ->
  ChildAt n k = Some c ->
  out_status (Tick c ctx') <> kError.
Proof.
  intros Hall Hc. unfold ChildAt in Hc.
  destruct (nth_error (children_ n) k) as [slot|] eqn:Hn; [|discriminate].
  subst slot. apply nth_error_In in Hn.
  rewrite Forall_forall in Hall. apply (Hall _ Hn).
Qed.

Lemma cannot_err_Tick n :
  Forall (cannot_err kMaxChildren) (preorder n) ->
  forall ctx, out_status (Tick n ctx) <> kError.
Proof.
  induction n as [n IH] using Node_tree_ind. intros Hall ctx.
  apply Forall_preorder in Hall. destruct Hall as (Hn & Hch).
  assert (Hkids : Forall (slot_all (fun c => forall ctx,
                            out_status (Tick c ctx) <> kError)) (children_ n)).
  { clear Hn. induction IH as [|[c|] rest Hc _ IHrest];
      inversion Hch; subst; constructor; cbn in *; auto. }
  destruct (Tick_provenance n ctx) as (_ & Hprov).
  assert (Hchild : forall k sub,
             ~ In (EvChild k kError sub) (out_events (Tick n ctx))).
  { intros k sub Hin. destruct (Hprov k kError sub Hin) as (c & ctx' & Hc & Hr).
    symmetry in Hr. revert Hr. eapply children_cannot_err; eassumption. }
  pose proof (cannot_err_no_null n) as Hnonull. specialize (Hnonull).
  destruct Hn as (Hv & Hty & Hcb).
  assert (Hn : cannot_err kMaxChildren n) by (repeat split; assumption).
  destruct (Validate_priority kMaxChildren n) as (_ & _ & _ & _ & _ & Hnone).
  apply Hnone in Hv. destruct Hv as (_ & _ & Hleaf & Hinv & _).
  rewrite Tick_unfold in *.
  destruct (type_ n) eqn:Hty'; try congruence.
  - destruct (tick_ n) as [f|] eqn:Hf.
    + rewrite (TickLeaf_status n ctx f Hf). apply Hcb. reflexivity.
    + exfalso. apply Hleaf. split; auto.
  - destruct (tick_ n) as [f|] eqn:Hf.
    + rewrite (TickLeaf_status n ctx f Hf). apply Hcb. reflexivity.
    + exfalso. apply Hleaf. split; auto.
  - destruct (TickSequence_by_scan Tick n ctx) as (Hev & _ & Hex).
    destruct (scan_from_cursor Tick kSuccess (entry_cursor n) (children_ n)
                (fst (enter_if_fresh n ctx)))
      as (_ & _ & _ & _ & _ & _ & _ & Rt & Nl & _).
    cbn zeta in *.
    destruct (scan_exit _) as [k|k r|] eqn:Hx.
    + destruct (Nl k eq_refl) as (Hnull & _).
      destruct (Hnonull k Hn Hnull).
    + destruct Hex as (-> & _). intros ->.
      destruct (Rt k kError eq_refl) as (_ & Hin & _).
      apply In_child_ticks in Hin. destruct Hin as (sub & Hin).
      apply (Hchild k sub). rewrite Hev. apply in_or_app. right.
      apply in_or_app. left. exact Hin.
    + destruct Hex as (-> & _). discriminate.
  - destruct (TickSelector_by_scan Tick n ctx) as (Hev & _ & Hex).
    destruct (scan_from_cursor Tick kFailure (entry_cursor n) (children_ n)
                (fst (enter_if_fresh n ctx)))
      as (_ & _ & _ & _ & _ & _ & _ & Rt & Nl & _).
    cbn zeta in *.
    destruct (scan_exit _) as [k|k r|] eqn:Hx.
    + destruct (Nl k eq_refl) as (Hnull & _).
      destruct (Hnonull k Hn Hnull).
    + destruct Hex as (-> & _). intros ->.
      destruct (Rt k kError eq_refl) as (_ & Hin & _).
      apply In_child_ticks in Hin. destruct Hin as (sub & Hin).
      apply (Hchild k sub). rewrite Hev. apply in_or_app. right.
      apply in_or_app. left. exact Hin.
    + destruct Hex as (-> & _). discriminate.
  - destruct (TickParallel_by_loop Tick n ctx) as (-> & _).
    apply evaluate_policy_not_error.
  - destruct (children_ n) as [|[c|] [|? ?]] eqn:Hc.
    2: { destruct (TickInverter_over_child Tick n ctx c Hc) as (-> & _).
         intros He. apply inverted_error in He. revert He.
         inversion Hkids as [|? ? Hkid _]; subst. apply Hkid. }
    all: exfalso; apply Hinv; split; [exact Hty'|];
      unfold children_count_; rewrite Hc; cbn; try lia.
    exfalso. apply (Hnonull 0%nat Hn). reflexivity.
Qed.

Lemma same_config_cannot_err (a : Node Context) :
  forall b, same_config a b ->
            Forall (cannot_err kMaxChildren) (preorder a) ->
            Forall (cannot_err kMaxChildren) (preorder b).
Proof.
  induction a as [a IH] using Node_tree_ind. intros b H Ha.
  apply Forall_preorder in Ha. destruct Ha as (Hn & Hch).
  apply Forall_preorder. split.
  - destruct Hn as (Hv & Hty & Hcb).
    pose proof (same_config_Validate kMaxChildren a b H) as Hval.
    inversion H as [? ? Hty' Htk _ _ _ _ _]; subst.
    repeat split; try congruence.
    intros f ctx Hf. apply Hcb. congruence.
  - inversion H as [? ? _ _ _ _ _ _ Hkids]; subst. revert IH Hch.
    induction Hkids as [|x y l l' Hxy _ IHl]; intros IH Hch; constructor.
    + inversion IH as [|? ? Hx _]; inversion Hch as [|? ? Hqx _]; subst.
      destruct Hxy as [|x y Hxy]; cbn in *; auto.
    + inversion IH; inversion Hch; subst. apply IHl; assumption.
Qed.

(** X4.  A tree in which every node validates, has one of the six node
    types, and has a tick callback, if any, that never returns Error, never
    returns Error from [Tick], on any cycle. *)
Theorem Validated_tree_never_returns_Error n ctxs :
  Forall (cannot_err kMaxChildren) (preorder n) ->
  Forall (fun o => out_status o <> kError) (run_cycles n ctxs).
Proof.
  revert n. induction ctxs as [|ctx rest IH]; intros n Hn; cbn [run_cycles];
    constructor.
  - apply cannot_err_Tick. exact Hn.
  - apply IH.
    apply (same_config_cannot_err n _ (Tick_same_config n ctx) Hn).
Qed.

End NoError.

(** ** Sound bitmaps in every reachable state *)

Lemma Tick_keeps_bitmaps_unless_parallel n ctx :
  type_ n <> kParallel ->
  child_done_bits_ (out_node (Tick n ctx)) = child_done_bits_ n /\
  child_success_bits_ (out_node (Tick n ctx)) = child_success_bits_ n.
Proof.
  intros Hty. rewrite Tick_unfold.
  destruct (type_ n) eqn:Hty'; try congruence.
  - unfold TickLeaf. destruct (tick_ n); break_pairs; cbn; auto.
  - unfold TickLeaf. destruct (tick_ n); break_pairs; cbn; auto.
  - unfold TickSequence. break_pairs.
    destruct (scan_exit _) as [k|k [ | | | ]|]; break_pairs;
      destruct (status_ n); cbn; auto.
  - unfold TickSelector. break_pairs.
    destruct (scan_exit _) as [k|k [ | | | ]|]; break_pairs;
      destruct (status_ n); cbn; auto.
  - unfold TickInverter.
    destruct (children_ n) as [|[c|] [|? ?]]; break_pairs; cbn; auto.
  - cbn. auto.
Qed.

Lemma Tick_keeps_children_count n ctx :
  children_count_ (out_node (Tick n ctx)) = children_count_ n.
Proof.
  destruct (Tick_provenance n ctx) as (Hs & _).
  unfold children_count_. symmetry. eapply Forall2_length. exact Hs.
Qed.

Lemma Tick_node_bitmaps_sound n ctx :
  bitmaps_sound n -> bitmaps_sound (out_node (Tick n ctx)).
Proof.
  intros (Hok & Hwidth).
  destruct (Tick_keeps_node_config n ctx) as (Hty & _). cbn zeta in Hty.
  unfold bitmaps_sound. rewrite Hty, Tick_keeps_children_count.
  split; [|exact Hwidth].
  destruct (type_ n) eqn:Hty';
    try (destruct (Tick_keeps_bitmaps_unless_parallel n ctx) as (-> & ->);
         [congruence|exact Hok]).
  specialize (Hwidth eq_refl).
  rewrite Tick_unfold, Hty'.
  destruct (TickParallel_by_loop Tick n ctx) as (_ & _ & _ & -> & -> & _).
  apply par_loop_bits_ok; [exact Hwidth|].
  apply entry_state_ok. intros _. exact Hok.
Qed.

Lemma Tick_tree_bitmaps_sound n :
  Forall bitmaps_sound (preorder n) ->
  forall ctx, Forall bitmaps_sound (preorder (out_node (Tick n ctx))).
Proof.
  induction n as [n IH] using Node_tree_ind. intros Hall ctx.
  apply Forall_preorder in Hall. destruct Hall as (Hn & Hch).
  apply Forall_preorder. split; [apply Tick_node_bitmaps_sound; exact Hn|].
  destruct (Tick_provenance n ctx) as (Hs & _). revert IH Hch.
  induction Hs as [|x y l l' Hxy _ IHl]; intros IH Hch; constructor.
  - inversion IH as [|? ? Hx _]; inversion Hch as [|? ? Hqx _]; subst.
    destruct Hxy as [|x y [->|(ctx' & ->)]]; cbn in *; auto.
  - inversion IH; inversion Hch; subst. apply IHl; assumption.
Qed.

(** X5.  A tree whose nodes are idle (as the constructor and [Reset] leave
    them) and validate has sound bitmaps in every node: no success bit
    without its done bit, at most 32 children under a Parallel node.  Ticks
    keep the bitmaps sound in every node, over any number of cycles. *)
Theorem Bitmaps_stay_sound (kMaxChildren : nat) n :
  (Forall (fun d => idle d /\ Validate kMaxChildren d = kNone) (preorder n) ->
   Forall bitmaps_sound (preorder n)) /\
  (Forall bitmaps_sound (preorder n) ->
   forall ctxs,
     Forall (fun o => Forall bitmaps_sound (preorder (out_node o)))
            (run_cycles n ctxs)).
Proof.
  split.
  - apply Forall_impl. intros d (Hidle & Hv). split.
    + apply idle_bits_ok. exact Hidle.
    + intros Hty.
      destruct (Validate_priority kMaxChildren d) as (_ & _ & _ & _ & _ & Hnone).
      apply Hnone in Hv. destruct Hv as (_ & _ & _ & _ & Hpar).
      unfold parallel_exceeds_bitmap in Hpar.
      destruct (Nat.le_gt_cases (children_count_ d) kMaxParallelChildren);
        [assumption|]. exfalso. apply Hpar. split; assumption.
  - intros Hn ctxs. revert n Hn.
    induction ctxs as [|ctx rest IH]; intros n Hn; cbn [run_cycles];
      constructor.
    + apply Tick_tree_bitmaps_sound. exact Hn.
    + apply IH. apply Tick_tree_bitmaps_sound. exact Hn.
Qed.

(** ** Inverter *)

Lemma inverted_involutive (s : Status) : inverted (inverted s) = s.
Proof. destruct s; reflexivity. Qed.

(** X6.  An Inverter over one non-null child ticks that child once, after
    its own on-enter, and returns Failure for the child's Success, Success
    for its Failure, and Running and Error as they are; the child's new
    state is stored back in the slot; an Inverter over an Inverter returns
    what the innermost child returns. *)
Theorem Inverter_inverts n ctx c :
  type_ n = kInverter ->
  children_ n = [Some c] ->
  let oc := Tick c (fst (enter_if_fresh n ctx)) in
  let o := Tick n ctx in
  out_status o = inverted (out_status oc) /\
  (out_status oc = kSuccess -> out_status o = kFailure) /\
  (out_status oc = kFailure -> out_status o = kSuccess) /\
  (out_status oc = kRunning -> out_status o = kRunning) /\
  (out_status oc = kError -> out_status o = kError) /\
  child_ticks (out_events o) = [(0%nat, out_status oc)] /\
  ChildAt (out_node o) 0 = Some (out_node oc) /\
  (forall m,
      type_ c = kInverter -> children_ c = [Some m] ->
      out_status o
      = out_status (Tick m (fst (enter_if_fresh c
                                   (fst (enter_if_fresh n ctx)))))).
Proof.
  intros Hty Hc oc o. subst oc o. rewrite (Tick_unfold n), Hty.
  destruct (TickInverter_over_child Tick n ctx c Hc) as (Hst & Hev & Hch).
  cbn zeta in *. rewrite Hst.
  split; [reflexivity|].
  split; [intros ->; reflexivity|]. split; [intros ->; reflexivity|].
  split; [intros ->; reflexivity|]. split; [intros ->; reflexivity|].
  split.
  { rewrite Hev, !child_ticks_app, child_ticks_enter_events,
      child_ticks_exit_events. reflexivity. }
  split; [unfold ChildAt; rewrite Hch; reflexivity|].
  intros m Htyc Hcm. rewrite (Tick_unfold c), Htyc.
  destruct (TickInverter_over_child Tick c (fst (enter_if_fresh n ctx)) m Hcm)
    as (-> & _).
  apply inverted_involutive.
Qed.

(** ** The children that a Parallel node ticks *)

(** X7.  Each tick of a Parallel node with at most 32 children ticks, in
    ascending index order, exactly the non-null children that are not marked
    done: all of them on a fresh entry, since the bitmaps are cleared.
    Without children nothing is ticked and the result is Success under
    RequireAll and Failure under RequireOne.  The ticks are real: the first
    child is ticked on the context that on-enter leaves, each next one on
    the context the one before left; what the log records is what these
    [Tick]s return; their nodes are stored back and the other slots are
    left alone; the context handed back is the one the last tick left,
    after on-exit when the result is terminal. *)
Theorem Parallel_ticks_children_not_done n ctx :
  type_ n = kParallel ->
  (children_count_ n <= kMaxParallelChildren)%nat ->
  let ticked := map fst (child_ticks (out_events (Tick n ctx))) in
  let present k :=
    match ChildAt n k with Some _ => true | None => false end in
  (status_ n = kRunning ->
   ticked = filter (fun k => negb (child_done n k) && present k)
                   (seq 0 (children_count_ n))) /\
  (status_ n <> kRunning ->
   ticked = filter present (seq 0 (children_count_ n))) /\
  (children_ n = [] ->
   ticked = [] /\
   out_status (Tick n ctx)
   = match success_policy_ n with
     | kRequireAll => kSuccess
     | kRequireOne => kFailure
     end) /\
  (let outs := tick_in_turn n (entered n ctx) ticked in
   List.length outs = List.length ticked /\
   child_ticks (out_events (Tick n ctx))
   = combine ticked (map out_status outs) /\
   out_events (Tick n ctx)
   = enter_events n ++ child_events ticked outs
                    ++ exit_events n (out_status (Tick n ctx)) /\
   out_ctx (Tick n ctx)
   = exited n (out_status (Tick n ctx)) (left_ctx (entered n ctx) outs) /\
   (forall j k oj,
       nth_error ticked j = Some k -> nth_error outs j = Some oj ->
       ChildAt (out_node (Tick n ctx)) k = Some (out_node oj)) /\
   (forall k, ~ In k ticked ->
              ChildAt (out_node (Tick n ctx)) k = ChildAt n k)).
Proof.
  intros Hty Hlen ticked present. subst ticked.
  rewrite Tick_unfold, Hty.
  apply and_snoc3.
  { destruct (Parallel_threaded n ctx Hlen) as (K & L & T & E & C & S & U & _).
    cbn zeta. rewrite K. repeat split; assumption. }
  destruct (TickParallel_by_loop Tick n ctx) as (Hst & Hev & _).
  cbn zeta in *.
  assert (Ht : map fst (child_ticks (out_events (TickParallel Tick n ctx)))
               = filter (fun k => negb (bit_at (par_done (entry_state n)) k)
                                  && present k)
                        (seq 0 (children_count_ n))).
  { rewrite Hev, !child_ticks_app, child_ticks_enter_events,
      child_ticks_exit_events, app_nil_r. cbn [app].
    rewrite par_loop_ticked_indices by exact Hlen.
    apply filter_ext. intros k. rewrite Nat.sub_0_r.
    unfold present, ChildAt.
    destruct (nth_error (children_ n) k) as [[c|]|]; reflexivity. }
  split; [|split].
  - intros Hrun. rewrite Ht, (entry_state_running n Hrun). reflexivity.
  - intros Hfresh. rewrite Ht. apply filter_ext. intros k.
    unfold entry_state. destruct (status_ n); try congruence;
      cbn [par_done]; rewrite bit_at_zero; reflexivity.
  - intros Hc. split.
    + rewrite Ht. unfold children_count_. rewrite Hc. reflexivity.
    + rewrite Hst, Hc. cbn [TickParallel_loop pscan_state].
      destruct (entry_state_counts n) as (Hr & Hs & Hf).
      unfold evaluate_policy. rewrite Hr, Hs, Hf.
      destruct (success_policy_ n); reflexivity.
Qed.

(** ** The tree manager *)

Lemma ticks_in_cons (c : BehaviorTree.Call) calls :
  BehaviorTree.ticks_in (c :: calls)
  = (match c with
     | BehaviorTree.CallTick => 1
     | BehaviorTree.CallReset => 0
     end + BehaviorTree.ticks_in calls)%Z.
Proof.
  unfold BehaviorTree.ticks_in. cbn [filter].
  destruct c; cbn [List.length]; lia.
Qed.

(** X8.  The manager's tick counter counts the calls of [Tick] and nothing
    else, modulo 2^32: after any series of ticks and resets it is the count
    before plus the number of ticks, wrapped; [Reset] leaves it as it is,
    and the depth statistic is never written. *)
Theorem Manager_counts_ticks (bt : BehaviorTree.t Context) calls :
  (0 <= BehaviorTree.tick_count_ bt < uint32_max)%Z ->
  BehaviorTree.tick_count_ (BehaviorTree.run bt calls)
  = ((BehaviorTree.tick_count_ bt + BehaviorTree.ticks_in calls)
       mod uint32_max)%Z /\
  ((BehaviorTree.tick_count_ bt + BehaviorTree.ticks_in calls < uint32_max)%Z ->
   BehaviorTree.tick_count_ (BehaviorTree.run bt calls)
   = (BehaviorTree.tick_count_ bt + BehaviorTree.ticks_in calls)%Z) /\
  BehaviorTree.tick_count_ (BehaviorTree.Reset bt)
  = BehaviorTree.tick_count_ bt /\
  BehaviorTree.max_tick_depth_ (BehaviorTree.run bt calls)
  = BehaviorTree.max_tick_depth_ bt.
Proof.
  intros Hrange.
  assert (Hcount :
    BehaviorTree.tick_count_ (BehaviorTree.run bt calls)
    = ((BehaviorTree.tick_count_ bt + BehaviorTree.ticks_in calls)
         mod uint32_max)%Z).
  { revert bt Hrange.
    induction calls as [|c calls IH]; intros bt Hrange.
    - cbn [BehaviorTree.run]. unfold BehaviorTree.ticks_in. cbn.
      rewrite Z.add_0_r, Z.mod_small; auto.
    - rewrite ticks_in_cons. destruct c; cbn [BehaviorTree.run].
      + rewrite IH.
        * cbn [BehaviorTree.Tick snd BehaviorTree.tick_count_].
          rewrite Z.add_mod_idemp_l by (unfold uint32_max; lia).
          f_equal. lia.
        * cbn [BehaviorTree.Tick snd BehaviorTree.tick_count_].
          apply Z.mod_pos_bound. unfold uint32_max. lia.
      + rewrite IH by exact Hrange.
        cbn [BehaviorTree.Reset BehaviorTree.tick_count_]. f_equal. }
  split; [exact Hcount|].
  split.
  { intros Hsmall. rewrite Hcount. apply Z.mod_small.
    unfold BehaviorTree.ticks_in in *. lia. }
  split; [reflexivity|].
  clear Hcount Hrange. revert bt.
  induction calls as [|[|] calls IH]; intros bt; cbn [BehaviorTree.run];
    [reflexivity|rewrite IH; reflexivity..].
Qed.

Lemma Manager_run_same_config (bt : BehaviorTree.t Context) calls :
  same_config (BehaviorTree.root_ bt)
              (BehaviorTree.root_ (BehaviorTree.run bt calls)).
Proof.
  revert bt. induction calls as [|[|] calls IH]; intros bt;
    cbn [BehaviorTree.run].
  - apply same_config_refl.
  - eapply same_config_trans; [|apply IH].
    cbn [BehaviorTree.Tick snd BehaviorTree.root_]. apply Tick_same_config.
  - eapply same_config_trans; [|apply IH].
    cbn [BehaviorTree.Reset BehaviorTree.root_]. apply Reset_same_config.
Qed.

Lemma Manager_run_last_status (bt : BehaviorTree.t Context) calls :
  BehaviorTree.last_status_ bt = status_ (BehaviorTree.root_ bt) ->
  BehaviorTree.last_status_ (BehaviorTree.run bt calls)
  = status_ (BehaviorTree.root_ (BehaviorTree.run bt calls)).
Proof.
  revert bt. induction calls as [|[|] calls IH]; intros bt Hinv;
    cbn [BehaviorTree.run]; [exact Hinv|apply IH..].
  - cbn [BehaviorTree.Tick snd BehaviorTree.last_status_ BehaviorTree.root_].
    symmetry. apply Tick_stored.
  - cbn [BehaviorTree.Reset BehaviorTree.last_status_ BehaviorTree.root_].
    rewrite Reset_unfold. reflexivity.
Qed.

(** X9.  Through any series of ticks and resets the manager keeps the tree
    it was given: the root has the same configuration and the same
    validation result as at construction.  After at least one call the
    status the manager remembers is the status stored in the root; a tick
    returns that status; a reset leaves every node idle and the context and
    the tick counter untouched. *)
Theorem Manager_keeps_tree_and_status (kMaxChildren : nat)
        (bt : BehaviorTree.t Context) (c : BehaviorTree.Call) calls :
  same_config (BehaviorTree.root_ bt)
              (BehaviorTree.root_ (BehaviorTree.run bt calls)) /\
  BehaviorTree.ValidateTree kMaxChildren (BehaviorTree.run bt calls)
  = BehaviorTree.ValidateTree kMaxChildren bt /\
  BehaviorTree.last_status_ (BehaviorTree.run bt (c :: calls))
  = status_ (BehaviorTree.root_ (BehaviorTree.run bt (c :: calls))) /\
  fst (BehaviorTree.Tick bt)
  = status_ (BehaviorTree.root_ (snd (BehaviorTree.Tick bt))) /\
  Forall idle (preorder (BehaviorTree.root_ (BehaviorTree.Reset bt))) /\
  BehaviorTree.context_ (BehaviorTree.Reset bt) = BehaviorTree.context_ bt.
Proof.
  split; [apply Manager_run_same_config|].
  split.
  { unfold BehaviorTree.ValidateTree. symmetry.
    apply same_config_ValidateTree, Manager_run_same_config. }
  split.
  { destruct c; cbn [BehaviorTree.run]; apply Manager_run_last_status.
    - cbn [BehaviorTree.Tick snd BehaviorTree.last_status_ BehaviorTree.root_].
      symmetry. apply Tick_stored.
    - cbn [BehaviorTree.Reset BehaviorTree.last_status_ BehaviorTree.root_].
      rewrite Reset_unfold. reflexivity. }
  split.
  { cbn [BehaviorTree.Tick fst snd BehaviorTree.root_].
    symmetry. apply Tick_stored. }
  split; [apply Reset_idle_everywhere|reflexivity].
Qed.

(** ** Building a tree *)

Lemma set_children_same (n : Node Context) : set_children n (children_ n) = n.
Proof. destruct n; reflexivity. Qed.

Lemma holds_null_child_In (n : Node Context) :
  holds_null_child n <-> In None (children_ n).
Proof.
  split.
  - intros (i & Hi). apply ChildAt_null_iff in Hi.
    eapply nth_error_In; eauto.
  - intros Hin. apply In_nth_error in Hin as (i & Hi).
    exists i. apply ChildAt_null_iff. exact Hi.
Qed.

Lemma AddChildren_within (kMaxChildren : nat) cs :
  forall n : Node Context,
    (children_count_ n + List.length cs <= kMaxChildren)%nat ->
    AddChildren kMaxChildren n cs
    = Some (set_children n (children_ n ++ map Some cs)).
Proof.
  induction cs as [|c rest IH]; intros n Hlen; cbn [AddChildren map].
  - rewrite app_nil_r, set_children_same. reflexivity.
  - cbn [List.length] in Hlen. unfold AddChild.
    destruct (Nat.ltb_spec (children_count_ n) kMaxChildren) as [_|Hge];
      [|lia].
    rewrite IH.
    + cbn [set_children children_]. rewrite <- app_assoc. reflexivity.
    + unfold children_count_ in *. cbn [set_children children_].
      rewrite length_app. cbn [List.length]. lia.
Qed.

Lemma AddChildren_beyond (kMaxChildren : nat) cs :
  forall n : Node Context,
    cs <> [] ->
    (kMaxChildren < children_count_ n + List.length cs)%nat ->
    AddChildren kMaxChildren n cs = None.
Proof.
  induction cs as [|c rest IH]; intros n Hne Hlen; [congruence|].
  cbn [AddChildren]. cbn [List.length] in Hlen. unfold AddChild.
  destruct (Nat.ltb_spec (children_count_ n) kMaxChildren) as [Hlt|_];
    [|reflexivity].
  destruct rest as [|c' rest']; [cbn [List.length] in Hlen; lia|].
  apply IH; [discriminate|].
  unfold children_count_ in *. cbn [set_children children_].
  rewrite length_app. cbn [List.length] in *. lia.
Qed.

(** X10.  Adding children one by one succeeds exactly while the node stays
    within [kMaxChildren]: within capacity the children are appended, in
    order, behind those the node has, which keep their places, and nothing
    else of the node changes; a series that would go past the capacity trips
    the assertion.  A node built this way is never reported as
    [kChildrenExceedMax] and holds no null child if it held none. *)
Theorem AddChildren_appends_within_capacity (kMaxChildren : nat)
        (n : Node Context) cs :
  ((children_count_ n + List.length cs <= kMaxChildren)%nat ->
   AddChildren kMaxChildren n cs
   = Some (set_children n (children_ n ++ map Some cs))) /\
  (cs <> [] ->
   (kMaxChildren < children_count_ n + List.length cs)%nat ->
   AddChildren kMaxChildren n cs = None) /\
  (forall n',
      AddChildren kMaxChildren n cs = Some n' ->
      children_count_ n' = (children_count_ n + List.length cs)%nat /\
      (forall j, (j < children_count_ n)%nat -> ChildAt n' j = ChildAt n j) /\
      (forall j, (j < List.length cs)%nat ->
                 ChildAt n' (children_count_ n + j) = nth_error cs j) /\
      (cs <> [] -> Validate kMaxChildren n' <> kChildrenExceedMax) /\
      (holds_null_child n' <-> holds_null_child n)).
Proof.
  split; [apply AddChildren_within|].
  split; [apply AddChildren_beyond|].
  intros n' Hadd.
  assert (Hcap : cs = [] \/
                 (children_count_ n + List.length cs <= kMaxChildren)%nat).
  { destruct cs as [|c rest]; [left; reflexivity|right].
    destruct (Nat.le_gt_cases (children_count_ n + List.length (c :: rest))
                              kMaxChildren) as [Hle|Hgt]; [exact Hle|].
    rewrite AddChildren_beyond in Hadd by (auto; discriminate).
    discriminate. }
  assert (Hn' : n' = set_children n (children_ n ++ map Some cs)).
  { destruct Hcap as [->|Hle].
    - cbn in Hadd. injection Hadd as <-. cbn [map].
      rewrite app_nil_r, set_children_same. reflexivity.
    - rewrite AddChildren_within in Hadd by exact Hle. congruence. }
  subst n'. unfold children_count_, ChildAt. cbn [set_children children_].
  split; [rewrite length_app, length_map; reflexivity|].
  split; [intros j Hj; rewrite nth_error_app1 by exact Hj; reflexivity|].
  split.
  { intros j Hj. rewrite nth_error_app2 by lia.
    replace (List.length (children_ n) + j - List.length (children_ n))%nat
      with j by lia.
    rewrite nth_error_map. destruct (nth_error cs j) eqn:Hc; [reflexivity|].
    apply nth_error_None in Hc. lia. }
  split.
  { intros Hne Hv.
    destruct Hcap as [->|Hle]; [congruence|].
    apply (Validate_priority kMaxChildren) in Hv.
    unfold exceeds_capacity, children_count_ in *.
    cbn [set_children children_] in Hv.
    rewrite length_app, length_map in Hv. lia. }
  rewrite !holds_null_child_In. cbn [set_children children_].
  rewrite in_app_iff, in_map_iff. split; [|auto].
  intros [H|(c & Hc & _)]; [exact H|discriminate].
Qed.

(** X11.  What the factory helpers build validates as follows.  An Inverter
    made over a node validates whenever [kMaxChildren] is at least one.  A
    Sequence, Selector or Parallel is made exactly when the children fit in
    [kMaxChildren]; the Sequence and the Selector then validate exactly when
    no child pointer is null, the Parallel when moreover there are at most
    32 children.  An Action or a Condition made over a node without
    children validates exactly when the callback given is not null. *)
Theorem Factory_results_validate (kMaxChildren : nat) (node : Node Context) :
  (forall child,
      (1 <= kMaxChildren)%nat ->
      Validate kMaxChildren (MakeInverter node child) = kNone) /\
  (forall children,
      (MakeSequence kMaxChildren node children = None <->
       (kMaxChildren < List.length children)%nat) /\
      (MakeSelector kMaxChildren node children = None <->
       (kMaxChildren < List.length children)%nat) /\
      (forall policy,
          MakeParallel kMaxChildren node children policy = None <->
          (kMaxChildren < List.length children)%nat)) /\
  (forall children m,
      MakeSequence kMaxChildren node children = Some m \/
      MakeSelector kMaxChildren node children = Some m ->
      (Validate kMaxChildren m = kNone <-> ~ In None children)) /\
  (forall children policy m,
      MakeParallel kMaxChildren node children policy = Some m ->
      success_policy_ m = policy /\
      (Validate kMaxChildren m = kNone <->
       ~ In None children /\
       (List.length children <= kMaxParallelChildren)%nat)) /\
  (forall tick,
      children_ node = [] ->
      (Validate kMaxChildren (MakeAction node tick) = kNone <->
       tick <> None) /\
      (Validate kMaxChildren (MakeCondition node tick) = kNone <->
       tick <> None)).
Proof.
  split.
  { intros child Hk.
    apply (Validate_priority kMaxChildren).
    unfold exceeds_capacity, holds_null_child, leaf_without_tick,
      inverter_not_one_child, parallel_exceeds_bitmap, children_count_,
      ChildAt.
    cbn. repeat split.
    - lia.
    - intros ([|i] & Hi & Hnull); [discriminate|lia].
    - intros ([H|H] & _); discriminate.
    - intros (_ & H). congruence.
    - intros (H & _). discriminate. }
  split.
  { intros children.
    unfold MakeSequence, MakeSelector, MakeParallel, SetChildren.
    destruct (Nat.leb_spec (List.length children) kMaxChildren) as [Hle|Hgt];
      (split; [|split; [|intros policy]]); split;
      first [discriminate | lia | reflexivity | auto]. }
  split.
  { intros children m Hm.
    assert (Hshape : children_ m = children /\
                     (type_ m = kSequence \/ type_ m = kSelector) /\
                     (List.length children <= kMaxChildren)%nat).
    { unfold MakeSequence, MakeSelector, SetChildren in Hm.
      destruct (Nat.leb_spec (List.length children) kMaxChildren)
        as [Hle|Hgt]; [|destruct Hm; discriminate].
      destruct Hm as [Hm|Hm]; injection Hm as <-; cbn; auto. }
    destruct Hshape as (Hch & Hty & Hle).
    destruct (Validate_priority kMaxChildren m) as (_ & _ & _ & _ & _ & ->).
    rewrite holds_null_child_In, Hch.
    unfold exceeds_capacity, leaf_without_tick, inverter_not_one_child,
      parallel_exceeds_bitmap, children_count_. rewrite Hch.
    split; [tauto|]. intros Hnn.
    repeat split; try lia; try exact Hnn;
      intros H; destruct Hty as [Hty|Hty]; rewrite Hty in H;
      destruct H as [H ?]; try (destruct H as [H|H]); discriminate. }
  split.
  { intros children policy m Hm.
    unfold MakeParallel, SetChildren in Hm.
    destruct (Nat.leb_spec (List.length children) kMaxChildren)
      as [Hle|Hgt]; [|discriminate].
    injection Hm as <-. split; [reflexivity|].
    match goal with
    | |- Validate _ ?x = _ <-> _ =>
        destruct (Validate_priority kMaxChildren x)
          as (_ & _ & _ & _ & _ & ->)
    end.
    rewrite holds_null_child_In.
    unfold exceeds_capacity, leaf_without_tick, inverter_not_one_child,
      parallel_exceeds_bitmap, children_count_. cbn.
    split.
    - intros (_ & Hnn & _ & _ & Hp). split; [exact Hnn|].
      destruct (Nat.le_gt_cases (List.length children) kMaxParallelChildren);
        [assumption|]. exfalso. apply Hp. split; [reflexivity|assumption].
    - intros (Hnn & Hp).
      repeat split; try lia; try exact Hnn.
      + intros ([H|H] & _); discriminate.
      + intros (H & _); discriminate. }
  intros tick Hleaf.
  split;
    match goal with
    | |- Validate _ ?x = _ <-> _ =>
        destruct (Validate_priority kMaxChildren x)
          as (_ & _ & _ & _ & _ & ->)
    end;
    rewrite holds_null_child_In;
    unfold exceeds_capacity, leaf_without_tick, inverter_not_one_child,
      parallel_exceeds_bitmap, children_count_; cbn; rewrite Hleaf; cbn;
    (split;
     [intros (_ & _ & Hl & _) Ht; apply Hl; auto
     |intros Ht; repeat split;
      [lia | tauto | intros (_ & H); auto
       | intros (H & _); discriminate | intros (H & _); discriminate]]).
Qed.

(** ** The names of the enumerators *)

(** X12.  The three renderers give distinct enumerators distinct names, and
    [NodeTypeToString] answers UNKNOWN for no node type of the enumeration.
    No node type is both a leaf type and a composite type, and the Inverter
    is the one node type of the enumeration that is neither. *)
Theorem Enumerator_names_are_distinct :
  (forall a b, StatusToString a = StatusToString b -> a = b) /\
  (forall a b, NodeTypeToString a = NodeTypeToString b -> a = b) /\
  (forall a b, ValidateErrorToString a = ValidateErrorToString b -> a = b) /\
  (forall t, NodeTypeToString t = "UNKNOWN"%string <-> t = kInvalidType) /\
  (forall t, IsLeafType t && IsCompositeType t = false) /\
  (forall t, IsLeafType t = false /\ IsCompositeType t = false <->
             t = kInverter \/ t = kInvalidType).
Proof.
  split; [intros [] []; cbn; intros H; first [reflexivity|discriminate]|].
  split; [intros [] []; cbn; intros H; first [reflexivity|discriminate]|].
  split; [intros [] []; cbn; intros H; first [reflexivity|discriminate]|].
  split; [intros []; cbn; split; intros H; first [reflexivity|discriminate]|].
  split; [intros []; reflexivity|].
  intros []; cbn; split; intros H; auto;
    try (destruct H as [H|H]; discriminate);
    destruct H; discriminate.
Qed.

(** ** Where the Running nodes of a tree are *)

Section RunningSlots.

Variable tick_child : Node Context -> Context -> Outcome Context.

Hypothesis tick_child_stored :
  forall c ctx,
    status_ (out_node (tick_child c ctx)) = out_status (tick_child c ctx).

(** A slot that holds a Running child after a scan is the slot whose tick
    ended the scan with Running, or a slot other than the start slot that
    the scan left as it was. *)
Lemma scan_children_running_slot (pass : Status) (start : nat) slots :
  pass <> kRunning ->
  forall i ctx j c',
    let s := scan_children tick_child pass start i slots ctx in
    nth_error (scan_slots s) j = Some (Some c') ->
    status_ c' = kRunning ->
    scan_exit s = ScanReturn (i + j) kRunning \/
    ((i + j)%nat <> start /\ nth_error slots j = Some (Some c')).
Proof.
  intros Hpass.
  induction slots as [|slot rest IH]; intros i ctx j c'; cbn [scan_children].
  - cbn. destruct j; discriminate.
  - destruct (Nat.ltb_spec i start) as [Hlt|Hge].
    + cbn [scan_cons scan_slots scan_exit]. destruct j as [|j]; cbn [nth_error].
      * intros Hj _. right. split; [lia|exact Hj].
      * intros Hj Hrun. replace (i + S j)%nat with (S i + j)%nat by lia.
        apply (IH (S i) ctx j c' Hj Hrun).
    + destruct slot as [c|].
      * pose proof (tick_child_stored c ctx) as Hst.
        destruct (Status_eqb (out_status (tick_child c ctx)) pass) eqn:Heq.
        -- cbn [scan_cons scan_slots scan_exit].
           destruct j as [|j]; cbn [nth_error].
           ++ intros Hj Hrun. injection Hj as <-. exfalso.
              rewrite Hst in Hrun. rewrite Hrun in Heq.
              destruct pass; cbn in Heq; congruence.
           ++ intros Hj Hrun. replace (i + S j)%nat with (S i + j)%nat by lia.
              apply (IH (S i) _ j c' Hj Hrun).
        -- cbn [scan_slots scan_exit]. destruct j as [|j]; cbn [nth_error].
           ++ intros Hj Hrun. injection Hj as <-. left.
              rewrite Hst in Hrun. rewrite Hrun, Nat.add_0_r. reflexivity.
           ++ intros Hj _. right. split; [lia|exact Hj].
      * cbn [scan_slots scan_exit]. destruct j as [|j]; cbn [nth_error].
        -- discriminate.
        -- intros Hj _. right. split; [lia|exact Hj].
Qed.

End RunningSlots.

Lemma scan_node_running_children (pass : Status) n ctx
      (o : Outcome Context) :
  pass <> kRunning ->
  type_ n = kSequence \/ type_ n = kSelector ->
  type_ (out_node o) = type_ n ->
  status_ (out_node o) = out_status o ->
  let s := scan_children Tick pass (entry_cursor n) 0 (children_ n) ctx in
  children_ (out_node o) = scan_slots s ->
  match scan_exit s with
  | ScanReturn k r => out_status o = r /\ current_child_ (out_node o) = k
  | _ => True
  end ->
  running_children_held n -> running_children_held (out_node o).
Proof.
  intros Hpass Hty Hty' Hst s Hch Hexit Hheld j c' Hj Hrun.
  unfold ChildAt in Hj. rewrite Hch in Hj.
  destruct (nth_error (scan_slots s) j) as [[c0|]|] eqn:Hn; try discriminate.
  injection Hj as ->.
  destruct (scan_children_running_slot Tick Tick_stored pass (entry_cursor n)
              (children_ n) Hpass 0 ctx j c' Hn Hrun) as [Hret|(Hne & Hold)].
  - fold s in Hret. rewrite Hret in Hexit. destruct Hexit as (Hr & Hk).
    right. rewrite Hst, Hty'. split; [exact Hr|]. left. split; [exact Hty|].
    exact Hk.
  - exfalso. cbn [Nat.add] in Hne.
    destruct (Hheld j c') as [Hpar|(Hr & [(_ & Hcur)|(Hinv & _)])];
      [unfold ChildAt; rewrite Hold; reflexivity|exact Hrun|..].
    + destruct Hty as [Hty|Hty]; congruence.
    + apply Hne. unfold entry_cursor. rewrite Hr. symmetry. exact Hcur.
    + destruct Hty as [Hty|Hty]; congruence.
Qed.

Lemma unchanged_node_running_children n n' :
  children_ n' = children_ n ->
  type_ n' = type_ n ->
  type_ n <> kParallel ->
  (status_ n = kRunning ->
   type_ n <> kSequence /\ type_ n <> kSelector /\
   (type_ n = kInverter -> children_count_ n <> 1%nat \/ children_ n = [None])) ->
  running_children_held n -> running_children_held n'.
Proof.
  intros Hch Hty Hnp Hshape Hheld j c Hj Hrun. exfalso.
  unfold ChildAt in Hj. rewrite Hch in Hj.
  destruct (Hheld j c Hj Hrun) as [Hpar|(Hr & Hcase)]; [congruence|].
  destruct (Hshape Hr) as (Hs1 & Hs2 & Hinv).
  destruct Hcase as [([H|H] & _)|(Hi & Hone)]; [congruence|congruence|].
  destruct (Hinv Hi) as [Hcount|Hnull]; [congruence|].
  unfold ChildAt in Hj. rewrite Hnull in Hj.
  destruct j as [|[|j]]; discriminate.
Qed.

Lemma Tick_node_running_children n ctx :
  running_children_held n -> running_children_held (out_node (Tick n ctx)).
Proof.
  intros Hheld.
  destruct (Tick_keeps_node_config n ctx) as (Hty' & _). cbn zeta in Hty'.
  pose proof (Tick_stored n ctx) as Hst.
  destruct (type_ n) eqn:Hty.
  - apply (unchanged_node_running_children n); auto; try congruence.
    + rewrite Tick_unfold, Hty. apply TickLeaf_children.
    + intros _. rewrite Hty. repeat split; congruence.
  - apply (unchanged_node_running_children n); auto; try congruence.
    + rewrite Tick_unfold, Hty. apply TickLeaf_children.
    + intros _. rewrite Hty. repeat split; congruence.
  - revert Hty' Hst. rewrite Tick_unfold, Hty. intros Hty' Hst.
    destruct (TickSequence_by_scan Tick n ctx) as (_ & Hch & Hexit).
    cbn zeta in Hch, Hexit.
    eapply (scan_node_running_children kSuccess n); eauto; try congruence.
    destruct (scan_exit _); auto.
  - revert Hty' Hst. rewrite Tick_unfold, Hty. intros Hty' Hst.
    destruct (TickSelector_by_scan Tick n ctx) as (_ & Hch & Hexit).
    cbn zeta in Hch, Hexit.
    eapply (scan_node_running_children kFailure n); eauto; try congruence.
    destruct (scan_exit _); auto.
  - intros j c _ _. left. congruence.
  - revert Hty' Hst. rewrite Tick_unfold, Hty. intros Hty' Hst.
    destruct (children_ n) as [|[c|] [|s2 rest]] eqn:Hc.
    + apply (unchanged_node_running_children n); auto; try congruence.
      * unfold TickInverter. rewrite Hc. cbn. auto.
      * intros _. rewrite Hty. repeat split; try congruence.
        intros _. left. unfold children_count_. rewrite Hc. discriminate.
    + destruct (TickInverter_over_child Tick n ctx c Hc) as (Hs & _ & Hch).
      cbn zeta in Hs, Hch.
      intros j c' Hj Hrun. right.
      unfold ChildAt in Hj. rewrite Hch in Hj.
      destruct j as [|[|j]]; try discriminate. injection Hj as <-.
      rewrite Tick_stored in Hrun.
      rewrite Hst, Hs, Hrun. split; [reflexivity|]. right.
      split; [congruence|]. unfold children_count_. rewrite Hch. reflexivity.
    + apply (unchanged_node_running_children n); auto; try congruence.
      * unfold TickInverter. rewrite Hc. cbn. auto.
      * intros _. rewrite Hty. repeat split; try congruence.
        intros _. left. unfold children_count_. rewrite Hc. discriminate.
    + apply (unchanged_node_running_children n); auto; try congruence.
      * unfold TickInverter. rewrite Hc. cbn. auto.
      * intros _. rewrite Hty. repeat split; try congruence.
        intros _. right. exact Hc.
    + apply (unchanged_node_running_children n); auto; try congruence.
      * unfold TickInverter. rewrite Hc. cbn. auto.
      * intros _. rewrite Hty. repeat split; try congruence.
        intros _. left. unfold children_count_. rewrite Hc. discriminate.
  - apply (unchanged_node_running_children n); auto; try congruence.
    + rewrite Tick_unfold, Hty. reflexivity.
    + intros _. rewrite Hty. repeat split; congruence.
Qed.

Lemma Tick_tree_running_children n :
  Forall running_children_held (preorder n) ->
  forall ctx, Forall running_children_held (preorder (out_node (Tick n ctx))).
Proof.
  induction n as [n IH] using Node_tree_ind. intros Hall ctx.
  apply Forall_preorder in Hall. destruct Hall as (Hn & Hch).
  apply Forall_preorder.
  split; [apply Tick_node_running_children; exact Hn|].
  destruct (Tick_provenance n ctx) as (Hs & _). revert IH Hch.
  induction Hs as [|x y l l' Hxy _ IHl]; intros IH Hch; constructor.
  - inversion IH as [|? ? Hx _]; inversion Hch as [|? ? Hqx _]; subst.
    destruct Hxy as [|x y [->|(ctx' & ->)]]; cbn in *; auto.
  - inversion IH; inversion Hch; subst. apply IHl; assumption.
Qed.

Lemma settled_root_settled_tree n :
  Forall running_children_held (preorder n) ->
  Forall (fun d => type_ d <> kParallel) (preorder n) ->
  status_ n <> kRunning ->
  Forall (fun d => status_ d <> kRunning) (preorder n).
Proof.
  induction n as [n IH] using Node_tree_ind. intros Hheld Hnp Hroot.
  apply Forall_preorder in Hheld. destruct Hheld as (Hn & Hch).
  apply Forall_preorder in Hnp. destruct Hnp as (Hnpn & Hnpch).
  apply Forall_preorder. split; [exact Hroot|].
  assert (Hkids : forall i c, nth_error (children_ n) i = Some (Some c) ->
                              status_ c <> kRunning).
  { intros i c Hi Hrun.
    destruct (Hn i c) as [Hpar|(Hr & _)];
      [unfold ChildAt; rewrite Hi; reflexivity|exact Hrun|congruence..]. }
  clear Hn Hroot Hnpn. revert IH Hch Hnpch Hkids.
  induction (children_ n) as [|[c|] rest IHl]; intros IH Hch Hnpch Hkids;
    constructor; cbn.
  - inversion IH as [|? ? Hx _]; inversion Hch as [|? ? Hc _];
      inversion Hnpch as [|? ? Hp _]; subst. cbn in *.
    apply Hx; auto. apply (Hkids 0%nat c). reflexivity.
  - inversion IH; inversion Hch; inversion Hnpch; subst.
    apply IHl; auto. intros i c' Hi. apply (Hkids (S i) c'). exact Hi.
  - exact I.
  - inversion IH; inversion Hch; inversion Hnpch; subst.
    apply IHl; auto. intros i c' Hi. apply (Hkids (S i) c'). exact Hi.
Qed.

(** X13.  The Running nodes of a tree hang together.  In a tree of idle
    nodes, and from there on after any number of ticks, a child is Running
    only under a Parallel node, or under a Running parent that waits for it:
    a Sequence or Selector whose cursor is at the child, or an Inverter over
    that one child.  So in such a tree without Parallel nodes, a root that
    is not Running has no Running node below it. *)
Theorem Running_nodes_hang_together n :
  (Forall idle (preorder n) -> Forall running_children_held (preorder n)) /\
  (Forall running_children_held (preorder n) ->
   forall ctxs,
     Forall (fun o => Forall running_children_held (preorder (out_node o)))
            (run_cycles n ctxs)) /\
  (Forall running_children_held (preorder n) ->
   Forall (fun d => type_ d <> kParallel) (preorder n) ->
   status_ n <> kRunning ->
   Forall (fun d => status_ d <> kRunning) (preorder n)).
Proof.
  split; [|split; [|apply settled_root_settled_tree]].
  - intros Hidle.
    assert (Hset : Forall (fun d => status_ d <> kRunning) (preorder n)).
    { revert Hidle. apply Forall_impl. intros d (Hs & _). congruence. }
    clear Hidle. induction n as [n IH] using Node_tree_ind.
    apply Forall_preorder in Hset. destruct Hset as (_ & Hch).
    apply Forall_preorder. split.
    + intros i c Hi Hrun. exfalso. unfold ChildAt in Hi.
      destruct (nth_error (children_ n) i) as [[c0|]|] eqn:Hn;
        try discriminate.
      injection Hi as ->. apply nth_error_In in Hn.
      rewrite Forall_forall in Hch. specialize (Hch _ Hn). cbn in Hch.
      apply Forall_preorder in Hch. destruct Hch as (Hc & _). congruence.
    + revert IH Hch. induction (children_ n) as [|[c|] rest IHl];
        intros IH Hch; constructor; cbn;
        inversion IH; inversion Hch; subst; cbn in *; auto.
  - intros Hn ctxs. revert n Hn.
    induction ctxs as [|ctx rest IH]; intros n Hn; cbn [run_cycles];
      constructor.
    + apply Tick_tree_running_children. exact Hn.
    + apply IH. apply Tick_tree_running_children. exact Hn.
Qed.

(** ** What a tick reads of the stored state *)

Lemma running_iff_cases (s s' : Status) :
  (s = kRunning <-> s' = kRunning) ->
  (s = kRunning /\ s' = kRunning) \/ (s <> kRunning /\ s' <> kRunning).
Proof.
  intros H. destruct s, s';
    try (left; split; reflexivity);
    try (right; split; discriminate);
    exfalso; destruct H as [H1 H2];
    first [specialize (H1 eq_refl); discriminate
          |specialize (H2 eq_refl); discriminate].
Qed.

Lemma enter_if_fresh_alike (a b : Node Context) ctx :
  (status_ a = kRunning <-> status_ b = kRunning) ->
  on_enter_ a = on_enter_ b ->
  enter_if_fresh a ctx = enter_if_fresh b ctx /\
  enter_events a = enter_events b.
Proof.
  intros Hrun Hen. unfold enter_if_fresh, enter_events, CallEnter.
  rewrite <- Hen.
  destruct (running_iff_cases _ _ Hrun) as [(Ha & Hb)|(Ha & Hb)].
  - rewrite Ha, Hb. auto.
  - destruct (status_ a), (status_ b); try congruence; auto.
Qed.

Lemma exit_if_finished_alike (a b : Node Context) r ctx :
  on_exit_ a = on_exit_ b ->
  exit_if_finished a r ctx = exit_if_finished b r ctx /\
  exit_events a r = exit_events b r.
Proof.
  intros Hex. unfold exit_if_finished, exit_events, CallExit.
  rewrite <- Hex. auto.
Qed.

Lemma entry_cursor_alike (a b : Node Context) :
  (status_ a = kRunning <-> status_ b = kRunning) ->
  (status_ a = kRunning -> current_child_ a = current_child_ b) ->
  entry_cursor a = entry_cursor b.
Proof.
  intros Hrun Hcur. unfold entry_cursor.
  destruct (running_iff_cases _ _ Hrun) as [(Ha & Hb)|(Ha & Hb)].
  - rewrite Ha, Hb. auto.
  - destruct (status_ a), (status_ b); try congruence; auto.
Qed.

Lemma entry_state_alike (a b : Node Context) :
  (status_ a = kRunning <-> status_ b = kRunning) ->
  (status_ a = kRunning ->
   child_done_bits_ a = child_done_bits_ b /\
   child_success_bits_ a = child_success_bits_ b) ->
  entry_state a = entry_state b.
Proof.
  intros Hrun Hbits. unfold entry_state.
  destruct (running_iff_cases _ _ Hrun) as [(Ha & Hb)|(Ha & Hb)].
  - rewrite Ha, Hb. destruct (Hbits Ha) as (-> & ->). reflexivity.
  - destruct (status_ a), (status_ b); try congruence; auto.
Qed.

Lemma TickSequence_ctx
      (tick_child : Node Context -> Context -> Outcome Context) n ctx :
  let s := scan_children tick_child kSuccess (entry_cursor n) 0
                         (children_ n) (fst (enter_if_fresh n ctx)) in
  let o := TickSequence tick_child n ctx in
  out_ctx o = fst (exit_if_finished n (out_status o) (scan_ctx s)).
Proof.
  unfold TickSequence, enter_if_fresh, entry_cursor, exit_if_finished,
    CallEnter, CallExit.
  destruct (status_ n), (on_enter_ n);
    cbn [fst snd current_child_ set_current_child set_children set_status
         on_exit_];
    rewrite TickSequence_loop_scan;
    destruct (scan_exit _) as [k|k [ | | | ]|];
    cbn [on_exit_ set_status set_current_child set_children];
    destruct (on_exit_ n); reflexivity.
Qed.

Lemma TickSelector_ctx
      (tick_child : Node Context -> Context -> Outcome Context) n ctx :
  let s := scan_children tick_child kFailure (entry_cursor n) 0
                         (children_ n) (fst (enter_if_fresh n ctx)) in
  let o := TickSelector tick_child n ctx in
  out_ctx o = fst (exit_if_finished n (out_status o) (scan_ctx s)).
Proof.
  unfold TickSelector, enter_if_fresh, entry_cursor, exit_if_finished,
    CallEnter, CallExit.
  destruct (status_ n), (on_enter_ n);
    cbn [fst snd current_child_ set_current_child set_children set_status
         on_exit_];
    rewrite TickSelector_loop_scan;
    destruct (scan_exit _) as [k|k [ | | | ]|];
    cbn [on_exit_ set_status set_current_child set_children];
    destruct (on_exit_ n); reflexivity.
Qed.

Lemma TickInverter_ctx
      (tick_child : Node Context -> Context -> Outcome Context) n ctx c :
  children_ n = [Some c] ->
  let o := TickInverter tick_child n ctx in
  let oc := tick_child c (fst (enter_if_fresh n ctx)) in
  out_ctx o = fst (exit_if_finished n (out_status o) (out_ctx oc)).
Proof.
  intros Hc. unfold TickInverter, enter_if_fresh, exit_if_finished,
    CallEnter, CallExit. rewrite Hc.
  destruct (status_ n), (on_enter_ n); cbn;
    match goal with
    | |- context [tick_child c ?x] => destruct (out_status (tick_child c x))
    end; cbn; destruct (on_exit_ n); reflexivity.
Qed.

Section Alike.

Variable tick_child : Node Context -> Context -> Outcome Context.

(** The children of the left list tick alike with whatever resumes as they
    do, and leave nodes that resume alike again. *)
Let ticks_alike (c : Node Context) : Prop :=
  forall c', same_resumption c c' ->
             forall ctx,
               same_observation (tick_child c ctx) (tick_child c' ctx) /\
               same_resumption (out_node (tick_child c ctx))
                               (out_node (tick_child c' ctx)).

Lemma scan_children_alike (pass : Status) (start : nat) slots slots' :
  Forall2 (slot_rel same_resumption) slots slots' ->
  Forall (slot_all ticks_alike) slots ->
  forall i ctx,
    let s := scan_children tick_child pass start i slots ctx in
    let s' := scan_children tick_child pass start i slots' ctx in
    scan_exit s = scan_exit s' /\ scan_ctx s = scan_ctx s' /\
    scan_events s = scan_events s' /\
    Forall2 (slot_rel same_resumption) (scan_slots s) (scan_slots s').
Proof.
  induction 1 as [|x y l l' Hxy Hrest IH]; intros Hall i ctx;
    cbn [scan_children].
  - cbn. repeat split; constructor.
  - inversion Hall as [|? ? Hx Hl]; subst.
    destruct (i <? start)%nat.
    + destruct (IH Hl (S i) ctx) as (H1 & H2 & H3 & H4).
      cbn [scan_cons scan_exit scan_ctx scan_events scan_slots].
      rewrite H1, H2, H3. repeat split. constructor; assumption.
    + destruct Hxy as [|c c' Hcc'].
      * cbn. repeat split. constructor; [constructor|exact Hrest].
      * cbn in Hx. destruct (Hx c' Hcc' ctx) as ((Hs & Hc & He) & Hn).
        rewrite <- Hs, <- Hc, <- He.
        destruct (Status_eqb (out_status (tick_child c ctx)) pass).
        -- destruct (IH Hl (S i) (out_ctx (tick_child c ctx)))
             as (H1 & H2 & H3 & H4).
           cbn [scan_cons scan_exit scan_ctx scan_events scan_slots].
           rewrite H1, H2, H3. repeat split.
           constructor; [constructor; exact Hn|exact H4].
        -- cbn. repeat split.
           constructor; [constructor; exact Hn|exact Hrest].
Qed.

Lemma par_loop_alike slots slots' :
  Forall2 (slot_rel same_resumption) slots slots' ->
  Forall (slot_all ticks_alike) slots ->
  forall i (st : ParState) ctx,
    let s := TickParallel_loop tick_child i slots st ctx in
    let s' := TickParallel_loop tick_child i slots' st ctx in
    pscan_state s = pscan_state s' /\ pscan_ctx s = pscan_ctx s' /\
    pscan_events s = pscan_events s' /\
    Forall2 (slot_rel same_resumption) (pscan_slots s) (pscan_slots s').
Proof.
  induction 1 as [|x y l l' Hxy Hrest IH]; intros Hall i st ctx.
  - cbn. repeat split; constructor.
  - inversion Hall as [|? ? Hx Hl]; subst.
    rewrite !par_loop_cons. cbn zeta.
    assert (Hbody :
      step_state (TickParallel_body tick_child i x st ctx)
      = step_state (TickParallel_body tick_child i y st ctx) /\
      step_ctx (TickParallel_body tick_child i x st ctx)
      = step_ctx (TickParallel_body tick_child i y st ctx) /\
      step_events (TickParallel_body tick_child i x st ctx)
      = step_events (TickParallel_body tick_child i y st ctx) /\
      slot_rel same_resumption
               (step_slot (TickParallel_body tick_child i x st ctx))
               (step_slot (TickParallel_body tick_child i y st ctx))).
    { unfold TickParallel_body.
      destruct (bit_test (par_done st) (bit_mask i)).
      - destruct (bit_test (par_success st) (bit_mask i)); cbn; auto.
      - destruct Hxy as [|c c' Hcc']; [cbn; repeat split; constructor|].
        cbn in Hx. destruct (Hx c' Hcc' ctx) as ((Hs & Hc & He) & Hn).
        cbn zeta. rewrite <- Hs, <- Hc, <- He. cbn.
        repeat split. constructor. exact Hn. }
    destruct Hbody as (B1 & B2 & B3 & B4).
    rewrite <- B1, <- B2, <- B3.
    destruct (IH Hl (S i) (step_state (TickParallel_body tick_child i x st ctx))
                 (step_ctx (TickParallel_body tick_child i x st ctx)))
      as (H1 & H2 & H3 & H4).
    cbn [pscan_cons pscan_state pscan_ctx pscan_events pscan_slots].
    rewrite H1, H2, H3. repeat split. constructor; assumption.
Qed.

(** A Sequence or Selector, from what [TickSequence_by_scan] and
    [TickSelector_by_scan] say of both outcomes. *)
Lemma scan_node_alike (pass end_status : Status) (a b : Node Context) ctx
      (oa ob : Outcome Context) :
  let sa := scan_children tick_child pass (entry_cursor a) 0 (children_ a)
                          (fst (enter_if_fresh a ctx)) in
  let sb := scan_children tick_child pass (entry_cursor b) 0 (children_ b)
                          (fst (enter_if_fresh b ctx)) in
  (out_events oa
   = enter_events a ++ scan_events sa ++ exit_events a (out_status oa) /\
   children_ (out_node oa) = scan_slots sa /\
   match scan_exit sa with
   | ScanNull _ =>
       out_status oa = kError /\ current_child_ (out_node oa) = entry_cursor a
   | ScanReturn k r => out_status oa = r /\ current_child_ (out_node oa) = k
   | ScanEnd =>
       out_status oa = end_status /\
       current_child_ (out_node oa) = entry_cursor a
   end) ->
  out_ctx oa = fst (exit_if_finished a (out_status oa) (scan_ctx sa)) ->
  (out_events ob
   = enter_events b ++ scan_events sb ++ exit_events b (out_status ob) /\
   children_ (out_node ob) = scan_slots sb /\
   match scan_exit sb with
   | ScanNull _ =>
       out_status ob = kError /\ current_child_ (out_node ob) = entry_cursor b
   | ScanReturn k r => out_status ob = r /\ current_child_ (out_node ob) = k
   | ScanEnd =>
       out_status ob = end_status /\
       current_child_ (out_node ob) = entry_cursor b
   end) ->
  out_ctx ob = fst (exit_if_finished b (out_status ob) (scan_ctx sb)) ->
  type_ a = kSequence \/ type_ a = kSelector ->
  same_resumption a b ->
  Forall (slot_all ticks_alike) (children_ a) ->
  same_observation oa ob /\
  Forall2 (slot_rel same_resumption)
          (children_ (out_node oa)) (children_ (out_node ob)) /\
  current_child_ (out_node oa) = current_child_ (out_node ob).
Proof.
  intros sa sb (Eva & Cha & Xa) Ca (Evb & Chb & Xb) Cb Hty Hab Hall.
  inversion Hab as [? ? _ _ Hen Hex _ Hrun Hcur _ Hch]; subst.
  pose proof (entry_cursor_alike a b Hrun (fun H => Hcur H Hty)) as Hec.
  destruct (enter_if_fresh_alike a b ctx Hrun Hen) as (Hef & Hee).
  subst sb. rewrite <- Hec, <- Hef in *.
  destruct (scan_children_alike pass (entry_cursor a) _ _ Hch Hall 0
              (fst (enter_if_fresh a ctx))) as (H1 & H2 & H3 & H4).
  fold sa in H1, H2, H3, H4. rewrite <- H1, <- H2, <- H3 in *.
  assert (Hst : out_status oa = out_status ob /\
                current_child_ (out_node oa) = current_child_ (out_node ob)).
  { destruct (scan_exit sa) as [k|k r|];
      destruct Xa as (-> & ->), Xb as (-> & ->); auto. }
  destruct Hst as (Hst & Hcc).
  destruct (exit_if_finished_alike a b (out_status oa) (scan_ctx sa) Hex)
    as (Hxf & Hxe).
  split; [|split; [rewrite Cha, Chb; exact H4|exact Hcc]].
  split; [exact Hst|]. split.
  - rewrite Ca, Cb, <- Hst, Hxf. reflexivity.
  - rewrite Eva, Evb, <- Hst, Hee, Hxe. reflexivity.
Qed.

End Alike.

Lemma Tick_alike (a : Node Context) :
  forall b, same_resumption a b ->
            forall ctx,
              same_observation (Tick a ctx) (Tick b ctx) /\
              same_resumption (out_node (Tick a ctx)) (out_node (Tick b ctx)).
Proof.
  induction a as [a IH] using Node_tree_ind. intros b Hab ctx.
  inversion Hab as [? ? Hty Htk Hen Hex Hpol Hrun Hcur Hbits Hch]; subst.
  assert (Hparts :
    same_observation (Tick a ctx) (Tick b ctx) /\
    Forall2 (slot_rel same_resumption)
            (children_ (out_node (Tick a ctx)))
            (children_ (out_node (Tick b ctx))) /\
    (type_ a = kSequence \/ type_ a = kSelector ->
     current_child_ (out_node (Tick a ctx))
     = current_child_ (out_node (Tick b ctx))) /\
    (type_ a = kParallel ->
     child_done_bits_ (out_node (Tick a ctx))
     = child_done_bits_ (out_node (Tick b ctx)) /\
     child_success_bits_ (out_node (Tick a ctx))
     = child_success_bits_ (out_node (Tick b ctx)))).
  { destruct (enter_if_fresh_alike a b ctx Hrun Hen) as (Hef & Hee).
    assert (Hleaf :
      same_observation (TickLeaf a ctx) (TickLeaf b ctx) /\
      Forall2 (slot_rel same_resumption)
              (children_ (out_node (TickLeaf a ctx)))
              (children_ (out_node (TickLeaf b ctx)))).
    { rewrite !TickLeaf_children. split; [|exact Hch].
      unfold TickLeaf. rewrite <- Htk, <- Hef.
      destruct (tick_ a) as [f|]; [|repeat split].
      destruct (enter_if_fresh a ctx) as [ctx1 ev1].
      destruct (f ctx1) as [r ctx2].
      destruct (exit_if_finished_alike (set_status a r) (set_status b r)
                  r ctx2 Hex) as (<- & _).
      destruct (exit_if_finished (set_status a r) r ctx2).
      repeat split. }
    rewrite (Tick_unfold a), (Tick_unfold b), <- Hty.
    destruct (type_ a) eqn:Hta.
    - destruct Hleaf as (Ho & Hc).
      split; [exact Ho|split; [exact Hc|]].
      split; intros H; try destruct H as [H|H]; discriminate.
    - destruct Hleaf as (Ho & Hc).
      split; [exact Ho|split; [exact Hc|]].
      split; intros H; try destruct H as [H|H]; discriminate.
    - destruct (scan_node_alike Tick kSuccess kSuccess a b ctx
                  (TickSequence Tick a ctx) (TickSequence Tick b ctx)
                  (TickSequence_by_scan Tick a ctx)
                  (TickSequence_ctx Tick a ctx)
                  (TickSequence_by_scan Tick b ctx)
                  (TickSequence_ctx Tick b ctx))
        as (Ho & Hc & Hk); auto.
      split; [exact Ho|split; [exact Hc|]].
      split; [intros _; exact Hk|intros H; discriminate].
    - destruct (scan_node_alike Tick kFailure kFailure a b ctx
                  (TickSelector Tick a ctx) (TickSelector Tick b ctx)
                  (TickSelector_by_scan Tick a ctx)
                  (TickSelector_ctx Tick a ctx)
                  (TickSelector_by_scan Tick b ctx)
                  (TickSelector_ctx Tick b ctx))
        as (Ho & Hc & Hk); auto.
      split; [exact Ho|split; [exact Hc|]].
      split; [intros _; exact Hk|intros H; discriminate].
    - destruct (TickParallel_by_loop Tick a ctx)
        as (Sa & Ea & Ca & Da & Ua & Xa & _).
      destruct (TickParallel_by_loop Tick b ctx)
        as (Sb & Eb & Cb & Db & Ub & Xb & _).
      cbn zeta in *.
      rewrite <- (entry_state_alike a b Hrun (fun H => Hbits H eq_refl)),
        <- Hef, <- Hpol in *.
      destruct (par_loop_alike Tick _ _ Hch IH 0 (entry_state a)
                  (fst (enter_if_fresh a ctx))) as (H1 & H2 & H3 & H4).
      cbn zeta in H1, H2, H3, H4. rewrite <- H1, <- H2, <- H3 in *.
      assert (Hst : out_status (TickParallel Tick a ctx)
                    = out_status (TickParallel Tick b ctx)) by congruence.
      destruct (exit_if_finished_alike a b
                  (out_status (TickParallel Tick a ctx))
                  (pscan_ctx (TickParallel_loop Tick 0 (children_ a)
                                (entry_state a) (fst (enter_if_fresh a ctx))))
                  Hex) as (Hxf & Hxe).
      split; [|split; [rewrite Ca, Cb; exact H4|split]].
      + split; [exact Hst|]. split.
        * rewrite Xa, Xb, <- Hst, Hxf. reflexivity.
        * rewrite Ea, Eb, <- Hst, Hee, Hxe. reflexivity.
      + intros [H|H]; discriminate.
      + intros _. rewrite Da, Db, Ua, Ub. auto.
    - assert (Hshape :
        (exists c c', children_ a = [Some c] /\ children_ b = [Some c'] /\
                      same_resumption c c' /\
                      (forall ctx,
                          same_observation (Tick c ctx) (Tick c' ctx) /\
                          same_resumption (out_node (Tick c ctx))
                                          (out_node (Tick c' ctx)))) \/
        (TickInverter Tick a ctx
         = mkOutcome kError (set_status a kError) ctx [] /\
         TickInverter Tick b ctx
         = mkOutcome kError (set_status b kError) ctx [])).
      { unfold TickInverter.
        remember (children_ b) as cb eqn:Hcb.
        destruct (children_ a) as [|x [|x2 l]] eqn:Hca.
        - inversion Hch; subst. right. auto.
        - inversion Hch as [|? y ? l' Hxy Hrest]; subst.
          inversion Hrest; subst.
          destruct Hxy as [|c c' Hcc']; [right; auto|]. left.
          exists c, c'. split; [reflexivity|]. split; [reflexivity|].
          split; [exact Hcc'|].
          inversion IH as [|? ? Hc _]; subst.
          intros ctx'. apply (Hc c' Hcc' ctx').
        - inversion Hch as [|? y ? l' Hxy Hrest]; subst.
          inversion Hrest; subst. right. destruct Hxy; auto. }
      destruct Hshape as [(c & c' & Hca & Hcb & Hcc' & Hbis)|(-> & ->)].
      + destruct (TickInverter_over_child Tick a ctx c Hca)
          as (Sa & Ea & Ca).
        destruct (TickInverter_over_child Tick b ctx c' Hcb)
          as (Sb & Eb & Cb).
        cbn zeta in *. rewrite <- Hef in *.
        destruct (Hbis (fst (enter_if_fresh a ctx))) as ((Hs & Hc & He) & Hn).
        assert (Hst : out_status (TickInverter Tick a ctx)
                      = out_status (TickInverter Tick b ctx)) by congruence.
        split; [|split; [rewrite Ca, Cb;
                         constructor; [constructor; exact Hn|constructor]
                        |split]].
        * split; [exact Hst|]. split.
          -- pose proof (TickInverter_ctx Tick a ctx c Hca) as Xa.
             pose proof (TickInverter_ctx Tick b ctx c' Hcb) as Xb.
             cbn zeta in Xa, Xb. rewrite <- Hef in Xb.
             destruct (exit_if_finished_alike a b
                         (out_status (TickInverter Tick a ctx))
                         (out_ctx (Tick c (fst (enter_if_fresh a ctx)))) Hex)
               as (Hxf & _).
             rewrite Xa, Xb, <- Hst, <- Hc, Hxf. reflexivity.
          -- destruct (exit_if_finished_alike a b
                         (out_status (TickInverter Tick a ctx)) ctx Hex)
               as (_ & Hxe).
             rewrite Ea, Eb, <- Hst, <- Hs, <- He, Hee, Hxe. reflexivity.
        * intros [H|H]; discriminate.
        * intros H; discriminate.
      + cbn. split; [repeat split|split; [exact Hch|]].
        split; intros H; try destruct H as [H|H]; discriminate.
    - cbn. split; [repeat split|split; [exact Hch|]].
      split; intros H; try destruct H as [H|H]; discriminate. }
  destruct Hparts as (Hobs & Hkids & Hk & Hb).
  split; [exact Hobs|].
  destruct (Tick_keeps_node_config a ctx) as (A1 & A2 & A3 & A4 & A5 & _).
  destruct (Tick_keeps_node_config b ctx) as (B1 & B2 & B3 & B4 & B5 & _).
  cbn zeta in *.
  constructor; try congruence.
  - rewrite !Tick_stored. destruct Hobs as (-> & _). tauto.
  - intros _. rewrite A1. exact Hk.
  - intros _. rewrite A1. exact Hb.
Qed.

Lemma run_cycles_alike ctxs :
  forall a b : Node Context,
    same_resumption a b ->
    Forall2 same_observation (run_cycles a ctxs) (run_cycles b ctxs).
Proof.
  induction ctxs as [|ctx rest IH]; intros a b Hab; cbn [run_cycles];
    constructor.
  - apply Tick_alike. exact Hab.
  - apply IH. apply Tick_alike. exact Hab.
Qed.

Lemma settled_resumes_as_Reset (a : Node Context) :
  Forall (fun d => status_ d <> kRunning) (preorder a) ->
  same_resumption a (Reset a).
Proof.
  induction a as [a IH] using Node_tree_ind. intros Hset.
  apply Forall_preorder in Hset. destruct Hset as (Ha & Hch).
  rewrite Reset_unfold. constructor; cbn; try reflexivity; try tauto.
  - split; [tauto|discriminate].
  - revert IH Hch. induction (children_ a) as [|[c|] rest IHl];
      intros IH Hch; cbn [Reset_loop]; constructor;
      inversion IH; inversion Hch; subst; cbn in *; auto;
      constructor; auto.
Qed.

(** X14.  A tick reads of the stored state only whether a node is Running
    and, of a Running node, the cursor of a Sequence or Selector and the
    bitmaps of a Parallel: two trees of one configuration that agree on
    these return the same statuses, leave the same contexts and make the
    same calls, over any number of ticks.  So a tree in which no node is
    Running ticks as it does after [Reset]. *)
Theorem Tick_reads_only_the_resume_state (a b : Node Context) ctxs :
  (same_resumption a b ->
   Forall2 same_observation (run_cycles a ctxs) (run_cycles b ctxs)) /\
  (Forall (fun d => status_ d <> kRunning) (preorder a) ->
   same_resumption a (Reset a) /\
   Forall2 same_observation (run_cycles a ctxs) (run_cycles (Reset a) ctxs)).
Proof.
  split; [apply run_cycles_alike|].
  intros Hset. split; [apply settled_resumes_as_Reset; exact Hset|].
  apply run_cycles_alike, settled_resumes_as_Reset. exact Hset.
Qed.

(** ** What a Running node waits on *)

Section RunningChild.

Variable tick_child : Node Context -> Context -> Outcome Context.

Hypothesis tick_child_stored :
  forall c ctx,
    status_ (out_node (tick_child c ctx)) = out_status (tick_child c ctx).

Lemma scan_return_running_slot (pass : Status) (start : nat) slots :
  forall i ctx k,
    let s := scan_children tick_child pass start i slots ctx in
    scan_exit s = ScanReturn k kRunning ->
    (i <= k)%nat /\
    exists c', nth_error (scan_slots s) (k - i) = Some (Some c') /\
               status_ c' = kRunning.
Proof.
  induction slots as [|slot rest IH]; intros i ctx k; cbn [scan_children].
  - cbn. discriminate.
  - destruct (Nat.ltb_spec i start) as [Hlt|Hge].
    + cbn [scan_cons scan_slots scan_exit]. intros Hex.
      destruct (IH (S i) ctx k Hex) as (Hk & c' & Hn & Hs).
      split; [lia|]. exists c'.
      replace (k - i)%nat with (S (k - S i)) by lia. auto.
    + destruct slot as [c|]; [|cbn; discriminate].
      pose proof (tick_child_stored c ctx) as Hst.
      destruct (Status_eqb (out_status (tick_child c ctx)) pass).
      * cbn [scan_cons scan_slots scan_exit]. intros Hex.
        destruct (IH (S i) _ k Hex) as (Hk & c' & Hn & Hs).
        split; [lia|]. exists c'.
        replace (k - i)%nat with (S (k - S i)) by lia. auto.
      * cbn [scan_slots scan_exit]. intros Hex. injection Hex as <- Hr.
        split; [lia|]. exists (out_node (tick_child c ctx)).
        rewrite Nat.sub_diag. split; [reflexivity|congruence].
Qed.

Lemma body_running_count i slot (st : ParState) ctx :
  let b := TickParallel_body tick_child i slot st ctx in
  running_count (step_state b) = running_count st \/
  (running_count (step_state b) = S (running_count st) /\
   exists c', step_slot b = Some c' /\ status_ c' = kRunning).
Proof.
  unfold TickParallel_body.
  destruct (bit_test (par_done st) (bit_mask i)).
  - destruct (bit_test (par_success st) (bit_mask i)); cbn; auto.
  - destruct slot as [c|]; [|cbn; auto].
    pose proof (tick_child_stored c ctx) as Hst. cbn zeta.
    destruct (out_status (tick_child c ctx)) eqn:Hr; cbn; auto.
    right. split; [reflexivity|]. eexists. split; [reflexivity|exact Hst].
Qed.

Lemma par_loop_running_slot slots :
  forall i (st : ParState) ctx,
    let s := TickParallel_loop tick_child i slots st ctx in
    (running_count st < running_count (pscan_state s))%nat ->
    exists j c', nth_error (pscan_slots s) j = Some (Some c') /\
                 status_ c' = kRunning.
Proof.
  induction slots as [|slot rest IH]; intros i st ctx.
  - cbn. lia.
  - rewrite par_loop_cons. cbn zeta.
    cbn [pscan_cons pscan_state pscan_slots]. intros Hlt.
    destruct (body_running_count i slot st ctx) as [Heq|(_ & c' & Hc & Hs)].
    + destruct (IH (S i) _ _ ltac:(rewrite Heq; exact Hlt))
        as (j & c' & Hn & Hs).
      exists (S j), c'. auto.
    + exists 0%nat, c'. cbn [nth_error]. rewrite Hc. auto.
Qed.

End RunningChild.

Lemma evaluate_policy_running (p : ParallelPolicy) (st : ParState) :
  evaluate_policy p st = kRunning -> (0 < running_count st)%nat.
Proof.
  unfold evaluate_policy.
  destruct p;
    repeat match goal with
           | |- context [(0 <? ?x)%nat] =>
               destruct (Nat.ltb_spec 0 x)
           end; intros Hr; first [discriminate|assumption].
Qed.

(** Whatever the state before, a node that [Tick] leaves Running is a leaf
    or holds a Running child. *)
Lemma Tick_leaves_waiting n ctx :
  waits_on_running_child (out_node (Tick n ctx)).
Proof.
  intros Hrun. rewrite Tick_stored in Hrun.
  destruct (Tick_keeps_node_config n ctx) as (Hty' & _). cbn zeta in Hty'.
  rewrite Hty'. revert Hrun. rewrite Tick_unfold.
  destruct (type_ n) eqn:Hty; try (intros _; left; reflexivity).
  - destruct (TickSequence_by_scan Tick n ctx) as (_ & Hch & Hexit).
    cbn zeta in Hch, Hexit. intros Hrun. right.
    destruct (scan_exit _) as [k|k r|] eqn:Hex;
      destruct Hexit as (Hs & Hk); try congruence.
    rewrite Hs in Hrun. rewrite Hrun in Hex.
    destruct (scan_return_running_slot Tick Tick_stored _ _ _ _ _ _ Hex)
      as (_ & c' & Hn & Hc').
    rewrite Nat.sub_0_r in Hn. exists k, c'.
    unfold ChildAt. rewrite Hch, Hn. auto.
  - destruct (TickSelector_by_scan Tick n ctx) as (_ & Hch & Hexit).
    cbn zeta in Hch, Hexit. intros Hrun. right.
    destruct (scan_exit _) as [k|k r|] eqn:Hex;
      destruct Hexit as (Hs & Hk); try congruence.
    rewrite Hs in Hrun. rewrite Hrun in Hex.
    destruct (scan_return_running_slot Tick Tick_stored _ _ _ _ _ _ Hex)
      as (_ & c' & Hn & Hc').
    rewrite Nat.sub_0_r in Hn. exists k, c'.
    unfold ChildAt. rewrite Hch, Hn. auto.
  - destruct (TickParallel_by_loop Tick n ctx) as (Hs & _ & Hch & _).
    cbn zeta in Hs, Hch. intros Hrun. right.
    rewrite Hs in Hrun. apply evaluate_policy_running in Hrun.
    destruct (par_loop_running_slot Tick Tick_stored (children_ n) 0
                (entry_state n) (fst (enter_if_fresh n ctx)))
      as (j & c' & Hn & Hc').
    { destruct (entry_state_counts n) as (-> & _). exact Hrun. }
    exists j, c'. unfold ChildAt. rewrite Hch, Hn.
    split; [reflexivity|]. split; [exact Hc'|].
    intros [H|H]; discriminate.
  - intros Hrun. right.
    destruct (children_ n) as [|[c|] [|s2 rest]] eqn:Hc;
      try (exfalso; revert Hrun; unfold TickInverter; rewrite Hc;
           discriminate).
    destruct (TickInverter_over_child Tick n ctx c Hc) as (Hs & _ & Hch).
    cbn zeta in Hs, Hch. rewrite Hs in Hrun.
    exists 0%nat, (out_node (Tick c (fst (enter_if_fresh n ctx)))).
    unfold ChildAt. rewrite Hch. split; [reflexivity|].
    split; [|intros [H|H]; discriminate].
    rewrite Tick_stored.
    destruct (out_status (Tick c (fst (enter_if_fresh n ctx))));
      cbn in Hrun; congruence.
  - cbn. discriminate.
Qed.

Lemma Tick_tree_waiting n :
  Forall waits_on_running_child (preorder n) ->
  forall ctx, Forall waits_on_running_child (preorder (out_node (Tick n ctx))).
Proof.
  induction n as [n IH] using Node_tree_ind. intros Hall ctx.
  apply Forall_preorder in Hall. destruct Hall as (_ & Hch).
  apply Forall_preorder. split; [apply Tick_leaves_waiting|].
  destruct (Tick_provenance n ctx) as (Hs & _). revert IH Hch.
  induction Hs as [|x y l l' Hxy _ IHl]; intros IH Hch; constructor.
  - inversion IH as [|? ? Hx _]; inversion Hch as [|? ? Hqx _]; subst.
    destruct Hxy as [|x y [->|(ctx' & ->)]]; cbn in *; auto.
  - inversion IH; inversion Hch; subst. apply IHl; assumption.
Qed.

Lemma In_preorder_child n i c d :
  nth_error (children_ n) i = Some (Some c) ->
  In d (preorder c) -> In d (preorder n).
Proof.
  intros Hi Hd. rewrite preorder_unfold. right.
  revert i Hi. induction (children_ n) as [|[x|] rest IHl]; intros i Hi.
  - destruct i; discriminate.
  - cbn [preorder_loop]. apply in_or_app. destruct i as [|i].
    + injection Hi as ->. left. exact Hd.
    + right. apply (IHl i Hi).
  - cbn [preorder_loop]. destruct i as [|i]; [discriminate|].
    apply (IHl i Hi).
Qed.

Lemma running_leaf_below n :
  Forall waits_on_running_child (preorder n) ->
  status_ n = kRunning ->
  exists d, In d (preorder n) /\ IsLeafType (type_ d) = true /\
            status_ d = kRunning.
Proof.
  induction n as [n IH] using Node_tree_ind. intros Hall Hrun.
  apply Forall_preorder in Hall. destruct Hall as (Hn & Hch).
  destruct (Hn Hrun) as [Hleaf|(i & c & Hi & Hc & _)].
  - exists n. split; [rewrite preorder_unfold; left; reflexivity|auto].
  - unfold ChildAt in Hi.
    destruct (nth_error (children_ n) i) as [[c0|]|] eqn:Hnth;
      try discriminate.
    injection Hi as ->.
    pose proof (nth_error_In _ _ Hnth) as Hin.
    rewrite Forall_forall in IH, Hch.
    destruct (IH _ Hin (Hch _ Hin) Hc) as (d & Hd & Hleaf & Hdr).
    exists d. split; [eapply In_preorder_child; eauto|auto].
Qed.

(** X15.  A node that a tick leaves Running is a leaf, or holds a Running
    child: under its cursor if it is a Sequence or Selector.  So in a tree
    of idle nodes, and from there on after any number of ticks, a tick
    returns Running only while some Action or Condition leaf of the tree is
    Running. *)
Theorem Running_rests_on_a_Running_leaf n :
  (forall ctx, waits_on_running_child (out_node (Tick n ctx))) /\
  (Forall idle (preorder n) -> Forall waits_on_running_child (preorder n)) /\
  (Forall waits_on_running_child (preorder n) ->
   forall ctxs,
     Forall (fun o =>
               Forall waits_on_running_child (preorder (out_node o)) /\
               (out_status o = kRunning ->
                exists d, In d (preorder (out_node o)) /\
                          IsLeafType (type_ d) = true /\
                          status_ d = kRunning))
            (run_cycles n ctxs)).
Proof.
  split; [apply Tick_leaves_waiting|]. split.
  - apply Forall_impl. intros d (Hs & _) Hrun. congruence.
  - intros Hn ctxs. revert n Hn.
    induction ctxs as [|ctx rest IH]; intros n Hn; cbn [run_cycles];
      constructor.
    + split; [apply Tick_tree_waiting; exact Hn|].
      intros Hrun. apply running_leaf_below.
      * apply Tick_tree_waiting. exact Hn.
      * rewrite Tick_stored. exact Hrun.
    + apply IH. apply Tick_tree_waiting. exact Hn.
Qed.

(** ** Sequence and Selector are dual under inversion *)

Lemma Status_eqb_inverted (r pass : Status) :
  Status_eqb (inverted r) (inverted pass) = Status_eqb r pass.
Proof. destruct r, pass; reflexivity. Qed.

Lemma inverted_running (r : Status) : inverted r = kRunning <-> r = kRunning.
Proof. destruct r; cbn; split; congruence. Qed.

Lemma Tick_wrapper (c w : Node Context) ctx :
  wraps c w ->
  out_status (Tick w ctx) = inverted (out_status (Tick c ctx)) /\
  out_ctx (Tick w ctx) = out_ctx (Tick c ctx) /\
  wraps (out_node (Tick c ctx)) (out_node (Tick w ctx)).
Proof.
  intros (Hty & Hen & Hex & Hch).
  destruct (Tick_keeps_node_config w ctx) as (T1 & _ & T3 & T4 & _).
  cbn zeta in T1, T3, T4.
  assert (Hw : Tick w ctx = TickInverter Tick w ctx)
    by (rewrite Tick_unfold, Hty; reflexivity).
  rewrite Hw in *.
  assert (Hfst : fst (enter_if_fresh w ctx) = ctx).
  { unfold enter_if_fresh, CallEnter. rewrite Hen.
    destruct (status_ w); reflexivity. }
  destruct (TickInverter_over_child Tick w ctx c Hch) as (Hs & _ & Hc).
  pose proof (TickInverter_ctx Tick w ctx c Hch) as Hx.
  cbn zeta in Hs, Hc, Hx. rewrite Hfst in Hs, Hc, Hx.
  split; [exact Hs|]. split.
  - rewrite Hx. unfold exit_if_finished, CallExit. rewrite Hex.
    destruct (out_status (TickInverter Tick w ctx)); reflexivity.
  - unfold wraps. rewrite T1, T3, T4. auto.
Qed.

Lemma scan_children_dual (pass : Status) (start : nat) slots wslots :
  Forall2 (slot_rel wraps) slots wslots ->
  forall i ctx,
    let s := scan_children Tick pass start i slots ctx in
    let s' := scan_children Tick (inverted pass) start i wslots ctx in
    scan_ctx s' = scan_ctx s /\
    scan_exit s'
    = match scan_exit s with
      | ScanReturn k r => ScanReturn k (inverted r)
      | e => e
      end /\
    Forall2 (slot_rel wraps) (scan_slots s) (scan_slots s').
Proof.
  induction 1 as [|x y l l' Hxy Hrest IH]; intros i ctx; cbn [scan_children].
  - cbn. repeat split; constructor.
  - destruct (i <? start)%nat.
    + destruct (IH (S i) ctx) as (H1 & H2 & H3).
      cbn [scan_cons scan_exit scan_ctx scan_slots].
      split; [exact H1|]. split; [exact H2|]. constructor; assumption.
    + destruct Hxy as [|c w Hcw].
      * cbn. repeat split. constructor; [constructor|exact Hrest].
      * destruct (Tick_wrapper c w ctx Hcw) as (Hs & Hc & Hn).
        rewrite Hs, Hc, Status_eqb_inverted.
        destruct (Status_eqb (out_status (Tick c ctx)) pass).
        -- destruct (IH (S i) (out_ctx (Tick c ctx))) as (H1 & H2 & H3).
           cbn [scan_cons scan_exit scan_ctx scan_slots].
           split; [exact H1|]. split; [exact H2|].
           constructor; [constructor; exact Hn|exact H3].
        -- cbn. repeat split.
           constructor; [constructor; exact Hn|exact Hrest].
Qed.

Lemma scan_node_dual (pass end_status : Status) (a b : Node Context) ctx
      (oa ob : Outcome Context) :
  let sa := scan_children Tick pass (entry_cursor a) 0 (children_ a)
                          (fst (enter_if_fresh a ctx)) in
  let sb := scan_children Tick (inverted pass) (entry_cursor b) 0
                          (children_ b) (fst (enter_if_fresh b ctx)) in
  (out_events oa
   = enter_events a ++ scan_events sa ++ exit_events a (out_status oa) /\
   children_ (out_node oa) = scan_slots sa /\
   match scan_exit sa with
   | ScanNull _ =>
       out_status oa = kError /\ current_child_ (out_node oa) = entry_cursor a
   | ScanReturn k r => out_status oa = r /\ current_child_ (out_node oa) = k
   | ScanEnd =>
       out_status oa = end_status /\
       current_child_ (out_node oa) = entry_cursor a
   end) ->
  out_ctx oa = fst (exit_if_finished a (out_status oa) (scan_ctx sa)) ->
  (out_events ob
   = enter_events b ++ scan_events sb ++ exit_events b (out_status ob) /\
   children_ (out_node ob) = scan_slots sb /\
   match scan_exit sb with
   | ScanNull _ =>
       out_status ob = kError /\ current_child_ (out_node ob) = entry_cursor b
   | ScanReturn k r => out_status ob = r /\ current_child_ (out_node ob) = k
   | ScanEnd =>
       out_status ob = inverted end_status /\
       current_child_ (out_node ob) = entry_cursor b
   end) ->
  out_ctx ob = fst (exit_if_finished b (out_status ob) (scan_ctx sb)) ->
  on_enter_ a = on_enter_ b ->
  on_exit_ a = on_exit_ b ->
  (status_ a = kRunning <-> status_ b = kRunning) ->
  (status_ a = kRunning -> current_child_ a = current_child_ b) ->
  Forall2 (slot_rel wraps) (children_ a) (children_ b) ->
  dual_observation oa ob /\
  Forall2 (slot_rel wraps)
          (children_ (out_node oa)) (children_ (out_node ob)) /\
  current_child_ (out_node oa) = current_child_ (out_node ob).
Proof.
  intros sa sb (_ & Cha & Xa) Ca (_ & Chb & Xb) Cb Hen Hex Hrun Hcur Hch.
  pose proof (entry_cursor_alike a b Hrun Hcur) as Hec.
  destruct (enter_if_fresh_alike a b ctx Hrun Hen) as (Hef & _).
  subst sb. rewrite <- Hec, <- Hef in *.
  destruct (scan_children_dual pass (entry_cursor a) _ _ Hch 0
              (fst (enter_if_fresh a ctx))) as (H1 & H2 & H3).
  fold sa in H1, H2, H3. rewrite H1, H2 in *.
  assert (Hst : out_status ob = inverted (out_status oa) /\
                current_child_ (out_node oa) = current_child_ (out_node ob)).
  { destruct (scan_exit sa) as [k|k r|];
      destruct Xa as (-> & ->), Xb as (-> & ->); auto. }
  destruct Hst as (Hst & Hcc).
  split; [|split; [rewrite Cha, Chb; exact H3|exact Hcc]].
  split; [exact Hst|].
  rewrite Ca, Cb, Hst. unfold exit_if_finished, CallExit. rewrite <- Hex.
  destruct (out_status oa); reflexivity.
Qed.

Lemma Tick_duals (a b : Node Context) ctx :
  duals a b ->
  dual_observation (Tick a ctx) (Tick b ctx) /\
  duals (out_node (Tick a ctx)) (out_node (Tick b ctx)).
Proof.
  intros (Hty & Hen & Hex & Hrun & Hcur & Hch).
  destruct (Tick_keeps_node_config a ctx) as (A1 & _ & A3 & A4 & _).
  destruct (Tick_keeps_node_config b ctx) as (B1 & _ & B3 & B4 & _).
  cbn zeta in *.
  assert (Hparts :
    dual_observation (Tick a ctx) (Tick b ctx) /\
    Forall2 (slot_rel wraps) (children_ (out_node (Tick a ctx)))
            (children_ (out_node (Tick b ctx))) /\
    current_child_ (out_node (Tick a ctx))
    = current_child_ (out_node (Tick b ctx))).
  { rewrite (Tick_unfold a), (Tick_unfold b).
    destruct Hty as [(Ha & Hb)|(Ha & Hb)]; rewrite Ha, Hb.
    - apply (scan_node_dual kSuccess kSuccess a b ctx
               (TickSequence Tick a ctx) (TickSelector Tick b ctx)
               (TickSequence_by_scan Tick a ctx) (TickSequence_ctx Tick a ctx)
               (TickSelector_by_scan Tick b ctx) (TickSelector_ctx Tick b ctx));
        assumption.
    - apply (scan_node_dual kFailure kFailure a b ctx
               (TickSelector Tick a ctx) (TickSequence Tick b ctx)
               (TickSelector_by_scan Tick a ctx) (TickSelector_ctx Tick a ctx)
               (TickSequence_by_scan Tick b ctx) (TickSequence_ctx Tick b ctx));
        assumption. }
  destruct Hparts as (Hobs & Hkids & Hk).
  split; [exact Hobs|].
  unfold duals. rewrite A1, A3, A4, B1, B3, B4, !Tick_stored.
  destruct Hobs as (Hs & _). rewrite Hs, inverted_running.
  repeat split; auto; tauto.
Qed.

(** X16.  Sequence and Selector are dual under inversion.  Take a Sequence
    and a Selector (or a Selector and a Sequence) with the same lifecycle
    callbacks, the second over Inverters without callbacks that wrap the
    children of the first, both at the same point of their scans: over any
    number of ticks the second returns Failure where the first returns
    Success and Success where it returns Failure, Running and Error alike,
    and leaves the same context.  The factory helpers build such a pair
    from one node and one list of children. *)
Theorem Sequence_and_Selector_are_dual (a b : Node Context) ctxs :
  (duals a b ->
   Forall2 dual_observation (run_cycles a ctxs) (run_cycles b ctxs)) /\
  (forall (kMaxChildren : nat) node name cs seq sel,
      MakeSequence kMaxChildren node (map Some cs) = Some seq ->
      MakeSelector kMaxChildren node
                   (map (fun c => Some (MakeInverter (NewNode name) c)) cs)
      = Some sel ->
      duals seq sel).
Proof.
  split.
  - revert a b. induction ctxs as [|ctx rest IH]; intros a b Hab;
      cbn [run_cycles]; constructor.
    + apply Tick_duals. exact Hab.
    + apply IH. apply Tick_duals. exact Hab.
  - intros kMaxChildren node name cs seq sel.
    unfold MakeSequence, MakeSelector, SetChildren. rewrite !length_map.
    destruct (List.length cs <=? kMaxChildren)%nat; [|discriminate].
    intros Hseq Hsel. injection Hseq as <-. injection Hsel as <-.
    unfold duals. cbn. repeat split; auto.
    induction cs as [|c cs IHcs]; cbn; constructor; auto.
    constructor. repeat split.
Qed.

(** ** Trees whose leaves never return Running *)

Lemma Tick_tree_settled n :
  Forall (fun d => status_ d <> kRunning /\ finishes_at_once d) (preorder n) ->
  forall ctx,
    Forall (fun d => status_ d <> kRunning /\ finishes_at_once d)
           (preorder (out_node (Tick n ctx))).
Proof.
  induction n as [n IH] using Node_tree_ind. intros Hall ctx.
  apply Forall_preorder in Hall. destruct Hall as ((_ & Hcb) & Hch).
  assert (Hkids :
    Forall (slot_all (fun c =>
              Forall (fun d => status_ d <> kRunning /\ finishes_at_once d)
                     (preorder c)))
           (children_ (out_node (Tick n ctx)))).
  { destruct (Tick_provenance n ctx) as (Hs & _). revert IH Hch.
    induction Hs as [|x y l l' Hxy _ IHl]; intros IH Hch; constructor.
    - inversion IH as [|? ? Hx _]; inversion Hch as [|? ? Hqx _]; subst.
      destruct Hxy as [|x y [->|(ctx' & ->)]]; cbn in *; auto.
    - inversion IH; inversion Hch; subst. apply IHl; assumption. }
  destruct (Tick_keeps_node_config n ctx) as (Hty & Htk & _).
  cbn zeta in Hty, Htk.
  apply Forall_preorder. split; [split|exact Hkids].
  - intros Hrun.
    destruct (Tick_leaves_waiting n ctx Hrun) as [Hleaf|(i & c & Hi & Hc & _)].
    + rewrite Hty in Hleaf. rewrite Tick_stored, Tick_unfold in Hrun.
      assert (Hl : out_status (TickLeaf n ctx) = kRunning)
        by (destruct (type_ n); try discriminate; exact Hrun).
      destruct (tick_ n) as [f|] eqn:Hf.
      * rewrite (TickLeaf_status n ctx f Hf) in Hl. exact (Hcb f _ Hf Hl).
      * destruct (TickLeaf_unbound n ctx Hf) as (He & _). congruence.
    + unfold ChildAt in Hi.
      destruct (nth_error (children_ (out_node (Tick n ctx))) i)
        as [[c0|]|] eqn:Hnth; try discriminate.
      injection Hi as ->. apply nth_error_In in Hnth.
      rewrite Forall_forall in Hkids. specialize (Hkids _ Hnth). cbn in Hkids.
      apply Forall_preorder in Hkids. destruct Hkids as ((Hs & _) & _).
      exact (Hs Hc).
  - intros f ctx' Hf. apply Hcb. congruence.
Qed.

(** X17.  A tree of idle nodes whose tick callbacks never return Running
    never returns Running: every tick ends with a terminal status and leaves
    no node of the tree Running, over any number of ticks. *)
Theorem Tree_of_prompt_leaves_never_returns_Running n ctxs :
  Forall idle (preorder n) ->
  Forall finishes_at_once (preorder n) ->
  Forall (fun o => out_status o <> kRunning /\
                   Forall (fun d => status_ d <> kRunning)
                          (preorder (out_node o)))
         (run_cycles n ctxs).
Proof.
  intros Hidle Hcb.
  assert (Hinv : Forall (fun d => status_ d <> kRunning /\ finishes_at_once d)
                        (preorder n)).
  { rewrite Forall_forall in *. intros d Hd. split; [|apply Hcb; exact Hd].
    destruct (Hidle d Hd) as (Hs & _). congruence. }
  clear Hidle Hcb. revert n Hinv.
  induction ctxs as [|ctx rest IH]; intros n Hinv; cbn [run_cycles];
    constructor.
  - pose proof (Tick_tree_settled n Hinv ctx) as Hafter. split.
    + apply Forall_preorder in Hafter. destruct Hafter as ((Hs & _) & _).
      rewrite Tick_stored in Hs. exact Hs.
    + revert Hafter. apply Forall_impl. tauto.
  - apply IH. apply Tick_tree_settled. exact Hinv.
Qed.

End MoreProperties.

(** ** The further properties on the small trees *)

(** X4 on the three-leaf Sequence, with room for eight children. *)
Lemma Validated_tree_never_returns_Error_witness :
  Forall (cannot_err 8) (preorder demo_sequence) /\
  Forall (fun o => out_status o <> kError)
         (run_cycles demo_sequence [0%nat; 1%nat]).
Proof.
  assert (H : Forall (cannot_err 8) (preorder demo_sequence)).
  { cbn [preorder demo_sequence demo_composite children_ preorder_loop
         demo_leaf app].
    repeat (apply Forall_cons;
            [split; [reflexivity|split; [discriminate|callback_never]]
            |]).
    apply Forall_nil. }
  split; [exact H|].
  apply (Validated_tree_never_returns_Error 8 demo_sequence _ H).
Defined.

(** X5 on the two-leaf Parallel. *)
Lemma Bitmaps_stay_sound_witness :
  Forall (fun d => idle d /\ Validate 8 d = kNone) (preorder demo_parallel) /\
  Forall (fun o => Forall bitmaps_sound (preorder (out_node o)))
         (run_cycles demo_parallel [0%nat; 1%nat]).
Proof.
  assert (H : Forall (fun d => idle d /\ Validate 8 d = kNone)
                     (preorder demo_parallel)).
  { cbn [preorder demo_parallel demo_composite children_ preorder_loop
         demo_leaf app].
    repeat (apply Forall_cons; [split; [repeat split|reflexivity]|]).
    apply Forall_nil. }
  split; [exact H|].
  destruct (Bitmaps_stay_sound 8 demo_parallel) as (Hidle & Hkeep).
  exact (Hkeep (Hidle H) _).
Defined.

(** X6 on the Inverter over an Inverter over a leaf that fails. *)
Lemma Inverter_inverts_witness :
  type_ demo_double_inverter = kInverter /\
  children_ demo_double_inverter = [Some demo_inverter] /\
  out_status (Tick demo_double_inverter 0%nat) = kFailure.
Proof.
  split; [reflexivity|]. split; [reflexivity|].
  pose proof (Inverter_inverts demo_double_inverter 0%nat demo_inverter
                eq_refl eq_refl) as H.
  cbv zeta in H. destruct H as (_ & _ & _ & _ & _ & _ & _ & Hdouble).
  rewrite (Hdouble (demo_leaf kFailure kFailure) eq_refl eq_refl).
  reflexivity.
Defined.

(** X7 on the Running Parallel whose child 0 is done: child 1 alone is
    ticked. *)
Lemma Parallel_ticks_children_not_done_witness :
  type_ demo_parallel_running = kParallel /\
  (children_count_ demo_parallel_running <= kMaxParallelChildren)%nat /\
  map fst (child_ticks (out_events (Tick demo_parallel_running 3%nat)))
  = [1%nat].
Proof.
  assert (Hlen : (children_count_ demo_parallel_running
                  <= kMaxParallelChildren)%nat) by (vm_compute; lia).
  split; [reflexivity|]. split; [exact Hlen|].
  pose proof (Parallel_ticks_children_not_done demo_parallel_running 3%nat
                eq_refl Hlen) as H.
  cbv zeta in H. destruct H as (Hrun & _).
  rewrite (Hrun eq_refl). reflexivity.
Defined.

(** X8 on a manager that is ticked twice, reset, and ticked again. *)
Lemma Manager_counts_ticks_witness :
  (0 <= BehaviorTree.tick_count_ demo_manager < uint32_max)%Z /\
  BehaviorTree.tick_count_ (BehaviorTree.run demo_manager demo_calls) = 3%Z.
Proof.
  assert (H : (0 <= BehaviorTree.tick_count_ demo_manager < uint32_max)%Z)
    by (vm_compute; split; [discriminate|reflexivity]).
  split; [exact H|].
  destruct (Manager_counts_ticks demo_manager demo_calls H)
    as (_ & Hsmall & _).
  rewrite Hsmall; [reflexivity|vm_compute; reflexivity].
Defined.

Lemma demo_sequence_idle : Forall idle (preorder demo_sequence).
Proof.
  cbn [preorder demo_sequence demo_composite children_ preorder_loop
       demo_leaf app].
  repeat (apply Forall_cons; [repeat split|]). apply Forall_nil.
Defined.

(** X13 on the three-leaf Sequence, over two ticks. *)
Lemma Running_nodes_hang_together_witness :
  Forall idle (preorder demo_sequence) /\
  Forall (fun o => Forall running_children_held (preorder (out_node o)))
         (run_cycles demo_sequence [0%nat; 1%nat]).
Proof.
  split; [exact demo_sequence_idle|].
  destruct (Running_nodes_hang_together demo_sequence) as (Hidle & Hkeep & _).
  exact (Hkeep (Hidle demo_sequence_idle) _).
Defined.

(** X14 on the Selector after the tick that made it succeed. *)
Lemma Tick_reads_only_the_resume_state_witness :
  Forall (fun d => status_ d <> kRunning)
         (preorder (out_node (Tick demo_selector 0%nat))) /\
  Forall2 same_observation
          (run_cycles (out_node (Tick demo_selector 0%nat)) [5%nat; 6%nat])
          (run_cycles (Reset (out_node (Tick demo_selector 0%nat)))
                      [5%nat; 6%nat]).
Proof.
  assert (H : Forall (fun d => status_ d <> kRunning)
                     (preorder (out_node (Tick demo_selector 0%nat)))).
  { vm_compute. repeat (apply Forall_cons; [discriminate|]). apply Forall_nil. }
  split; [exact H|].
  destruct (Tick_reads_only_the_resume_state
              (out_node (Tick demo_selector 0%nat))
              (out_node (Tick demo_selector 0%nat)) [5%nat; 6%nat])
    as (_ & Hsettled).
  exact (proj2 (Hsettled H)).
Defined.

(** X15 on the three-leaf Sequence: its tick returns Running, and the second
    leaf is Running. *)
Lemma Running_rests_on_a_Running_leaf_witness :
  Forall idle (preorder demo_sequence) /\
  out_status (Tick demo_sequence 0%nat) = kRunning /\
  exists d, In d (preorder (out_node (Tick demo_sequence 0%nat))) /\
            IsLeafType (type_ d) = true /\ status_ d = kRunning.
Proof.
  split; [exact demo_sequence_idle|]. split; [reflexivity|].
  destruct (Running_rests_on_a_Running_leaf demo_sequence)
    as (_ & Hidle & Hkeep).
  pose proof (Hkeep (Hidle demo_sequence_idle) [0%nat]) as Hone.
  cbn [run_cycles] in Hone.
  inversion Hone as [|? ? (_ & Hleaf) _]; subst.
  apply Hleaf. reflexivity.
Defined.

(** X16 on a Sequence over two leaves and the Selector over their
    Inverters. *)
Lemma Sequence_and_Selector_are_dual_witness :
  duals demo_dual_sequence demo_dual_selector /\
  Forall2 dual_observation
          (run_cycles demo_dual_sequence [0%nat; 1%nat])
          (run_cycles demo_dual_selector [0%nat; 1%nat]).
Proof.
  assert (H : duals demo_dual_sequence demo_dual_selector).
  { unfold duals. cbn. repeat split; auto.
    repeat (apply Forall2_cons; [apply slot_rel_child; repeat split|]).
    apply Forall2_nil. }
  split; [exact H|].
  exact (proj1 (Sequence_and_Selector_are_dual demo_dual_sequence
                  demo_dual_selector [0%nat; 1%nat]) H).
Defined.

(** X17 on the Selector, whose leaves return Failure or Success at once. *)
Lemma Tree_of_prompt_leaves_never_returns_Running_witness :
  Forall idle (preorder demo_selector) /\
  Forall finishes_at_once (preorder demo_selector) /\
  Forall (fun o => out_status o <> kRunning /\
                   Forall (fun d => status_ d <> kRunning)
                          (preorder (out_node o)))
         (run_cycles demo_selector [0%nat; 1%nat]).
Proof.
  assert (Hidle : Forall idle (preorder demo_selector)).
  { cbn [preorder demo_selector demo_composite children_ preorder_loop
         demo_leaf app].
    repeat (apply Forall_cons; [repeat split|]). apply Forall_nil. }
  assert (Hcb : Forall finishes_at_once (preorder demo_selector)).
  { cbn [preorder demo_selector demo_composite children_ preorder_loop
         demo_leaf app].
    repeat (apply Forall_cons; [callback_never|]). apply Forall_nil. }
  split; [exact Hidle|]. split; [exact Hcb|].
  apply (Tree_of_prompt_leaves_never_returns_Running demo_selector _ Hidle Hcb).
Defined.
